(** * Roman Zecret: a shallow embedding of [index.py]

    The development follows the program leaf first: Python text and its
    UTF-8 codec, the helper functions around the [cryptography] package,
    the payload framing and its parser, entry file names, the line editor
    and the re-encryption loop of [change_password]. *)

From Stdlib Require Import ZArith Lia.
From stdpp Require Import base option list strings pretty gmap sorting finite.

Local Open Scope Z_scope.

(** ** Python text and bytes

    A Python [str] is a sequence of code points and a [bytes] object a
    sequence of integers below 256; both are lists of [Z]. *)

Abbreviation pystr := (list Z) (only parsing).
Abbreviation bytes := (list Z) (only parsing).

Definition is_byte (b : Z) : Prop := 0 <= b < 256.

(** A string literal of the source, as a [pystr]. *)
Definition lit (s : String.string) : pystr :=
  map (fun a => Z.of_N (Ascii.N_of_ascii a)) (String.list_ascii_of_string s).
Arguments lit s%_string.

(** *** [str.encode('utf-8')] and [bytes.decode('utf-8')]

    The strict codec: encoding raises [UnicodeEncodeError] on a surrogate
    code point, decoding raises [UnicodeDecodeError] on anything that is not
    the shortest encoding of a scalar value. An exception is [None]. *)

Definition is_surrogate (c : Z) : bool := (0xD800 <=? c) && (c <=? 0xDFFF).

Definition utf8_encode_char (c : Z) : option bytes :=
  if c <? 0 then None
  else if c <? 0x80 then Some [c]
  else if c <? 0x800 then Some [0xC0 + c / 64; 0x80 + c mod 64]
  else if c <? 0x10000 then
    if is_surrogate c then None
    else Some [0xE0 + c / 4096; 0x80 + (c / 64) mod 64; 0x80 + c mod 64]
  else if c <? 0x110000 then
    Some [0xF0 + c / 262144; 0x80 + (c / 4096) mod 64;
          0x80 + (c / 64) mod 64; 0x80 + c mod 64]
  else None.

Fixpoint str_encode (s : pystr) : option bytes :=
  match s with
  | [] => Some []
  | c :: s' =>
      match utf8_encode_char c, str_encode s' with
      | Some bs, Some bs' => Some (bs ++ bs')
      | _, _ => None
      end
  end.

Definition is_cont (b : Z) : bool := (0x80 <=? b) && (b <=? 0xBF).

Fixpoint bytes_decode (bs : bytes) : option pystr :=
  match bs with
  | [] => Some []
  | b0 :: r0 =>
      if (0 <=? b0) && (b0 <? 0x80) then cons b0 <$> bytes_decode r0
      else if (0xC2 <=? b0) && (b0 <=? 0xDF) then
        match r0 with
        | b1 :: r1 =>
            if is_cont b1
            then cons ((b0 - 0xC0) * 64 + (b1 - 0x80)) <$> bytes_decode r1
            else None
        | _ => None
        end
      else if (0xE0 <=? b0) && (b0 <=? 0xEF) then
        match r0 with
        | b1 :: b2 :: r2 =>
            let c := (b0 - 0xE0) * 4096 + (b1 - 0x80) * 64 + (b2 - 0x80) in
            if is_cont b1 && is_cont b2 && (0x800 <=? c) && negb (is_surrogate c)
            then cons c <$> bytes_decode r2
            else None
        | _ => None
        end
      else if (0xF0 <=? b0) && (b0 <=? 0xF4) then
        match r0 with
        | b1 :: b2 :: b3 :: r3 =>
            let c := (b0 - 0xF0) * 262144 + (b1 - 0x80) * 4096
                     + (b2 - 0x80) * 64 + (b3 - 0x80) in
            if is_cont b1 && is_cont b2 && is_cont b3
               && (0x10000 <=? c) && (c <? 0x110000)
            then cons c <$> bytes_decode r3
            else None
        | _ => None
        end
      else None
  end.

(** Text that [str.encode] accepts: code points that are scalar values. *)
Definition is_scalar (c : Z) : bool :=
  (0 <=? c) && (c <? 0x110000) && negb (is_surrogate c).

Definition encodable (s : pystr) : Prop := Forall (fun c => is_scalar c = true) s.

(** *** String methods used by the program *)

(** [s.startswith(p)] *)
Fixpoint startswith (s p : pystr) {struct p} : bool :=
  match p with
  | [] => true
  | a :: p' =>
      match s with
      | b :: s' => (a =? b) && startswith s' p'
      | [] => false
      end
  end.

(** [s.endswith(p)] *)
Definition endswith (s p : pystr) : bool := startswith (rev s) (rev p).

(** The split of [s] at the leftmost occurrence of a non-empty [sep]:
    what is before it and what is after it. *)
Fixpoint str_partition (sep s : pystr) {struct s} : option (pystr * pystr) :=
  if startswith s sep then Some ([], drop (length sep) s)
  else match s with
       | [] => None
       | c :: s' =>
           match str_partition sep s' with
           | Some (a, b) => Some (c :: a, b)
           | None => None
           end
       end.

(** [s.split(sep, 1)] *)
Definition str_split1 (sep s : pystr) : list pystr :=
  match str_partition sep s with
  | Some (a, b) => [a; b]
  | None => [s]
  end.

(** [s.split(sep)]; the fuel is the length of [s], one more than the number
    of cuts a non-empty separator can make. *)
Fixpoint str_split_fuel (fuel : nat) (sep s : pystr) : list pystr :=
  match fuel with
  | O => [s]
  | S fuel' =>
      match str_partition sep s with
      | Some (a, b) => a :: str_split_fuel fuel' sep b
      | None => [s]
      end
  end.

Definition str_split (sep s : pystr) : list pystr :=
  str_split_fuel (length s) sep s.

(** [str.isspace] of one code point (CPython's [_PyUnicode_IsWhitespace]). *)
Definition is_space (c : Z) : bool :=
  ((0x09 <=? c) && (c <=? 0x0D)) || ((0x1C <=? c) && (c <=? 0x20))
  || (c =? 0x85) || (c =? 0xA0) || (c =? 0x1680)
  || ((0x2000 <=? c) && (c <=? 0x200A))
  || (c =? 0x2028) || (c =? 0x2029) || (c =? 0x202F) || (c =? 0x205F)
  || (c =? 0x3000).

Fixpoint str_lstrip (s : pystr) : pystr :=
  match s with
  | c :: s' => if is_space c then str_lstrip s' else s
  | [] => []
  end.

Definition str_rstrip (s : pystr) : pystr := rev (str_lstrip (rev s)).

(** [s.strip()] *)
Definition str_strip (s : pystr) : pystr := str_lstrip (str_rstrip s).

(** A line boundary of [str.splitlines] (CPython's [_PyUnicode_IsLinebreak]). *)
Definition is_linebreak (c : Z) : bool :=
  ((0x0A <=? c) && (c <=? 0x0D)) || ((0x1C <=? c) && (c <=? 0x1E))
  || (c =? 0x85) || (c =? 0x2028) || (c =? 0x2029).

(** [s.splitlines()]: [cur] holds the current line, reversed. A carriage
    return followed by a line feed is one boundary; a last line with no
    boundary after it is kept when it is not empty. *)
Fixpoint splitlines_from (cur s : pystr) : list pystr :=
  match s with
  | [] => match cur with [] => [] | _ => [rev cur] end
  | c :: s' =>
      if is_linebreak c then
        match s' with
        | c' :: s'' =>
            if (c =? 0x0D) && (c' =? 0x0A)
            then rev cur :: splitlines_from [] s''
            else rev cur :: splitlines_from [] s'
        | [] => rev cur :: splitlines_from [] s'
        end
      else splitlines_from (c :: cur) s'
  end.

Definition splitlines (s : pystr) : list pystr := splitlines_from [] s.

(** [sep.join(parts)] *)
Fixpoint str_join (sep : pystr) (parts : list pystr) : pystr :=
  match parts with
  | [] => []
  | [p] => p
  | p :: ps => p ++ sep ++ str_join sep ps
  end.

(** Lexicographic order on code points, the order of [list.sort] on [str]. *)
Fixpoint str_leb (a b : pystr) : bool :=
  match a, b with
  | [], _ => true
  | _ :: _, [] => false
  | x :: a', y :: b' => (x <? y) || ((x =? y) && str_leb a' b')
  end.

(** ** Exceptions *)

Inductive exn :=
| ValueError | UnicodeEncodeError | UnicodeDecodeError
| FileNotFoundError | PermissionError | OSError | IndexError.

Inductive result (A : Type) :=
| Ok (a : A)
| Raise (e : exn).
Arguments Ok {A} a.
Arguments Raise {A} e.

(** ** Configuration *)

Definition NOTES_DIR : pystr := Eval vm_compute in lit "roman_zecret_notes".
Definition PASSWORD_FILE : pystr := Eval vm_compute in lit ".roman_zecret_hash".
Definition SALT_SIZE : Z := 16.
Definition KEY_ITERATIONS : Z := 100000.
Definition ENTRY_EXTENSION : pystr := Eval vm_compute in lit ".rz".

(** ** The [cryptography] package and [hashlib], [base64]

    The program only calls these; they enter as an interface. [entropy] is
    what one [Fernet.encrypt] call draws from the clock and [os.urandom].
    [fernet_key_ok] is the check of the [Fernet] constructor, which raises
    [ValueError] on a key that is not 32 url-safe base64-encoded bytes;
    [fernet_decrypt] is [None] where the library raises [InvalidToken].
    [b64encode_str data] is [base64.b64encode(data).decode()] and
    [b64decode] is [None] where [base64.b64decode] raises. *)

Definition is_b64_char (c : Z) : bool :=
  ((65 <=? c) && (c <=? 90)) || ((97 <=? c) && (c <=? 122))
  || ((48 <=? c) && (c <=? 57)) || (c =? 43) || (c =? 47) || (c =? 61).

Definition is_hex_digit (c : Z) : bool :=
  ((48 <=? c) && (c <=? 57)) || ((97 <=? c) && (c <=? 102)).

Class Cryptography := {
  entropy : Type;
  fernet_key_ok : bytes -> bool;
  fernet_encrypt : bytes -> entropy -> bytes -> bytes;
  fernet_decrypt : bytes -> bytes -> option bytes;
  pbkdf2_hmac_sha256 : bytes -> bytes -> Z -> Z -> bytes;
  urlsafe_b64encode : bytes -> bytes;
  sha256_hexdigest : bytes -> pystr;
  b64encode_str : bytes -> pystr;
  b64decode : pystr -> option bytes;
  fernet_decrypt_encrypt : forall key r data,
    fernet_key_ok key = true ->
    fernet_decrypt key (fernet_encrypt key r data) = Some data;
  derived_key_ok : forall password salt iterations,
    fernet_key_ok
      (urlsafe_b64encode (pbkdf2_hmac_sha256 password salt iterations 32)) = true;
  fernet_key_nonempty : fernet_key_ok [] = false;
  b64encode_alphabet : forall data,
    Forall (fun c => is_b64_char c = true) (b64encode_str data);
  b64decode_b64encode : forall data,
    Forall is_byte data -> b64decode (b64encode_str data) = Some data;
  sha256_hexdigest_hex : forall data,
    Forall (fun c => is_hex_digit c = true) (sha256_hexdigest data)
}.

(** What [encrypt_data] may be handed: a [str] or already [bytes]. *)
Inductive pydata :=
| Str (s : pystr)
| Bytes (b : bytes).

Section Helpers.
Context {crypto : Cryptography}.

Definition get_key_from_password (password : pystr) (salt : bytes) : result bytes :=
  match str_encode password with
  | None => Raise UnicodeEncodeError
  | Some pw =>
      Ok (urlsafe_b64encode (pbkdf2_hmac_sha256 pw salt KEY_ITERATIONS 32))
  end.

Definition encrypt_data (data : pydata) (key : bytes) (r : entropy) : result bytes :=
  if fernet_key_ok key then
    match data with
    | Str s =>
        match str_encode s with
        | Some b => Ok (fernet_encrypt key r b)
        | None => Raise UnicodeEncodeError
        end
    | Bytes b => Ok (fernet_encrypt key r b)
    end
  else Raise ValueError.

Definition decrypt_data (encrypted_data key : bytes) : result (option pystr) :=
  if fernet_key_ok key then
    match fernet_decrypt key encrypted_data with
    | Some decrypted => Ok (bytes_decode decrypted)
    | None => Ok None
    end
  else Raise ValueError.

(** The digest that is stored and compared: [hashlib.sha256] of the key. *)
Definition key_hash (key : bytes) : pystr := sha256_hexdigest key.

Definition verify_password (password : pystr) (salt : bytes) (stored_key_hash : pystr)
  : result (bool * bytes) :=
  match get_key_from_password password salt with
  | Raise e => Raise e
  | Ok key => Ok (bool_decide (key_hash key = stored_key_hash), key)
  end.

End Helpers.

(** ** Payload framing and its parser *)

Definition TITLE_MARK : pystr := Eval vm_compute in lit "TITLE:".
Definition CONTENT_SEP : pystr :=
  Eval vm_compute in [10] ++ lit "--CONTENT--" ++ [10].

(** [f"TITLE:{title}\n--CONTENT--\n{content}"] of [write_new_entry] and
    [edit_entry]. *)
Definition full_entry_data (title content : pystr) : pystr :=
  TITLE_MARK ++ title ++ CONTENT_SEP ++ content.

(** "Parse Title and Content" of [select_and_read_entry]: the pair
    [(title, content)]. *)
Definition parse_entry (selected_note decrypted_full_entry : pystr) : pystr * pystr :=
  let title := lit "Zecret: " ++ selected_note in
  let content := decrypted_full_entry in
  match str_split1 CONTENT_SEP decrypted_full_entry with
  | [part0; part1] =>
      if startswith part0 TITLE_MARK
      then (str_strip (drop (length TITLE_MARK) part0), part1)
      else (title, content)
  | _ => (title, content)
  end.

(** ** Entry file names *)

Record datetime := {
  year : Z; month : Z; day : Z; hour : Z; minute : Z; second : Z
}.

Definition digit (n : Z) : Z := 48 + n mod 10.

(** A two-digit field of [strftime] ([%m], [%d], [%H], [%M], [%S]). *)
Definition zero_pad2 (n : Z) : pystr := [digit (n / 10); digit n].

(** The four-digit year of [%Y]. *)
Definition zero_pad4 (n : Z) : pystr :=
  [digit (n / 1000); digit (n / 100); digit (n / 10); digit n].

(** An [int] formatted in an f-string. *)
Definition int_str (n : Z) : pystr := lit (pretty n).

(** [now.strftime("%Y%m%d_%H%M%S")] *)
Definition timestamp (now : datetime) : pystr :=
  zero_pad4 (year now) ++ zero_pad2 (month now) ++ zero_pad2 (day now)
  ++ lit "_"
  ++ zero_pad2 (hour now) ++ zero_pad2 (minute now) ++ zero_pad2 (second now).

(** "Generate filename" of [write_new_entry]; [r] is the value drawn by
    [random.randint(100,999)]. *)
Definition entry_filename (now : datetime) (r : Z) : pystr :=
  timestamp now ++ lit "_" ++ int_str r ++ ENTRY_EXTENSION.

(** What [random.randint(100,999)] can return. *)
Definition randint_100_999 (r : Z) : Prop := 100 <= r <= 999.

(** ** Keyboard input *)

Inductive event :=
| KeyPress (key : Z)
| KeyboardInterrupt.

Definition KEY_DOWN : Z := 258.
Definition KEY_UP : Z := 259.
Definition KEY_LEFT : Z := 260.
Definition KEY_RIGHT : Z := 261.
Definition KEY_BACKSPACE : Z := 263.
Definition KEY_DC : Z := 330.
Definition KEY_ENTER : Z := 343.

(** [key in [a, b, c]] *)
Definition key_in (key : Z) (keys : list Z) : bool := bool_decide (key ∈ keys).

(** *** [get_string_input]: the one-line prompt *)

Inductive input_result :=
| Entered (text : pystr)
| InputCancelled
| InputPending (text : pystr).

Fixpoint string_input_loop (max_len : nat) (events : list event) (text : pystr)
  : input_result :=
  match events with
  | [] => InputPending text
  | KeyboardInterrupt :: _ => InputCancelled
  | KeyPress key :: events' =>
      if key_in key [KEY_ENTER; 10; 13] then Entered text
      else if key_in key [KEY_BACKSPACE; 127; 8] then
        string_input_loop max_len events'
          (if bool_decide (0 < length text)%nat
           then take (length text - 1) text else text)
      else if key =? 27 then InputCancelled
      else if (32 <=? key) && (key <=? 126) then
        string_input_loop max_len events'
          (if bool_decide (length text < max_len)%nat
           then text ++ [key] else text)
      else string_input_loop max_len events' text
  end.

(** [room] is false when the prompt does not fit on the screen
    ([y >= max_y or x + len(prompt) + 1 >= max_x]): the function then returns
    the empty string without reading a key. *)
Definition get_string_input (room : bool) (max_len : nat) (events : list event)
  : input_result :=
  if room then string_input_loop max_len events [] else Entered [].

(** *** [get_multiline_input] and [get_multiline_input_with_content]:
    the line editor *)

Record editor := {
  lines : list pystr;
  current_line_idx : nat;
  cursor_x : nat;
  top_line_idx : nat
}.

Inductive step_result :=
| Continue (st : editor)
| Finish (st : editor)
| Crash (e : exn).

(** [lines.insert(i, x)] *)
Definition list_insert_at {A} (i : nat) (x : A) (l : list A) : list A :=
  take i l ++ x :: drop i l.

Section Editor.
Local Open Scope nat_scope.
Variable edit_win_h : nat.

(** "Adjust Scroll" at the end of each turn of the loop. *)
Definition adjust_scroll (st : editor) : editor :=
  if bool_decide (current_line_idx st < top_line_idx st) then
    {| lines := lines st; current_line_idx := current_line_idx st;
       cursor_x := cursor_x st; top_line_idx := current_line_idx st |}
  else if bool_decide (top_line_idx st + edit_win_h <= current_line_idx st) then
    {| lines := lines st; current_line_idx := current_line_idx st;
       cursor_x := cursor_x st;
       top_line_idx := current_line_idx st - edit_win_h + 1 |}
  else st.

(** The end of a turn that leaves the lines [ls] and the cursor on line
    [idx] at column [x]: the scroll position is adjusted and the loop goes
    on. The transitions follow, in the order of the branches of "Process
    Input". *)
Definition moved (st : editor) (ls : list pystr) (idx x : nat) : step_result :=
  Continue (adjust_scroll
    {| lines := ls; current_line_idx := idx; cursor_x := x;
       top_line_idx := top_line_idx st |}).

Definition newline (st : editor) (current_line : pystr) : step_result :=
  let before_cursor := take (cursor_x st) current_line in
  let after_cursor := drop (cursor_x st) current_line in
  let lines1 := <[current_line_idx st := before_cursor]> (lines st) in
  let idx := current_line_idx st + 1 in
  moved st (list_insert_at idx after_cursor lines1) idx 0.

Definition backspace (st : editor) (current_line : pystr) : step_result :=
  if bool_decide (0 < cursor_x st) then
    moved st
      (<[current_line_idx st :=
           take (cursor_x st - 1) current_line ++ drop (cursor_x st) current_line]>
         (lines st))
      (current_line_idx st) (cursor_x st - 1)
  else if bool_decide (0 < current_line_idx st) then
    match lines st !! (current_line_idx st - 1) with
    | None => Crash IndexError
    | Some prev_line =>
        moved st
          (delete (current_line_idx st)
             (<[current_line_idx st - 1 := prev_line ++ current_line]> (lines st)))
          (current_line_idx st - 1) (length prev_line)
    end
  else moved st (lines st) (current_line_idx st) (cursor_x st).

Definition delete_forward (st : editor) (current_line : pystr) : step_result :=
  if bool_decide (cursor_x st < length current_line) then
    moved st
      (<[current_line_idx st :=
           take (cursor_x st) current_line ++ drop (cursor_x st + 1) current_line]>
         (lines st))
      (current_line_idx st) (cursor_x st)
  else moved st (lines st) (current_line_idx st) (cursor_x st).

Definition move_up (st : editor) : step_result :=
  if bool_decide (0 < current_line_idx st) then
    match lines st !! (current_line_idx st - 1) with
    | None => Crash IndexError
    | Some line =>
        moved st (lines st) (current_line_idx st - 1)
          (Nat.min (cursor_x st) (length line))
    end
  else moved st (lines st) (current_line_idx st) (cursor_x st).

Definition move_down (st : editor) : step_result :=
  if bool_decide (current_line_idx st < length (lines st) - 1) then
    match lines st !! (current_line_idx st + 1) with
    | None => Crash IndexError
    | Some line =>
        moved st (lines st) (current_line_idx st + 1)
          (Nat.min (cursor_x st) (length line))
    end
  else moved st (lines st) (current_line_idx st) (cursor_x st).

Definition move_left (st : editor) : step_result :=
  if bool_decide (0 < cursor_x st) then
    moved st (lines st) (current_line_idx st) (cursor_x st - 1)
  else if bool_decide (0 < current_line_idx st) then
    match lines st !! (current_line_idx st - 1) with
    | None => Crash IndexError
    | Some line => moved st (lines st) (current_line_idx st - 1) (length line)
    end
  else moved st (lines st) (current_line_idx st) (cursor_x st).

Definition move_right (st : editor) (current_line : pystr) : step_result :=
  if bool_decide (cursor_x st < length current_line) then
    moved st (lines st) (current_line_idx st) (cursor_x st + 1)
  else if bool_decide (current_line_idx st < length (lines st) - 1) then
    moved st (lines st) (current_line_idx st + 1) 0
  else moved st (lines st) (current_line_idx st) (cursor_x st).

Definition insert_char (st : editor) (current_line : pystr) (key : Z) : step_result :=
  moved st
    (<[current_line_idx st :=
         take (cursor_x st) current_line ++ key :: drop (cursor_x st) current_line]>
       (lines st))
    (current_line_idx st) (cursor_x st + 1).

(** One turn of the loop after [getch] returned [key]. *)
Definition process_key (key : Z) (st : editor) : step_result :=
  match lines st !! current_line_idx st with
  | None => Crash IndexError
  | Some current_line =>
      if key_in key [KEY_ENTER; 10; 13]%Z then newline st current_line
      else if key_in key [KEY_BACKSPACE; 127; 8]%Z then backspace st current_line
      else if (key =? KEY_DC)%Z then delete_forward st current_line
      else if (key =? KEY_UP)%Z then move_up st
      else if (key =? KEY_DOWN)%Z then move_down st
      else if (key =? KEY_LEFT)%Z then move_left st
      else if (key =? KEY_RIGHT)%Z then move_right st current_line
      else if key_in key [4; 7]%Z then Finish st
      else if ((32 <=? key) && (key <=? 126))%Z then insert_char st current_line key
      else moved st (lines st) (current_line_idx st) (cursor_x st)
  end.

Inductive editor_result :=
| Lines (ls : list pystr)
| Cancelled
| Crashed (e : exn)
| Pending (st : editor).

Fixpoint editor_loop (events : list event) (st : editor) : editor_result :=
  match events with
  | [] => Pending st
  | KeyboardInterrupt :: _ => Cancelled
  | KeyPress key :: events' =>
      match process_key key st with
      | Continue st' => editor_loop events' st'
      | Finish st' => Lines (lines st')
      | Crash e => Crashed e
      end
  end.

End Editor.

(** The state in which the editor starts: [lines], the cursor on line 0 at
    column 0, the window on line 0. *)
Definition editor_start (ls : list pystr) : editor :=
  {| lines := ls; current_line_idx := 0; cursor_x := 0; top_line_idx := 0 |}.

(** [get_multiline_input]; a window with no room returns [None] at once. *)
Definition get_multiline_input (edit_win_h edit_win_w : Z) (events : list event)
  : editor_result :=
  if (edit_win_h <=? 0) || (edit_win_w <=? 0) then Cancelled
  else editor_loop (Z.to_nat edit_win_h) events (editor_start [[]]).

(** [lines = initial_lines.copy() if initial_lines else [""]] *)
Definition initial_buffer (initial_lines : list pystr) : list pystr :=
  match initial_lines with
  | [] => [[]]
  | _ => initial_lines
  end.

Definition get_multiline_input_with_content (edit_win_h edit_win_w : Z)
  (initial_lines : list pystr) (events : list event) : editor_result :=
  if (edit_win_h <=? 0) || (edit_win_w <=? 0) then Cancelled
  else editor_loop (Z.to_nat edit_win_h) events
         (editor_start (initial_buffer initial_lines)).

(** "Prepare initial content based on edit mode" and "Convert content to
    lines for the editor" of [edit_entry]. *)
Definition APPEND_MARKER : pystr :=
  Eval vm_compute in [10; 10] ++ lit "--- APPENDED CONTENT ---" ++ [10; 10].

Definition edit_initial_lines (is_append_mode : bool) (old_content : pystr)
  : list pystr :=
  let initial_content :=
    if is_append_mode then old_content ++ APPEND_MARKER else old_content in
  let initial_lines := splitlines initial_content in
  match initial_lines with
  | [] => [[]]
  | _ => initial_lines
  end.

(** The state of the editor when [edit_entry] opens it. *)
Definition edit_session_start (is_append_mode : bool) (old_content : pystr) : editor :=
  editor_start (initial_buffer (edit_initial_lines is_append_mode old_content)).

(** ** The vault on disk

    [notes] are the files of [NOTES_DIR] by name and [password_file] is the
    text of [PASSWORD_FILE]. The remaining fields say which calls fail with
    an [OSError]: [open] for reading or for writing a note, [open] for
    writing the password file (such a call leaves the file as it was), and
    [os.chmod] on the password file. [short_write] holds the notes on which
    [open] for writing succeeds and the write that follows fails, as on a
    full disk: [open] has emptied or created the file by then, and the
    number is how many bytes of the data have reached it. *)

Record world := {
  notes : gmap (list Z) (list Z);
  password_file : option (list Z);
  read_denied : gset (list Z);
  write_denied : gset (list Z);
  short_write : gmap (list Z) nat;
  password_file_denied : bool;
  chmod_denied : bool
}.

(** [with open(filepath, "rb") as f: f.read()] *)
Definition read_note (w : world) (note_file : pystr) : result bytes :=
  if bool_decide (note_file ∈ read_denied w) then Raise PermissionError
  else match notes w !! note_file with
       | Some data => Ok data
       | None => Raise FileNotFoundError
       end.

(** The vault with [data] as the bytes of [note_file]. *)
Definition store (w : world) (note_file : pystr) (data : bytes) : world :=
  {| notes := <[note_file := data]> (notes w);
     password_file := password_file w;
     read_denied := read_denied w;
     write_denied := write_denied w;
     short_write := short_write w;
     password_file_denied := password_file_denied w;
     chmod_denied := chmod_denied w |}.

(** [with open(filepath, "wb") as f: f.write(data)]: the vault it leaves,
    and whether it raised. A failing [open] leaves the file as it was; a
    write that fails after it leaves the part of the data that was
    stored. *)
Definition write_note (w : world) (note_file : pystr) (data : bytes)
  : world * result unit :=
  if bool_decide (note_file ∈ write_denied w) then (w, Raise PermissionError)
  else match short_write w !! note_file with
       | Some n => (store w note_file (take n data), Raise OSError)
       | None => (store w note_file data, Ok tt)
       end.

(** [with open(PASSWORD_FILE, "w") as f: f.write(text)] *)
Definition write_password_file (w : world) (text : pystr) : result world :=
  if password_file_denied w then Raise PermissionError
  else Ok {| notes := notes w;
             password_file := Some text;
             read_denied := read_denied w;
             write_denied := write_denied w;
             short_write := short_write w;
             password_file_denied := password_file_denied w;
             chmod_denied := chmod_denied w |}.

(** [os.chmod(PASSWORD_FILE, 0o600)] *)
Definition chmod_password_file (w : world) : result unit :=
  if chmod_denied w then Raise PermissionError else Ok tt.

(** [get_sorted_notes]: the names of [os.listdir] that end in the entry
    extension, sorted in descending order. *)
Definition sorts_before (a b : pystr) : Prop := str_leb b a = true.

#[global] Instance sorts_before_dec a b : Decision (sorts_before a b) :=
  decide (str_leb b a = true).

Definition get_sorted_notes (w : world) : list pystr :=
  merge_sort sorts_before
    (filter (fun f => endswith f ENTRY_EXTENSION = true) (elements (dom (notes w)))).

(** [f.readline()] of a text file: up to the first line end, which reads
    as a line feed. *)
Fixpoint readline (text : pystr) : pystr :=
  match text with
  | [] => []
  | c :: text' =>
      if (c =? 10) || (c =? 13) then [10] else c :: readline text'
  end.

Section Vault.
Context {crypto : Cryptography}.

(** [save_password_hash]; [salt] is what [os.urandom(SALT_SIZE)] returned.
    The pair [(None, None)] of the source is [None]. *)
Definition save_password_hash (password : pystr) (salt : bytes) (w : world)
  : result (world * option (bytes * bytes)) :=
  match get_key_from_password password salt with
  | Raise e => Raise e
  | Ok key =>
      match write_password_file w (b64encode_str salt ++ lit ":" ++ key_hash key) with
      | Ok w' =>
          match chmod_password_file w' with
          | Ok _ => Ok (w', Some (salt, key))
          | Raise _ => Ok (w', None)
          end
      | Raise _ => Ok (w, None)
      end
  end.

(** [load_password_salt_and_hash] *)
Definition load_password_salt_and_hash (w : world) : option (bytes * pystr) :=
  match password_file w with
  | None => None
  | Some text =>
      let line := str_strip (readline text) in
      match str_split (lit ":") line with
      | [salt_b64; stored_key_hash] =>
          match b64decode salt_b64 with
          | Some salt => Some (salt, stored_key_hash)
          | None => None
          end
      | _ => None
      end
  end.

(** *** Saving and loading one entry *)

Inductive write_outcome :=
| EntryCancelled
| NoContent
| SaveError
| Saved (filename : pystr).

(** [write_new_entry] from the two inputs on: [title] and [content_lines]
    are what [get_string_input] and [get_multiline_input] returned, [now] is
    the clock and [r] the value of [random.randint(100,999)]. *)
Definition write_new_entry (w : world) (encryption_key : bytes)
  (title : option pystr) (content_lines : option (list pystr))
  (now : datetime) (r : Z) (e : entropy) : world * write_outcome :=
  match title with
  | None => (w, EntryCancelled)
  | Some title =>
      let title := match title with [] => lit "Untitled Zecret" | _ => title end in
      match content_lines with
      | None => (w, EntryCancelled)
      | Some content_lines =>
          let content := str_join [10] content_lines in
          match str_strip content with
          | [] => (w, NoContent)
          | _ =>
              let full := full_entry_data title content in
              match encrypt_data (Str full) encryption_key e with
              | Raise _ => (w, SaveError)
              | Ok [] => (w, SaveError)
              | Ok encrypted_content =>
                  let filename := entry_filename now r in
                  match write_note w filename encrypted_content with
                  | (w', Ok _) => (w', Saved filename)
                  | (w', Raise _) => (w', SaveError)
                  end
              end
          end
      end
  end.

Inductive read_outcome :=
| DecryptionFailed
| FileMissing
| ReadError
| Opened (title content : pystr).

(** [select_and_read_entry] once [selected_note] is chosen with Enter: what
    it reads, decrypts and parses. [Opened title content] is the pair that
    the edit mode returns and the read mode displays. *)
Definition select_and_read_entry (w : world) (encryption_key : bytes)
  (selected_note : pystr) : read_outcome :=
  match read_note w selected_note with
  | Raise FileNotFoundError => FileMissing
  | Raise _ => ReadError
  | Ok encrypted_data =>
      match decrypt_data encrypted_data encryption_key with
      | Raise _ => ReadError
      | Ok None => DecryptionFailed
      | Ok (Some decrypted_full_entry) =>
          let '(title, content) := parse_entry selected_note decrypted_full_entry in
          Opened title content
      end
  end.

(** *** [change_password]: "4. Re-encrypt all notes" *)

Record counters := { success_count : nat; fail_count : nat }.

Definition failed (w : world) (c : counters) : world * counters :=
  (w, {| success_count := success_count c; fail_count := S (fail_count c) |}).

Definition succeeded (w : world) (c : counters) : world * counters :=
  (w, {| success_count := S (success_count c); fail_count := fail_count c |}).

(** The body of the loop for one [note_file]. *)
Definition reencrypt_note (old_key new_key : bytes) (r : entropy)
  (note_file : pystr) (st : world * counters) : world * counters :=
  let '(w, c) := st in
  match read_note w note_file with
  | Raise _ => failed w c
  | Ok encrypted_data =>
      match decrypt_data encrypted_data old_key with
      | Raise _ => failed w c
      | Ok None => failed w c
      | Ok (Some decrypted_content) =>
          match encrypt_data (Str decrypted_content) new_key r with
          | Raise _ => failed w c
          | Ok new_encrypted_data =>
              match write_note w note_file new_encrypted_data with
              | (w', Raise _) => failed w' c
              | (w', Ok _) => succeeded w' c
              end
          end
      end
  end.

(** The loop; [rs i] is the entropy of the [i]-th turn. *)
Fixpoint reencrypt_notes (old_key new_key : bytes) (rs : nat -> entropy)
  (i : nat) (notes : list pystr) (st : world * counters) : world * counters :=
  match notes with
  | [] => st
  | note_file :: notes' =>
      reencrypt_notes old_key new_key rs (S i) notes'
        (reencrypt_note old_key new_key (rs i) note_file st)
  end.

Record report := {
  changed : bool;
  session_key : bytes;
  total_notes : nat;
  tally : counters
}.

(** [change_password] from "3. Save New Password Hash" on: steps 1 and 2
    have asked for the passwords and [new_password] is their result. The
    pair of the source is [(changed, session_key)]; the counts are what its
    last message shows. *)
Definition change_password (new_password : pystr) (new_salt old_key : bytes)
  (rs : nat -> entropy) (w : world) : result (world * report) :=
  let unchanged w :=
    Ok (w, {| changed := false; session_key := old_key; total_notes := 0;
              tally := {| success_count := 0; fail_count := 0 |} |}) in
  match save_password_hash new_password new_salt w with
  | Raise e => Raise e
  | Ok (w1, None) => unchanged w1
  | Ok (w1, Some ([], _)) => unchanged w1
  | Ok (w1, Some (_, [])) => unchanged w1
  | Ok (w1, Some (_, new_key)) =>
      let notes := get_sorted_notes w1 in
      let '(w2, c) :=
        reencrypt_notes old_key new_key rs 0 notes
          (w1, {| success_count := 0; fail_count := 0 |}) in
      Ok (w2, {| changed := true; session_key := new_key;
                 total_notes := length notes; tally := c |})
  end.

End Vault.

(** ** The invariant of the line editor

    [0 <= cursorLine < len(lines)], [0 <= cursorColumn <=
    len(lines[cursorLine])] and [lines] is never empty; the indices are
    natural numbers. *)
Definition buffer_inv (st : editor) : Prop :=
  lines st <> [] /\
  (current_line_idx st < length (lines st))%nat /\
  exists line, lines st !! current_line_idx st = Some line /\
               (cursor_x st <= length line)%nat.

(** What a transition leaves behind: a state within the invariant, never
    an [IndexError]. *)
Definition keeps_inv (r : step_result) : Prop :=
  match r with
  | Continue st' | Finish st' => buffer_inv st'
  | Crash _ => False
  end.

(** The cursor stands at the end of the buffer: on the last line, after its
    last character. *)
Definition cursor_at_end (st : editor) : Prop :=
  S (current_line_idx st) = length (lines st) /\
  exists line, lines st !! current_line_idx st = Some line /\
               cursor_x st = length line.

(** A clock reading, an empty vault and a vault whose one file has the name
    that [write_new_entry] makes from that reading and the draw 500. *)
Definition noon : datetime :=
  {| year := 2025; month := 1; day := 15; hour := 12; minute := 0; second := 0 |}.

Definition vault_of (files : gmap (list Z) (list Z)) : world :=
  {| notes := files; password_file := None;
     read_denied := ∅; write_denied := ∅; short_write := ∅;
     password_file_denied := false; chmod_denied := false |}.

(** ** Well-framed payloads and titles that survive the framing *)

(** [sep in s] *)
Definition contains (sep s : pystr) : Prop := exists a b, s = a ++ sep ++ b.

(** A payload with both markers of the framing. *)
Definition framed (payload : pystr) : Prop :=
  exists title body, payload = TITLE_MARK ++ title ++ CONTENT_SEP ++ body.

(** The separator without its last line feed. *)
Definition CONTENT_SEP_HEAD : pystr :=
  Eval vm_compute in [10] ++ lit "--CONTENT--".

(** A title in which the parser finds no separator before the one of the
    framing: it does not contain the separator and does not end with the
    separator's first twelve characters. *)
Definition title_clean (title : pystr) : Prop :=
  ~ contains CONTENT_SEP title /\ endswith title CONTENT_SEP_HEAD = false.

(** A title as [get_string_input] returns it: printable ASCII. *)
Definition typed (text : pystr) : Prop := Forall (fun c => 32 <= c <= 126) text.

(** A vault with one note that was written without the framing. *)
Definition legacy_name : pystr := Eval vm_compute in lit "20240101_000000_123.rz".
Definition legacy_text : pystr := Eval vm_compute in lit "no framing here".

(** ** What the re-encryption is measured against *)

Section RotationSpec.
Context {crypto : Cryptography}.

(** The bytes of an entry decrypt under the key. *)
Definition decrypts (w : world) (key : bytes) (note_file : pystr) : Prop :=
  exists data s, notes w !! note_file = Some data /\
                 decrypt_data data key = Ok (Some s).

(** No storage error on the file of an entry: it can be opened for reading
    and for writing, and what is written reaches it. *)
Definition storable (w : world) (note_file : pystr) : Prop :=
  (note_file ∉ read_denied w) /\ (note_file ∉ write_denied w) /\
  short_write w !! note_file = None.

(** An entry that the loop can carry over: no storage error on its file,
    and its bytes decrypt under the old key. *)
Definition healthy (w : world) (old_key : bytes) (note_file : pystr) : Prop :=
  storable w note_file /\ decrypts w old_key note_file.

(** The credential can be written and given its permissions. *)
Definition credential_writable (w : world) : Prop :=
  password_file_denied w = false /\ chmod_denied w = false.

(** No storage error: the credential can be written and every entry can be
    read and written. *)
Definition storage_ok (w : world) : Prop :=
  credential_writable w /\
  forall f, f ∈ get_sorted_notes w -> storable w f.

(** An entry that is read and does not decrypt under the old key. *)
Definition undecryptable (w : world) (old_key : bytes) (note_file : pystr) : Prop :=
  exists data, read_note w note_file = Ok data /\
               forall s, decrypt_data data old_key <> Ok (Some s).

(** The entry decrypts under the new key in [w'] to what it decrypted to
    under the old key in [w]. *)
Definition rekeyed (w w' : world) (old_key new_key : bytes) (note_file : pystr) : Prop :=
  exists data data' s,
    notes w !! note_file = Some data /\ decrypt_data data old_key = Ok (Some s) /\
    notes w' !! note_file = Some data' /\ decrypt_data data' new_key = Ok (Some s).

(** The bytes of the entry in [w'] are a token that [encrypt_data] made
    under the new key from what the entry decrypted to under the old key
    in [w]. *)
Definition reencrypted (w w' : world) (old_key new_key : bytes) (note_file : pystr)
  : Prop :=
  exists data s r token,
    notes w !! note_file = Some data /\ decrypt_data data old_key = Ok (Some s) /\
    encrypt_data (Str s) new_key r = Ok token /\
    notes w' !! note_file = Some token.

#[global] Instance decrypts_dec w key note_file : Decision (decrypts w key note_file).
Proof.
  unfold decrypts. destruct (notes w !! note_file) as [data|].
  - destruct (decrypt_data data key) as [[s|]|e] eqn:Hdec.
    + left. exists data, s. auto.
    + right. intros (data' & s & [= <-] & Hs). congruence.
    + right. intros (data' & s & [= <-] & Hs). congruence.
  - right. intros (data' & s & Hnone & _). discriminate.
Defined.

#[global] Instance healthy_dec w old_key note_file :
  Decision (healthy w old_key note_file).
Proof. unfold healthy, storable. apply _. Defined.

End RotationSpec.

(** ** Counting passwords and digests

    [base64_text k n] writes [n] with [k] characters from [0] to [o], the
    lowest digit first; [hex_number] is the number that a text of
    hexadecimal digits writes, the lowest digit first. *)
Fixpoint base64_text (k : nat) (n : Z) : pystr :=
  match k with
  | O => []
  | S k' => 48 + n mod 64 :: base64_text k' (n / 64)
  end.

Definition hex_value (c : Z) : Z := if c <=? 57 then c - 48 else c - 87.

Fixpoint hex_number (s : pystr) : Z :=
  match s with
  | [] => 0
  | c :: s' => hex_value c + 16 * hex_number s'
  end.

(** The digest that [save_password_hash] stores for the password that
    [base64_text 43] writes for [n]. *)
Definition stored_digest {crypto : Cryptography} (salt : bytes) (n : Z) : pystr :=
  key_hash (urlsafe_b64encode
              (pbkdf2_hmac_sha256 (default [] (str_encode (base64_text 43 n)))
                 salt KEY_ITERATIONS 32)).

(** Two passwords of 33 characters that differ in the last one. *)
Definition long_password (c : Z) : pystr := replicate 32 97 ++ [c].

(** The characters of the credential line: no line end, no white space. *)
Definition plain (c : Z) : Prop := 43 <= c <= 122.

(** Decides the comparisons of a goal by linear arithmetic. *)
Ltac ztest :=
  repeat match goal with
  | |- context [?a <? ?b] =>
      first [ rewrite (proj2 (Z.ltb_lt a b)) by lia
            | rewrite (proj2 (Z.ltb_ge a b)) by lia ]
  | |- context [?a <=? ?b] =>
      first [ rewrite (proj2 (Z.leb_le a b)) by lia
            | rewrite (proj2 (Z.leb_gt a b)) by lia ]
  end.

(** ** A small instance of the interface

    It stands in for the libraries where a statement is run on concrete
    data: the token is the plaintext behind one byte of entropy and the key,
    a key is good when it has the 44 bytes of a url-safe base64 text, the key
    derivation cuts password and salt to length, and the two text encodings
    write a byte as two letters or two hexadecimal digits. *)

Module Simple.

Definition key_ok (key : bytes) : bool := bool_decide (length key = 44%nat).

Definition encrypt (key : bytes) (r : Z) (data : bytes) : bytes := r :: key ++ data.

Definition decrypt (key token : bytes) : option bytes :=
  match token with
  | [] => None
  | _ :: body =>
      if bool_decide (take (length key) body = key)
      then Some (drop (length key) body)
      else None
  end.

Definition pbkdf2 (password salt : bytes) (iterations len : Z) : bytes :=
  take (Z.to_nat len) (password ++ salt ++ replicate (Z.to_nat len) 0).

Definition b64url (data : bytes) : bytes := take 44 (data ++ replicate 44 61).

Definition hex_digit (n : Z) : Z :=
  if n mod 16 <? 10 then 48 + n mod 16 else 87 + n mod 16.

Fixpoint hexdigest (data : bytes) : pystr :=
  match data with
  | [] => []
  | b :: data' => hex_digit (b / 16) :: hex_digit b :: hexdigest data'
  end.

Fixpoint letters (data : bytes) : pystr :=
  match data with
  | [] => []
  | b :: data' => 65 + (b / 16) mod 16 :: 65 + b mod 16 :: letters data'
  end.

Fixpoint unletters (s : pystr) : option bytes :=
  match s with
  | [] => Some []
  | hi :: lo :: s' => cons ((hi - 65) * 16 + (lo - 65)) <$> unletters s'
  | _ => None
  end.

#[export] Instance crypto : Cryptography.
Proof.
  refine {| entropy := Z;
            fernet_key_ok := key_ok;
            fernet_encrypt := encrypt;
            fernet_decrypt := decrypt;
            pbkdf2_hmac_sha256 := pbkdf2;
            urlsafe_b64encode := b64url;
            sha256_hexdigest := hexdigest;
            b64encode_str := letters;
            b64decode := unletters;
            fernet_key_nonempty := eq_refl |}.
  - intros key r data _. unfold decrypt, encrypt.
    rewrite take_app_length, bool_decide_eq_true_2 by reflexivity.
    rewrite drop_app_length. reflexivity.
  - intros password salt iterations.
    unfold key_ok, b64url. apply bool_decide_eq_true_2.
    rewrite length_take, length_app, length_replicate. lia.
  - intros data. induction data as [|b data IH]; [constructor|].
    simpl. repeat constructor; [| |exact IH]; unfold is_b64_char;
      Z.to_euclidean_division_equations; ztest; reflexivity.
  - induction 1 as [|b data Hb _ IH]; [reflexivity|].
    simpl. rewrite IH. simpl.
    do 2 f_equal. unfold is_byte in Hb. Z.to_euclidean_division_equations; lia.
  - intros data. induction data as [|b data IH]; [constructor|].
    simpl. repeat constructor; [| |exact IH]; unfold is_hex_digit, hex_digit;
      match goal with |- context [?n mod 16 <? 10] =>
        destruct (Z.ltb_spec (n mod 16) 10) end;
      Z.to_euclidean_division_equations; ztest; reflexivity.
Defined.

(** A key of the right length and a salt of [SALT_SIZE] bytes. *)
Definition key1 : bytes := replicate 44 65.
Definition key2 : bytes := replicate 44 66.
Definition salt1 : bytes := replicate 16 7.

(** A vault with one note that was written without the framing. *)
Definition legacy_vault : world :=
  vault_of {[ legacy_name := encrypt key1 0 legacy_text ]}.

(** Two vaults under [key1]: one with two sound entries, one whose second
    entry is corrupt. *)
Definition name1 : pystr := Eval vm_compute in lit "20250115_120000_500.rz".
Definition name2 : pystr := Eval vm_compute in lit "20250115_120001_501.rz".
Definition payload1 : pystr :=
  Eval vm_compute in full_entry_data (lit "T") (lit "hello" ++ [10] ++ lit "world").
Definition payload2 : pystr :=
  Eval vm_compute in full_entry_data (lit "Second") (lit "more").

Definition sound_vault : world :=
  vault_of (<[name1 := encrypt key1 1 payload1]>
              {[ name2 := encrypt key1 2 payload2 ]}).

Definition damaged_vault : world :=
  vault_of (<[name1 := encrypt key1 1 payload1]> {[ name2 := [1; 2; 3] ]}).

Definition new_password : pystr := Eval vm_compute in lit "correctpw2".

(** The keys that type [new_password] at a prompt and confirm it. *)
Definition new_password_keys : list event :=
  Eval vm_compute in (KeyPress <$> new_password) ++ [KeyPress 10].

(** A first password, the key derived from it with [salt1], and the vault
    after [save_password_hash] has stored its credential. *)
Definition password1 : pystr := Eval vm_compute in lit "correctpw1".
Definition stored_key : bytes :=
  Eval vm_compute in b64url (pbkdf2 password1 salt1 KEY_ITERATIONS 32).
Definition credential_line : pystr :=
  Eval vm_compute in letters salt1 ++ lit ":" ++ hexdigest stored_key.
Definition credential_vault : world :=
  {| notes := ∅; password_file := Some credential_line;
     read_denied := ∅; write_denied := ∅; short_write := ∅;
     password_file_denied := false; chmod_denied := false |}.

End Simple.

(** ** [display_note_content]: the viewer

    [HEADER_HEIGHT] is [len(SKULL_HEADER)]. The screen has [max_y] rows and
    [max_x] columns. *)

Definition KEY_NPAGE : Z := 338.
Definition KEY_PPAGE : Z := 339.
Definition HEADER_HEIGHT : Z := 8.

(** What the viewer can raise: [NameError] for a name that is not bound,
    [curses.error] for a cursor move outside the screen, and the
    [ValueError] of [textwrap.wrap] for a width that is not positive. *)
Inductive view_exn :=
| NameError
| CursesError
| WrapError.

(** How a call of the viewer ends: it returns or raises, with the events
    that are left; [getch] is interrupted; or the events have run out and
    it waits for a key. *)
Inductive view_result :=
| ViewReturned (rest : list event)
| ViewRaised (e : view_exn) (rest : list event)
| ViewInterrupted
| ViewPending (display_offset : Z).

(** "Display Content Lines": the calls that are not guarded by a [try]. The
    first row decides: it wraps a line with [width = max_x - 4] when there
    is a line at [display_offset], and moves the cursor to column 2
    otherwise; the rows below it do the same or less. *)
Definition draw_content (max_x len display_offset : Z) : option view_exn :=
  if display_offset <? len then
    if max_x - 4 <=? 0 then Some WrapError else None
  else
    if max_x <=? 2 then Some CursesError else None.

(** The branches on [key] that change [display_offset]. *)
Definition scroll (content_height len key display_offset : Z) : Z :=
  if key =? KEY_UP then
    if 0 <? display_offset then display_offset - 1 else display_offset
  else if key =? KEY_DOWN then
    if display_offset + content_height <? len then display_offset + 1
    else display_offset
  else if key =? KEY_PPAGE then Z.max 0 (display_offset - content_height)
  else if key =? KEY_NPAGE then
    if display_offset + content_height <? len then
      Z.max 0 (Z.min (len - content_height) (display_offset + content_height))
    else display_offset
  else display_offset.

(** The [while True] loop and what follows it. Escape, [q] and [Q] leave
    the loop; the statements after the loop are the body that was left
    behind under the commented-out [# def edit_entry] line: they belong to
    [display_note_content], and the first of them that does anything,
    [select_and_read_entry(stdscr, encryption_key, edit_mode=True)], reads
    the name [encryption_key], which is neither a parameter or local of
    this function nor a global of the module. *)
Fixpoint display_loop (max_y max_x : Z) (lines : list pystr)
  (events : list event) (display_offset : Z) : view_result :=
  let header_y := HEADER_HEIGHT + 2 in
  let content_y_start := header_y + 2 in
  let content_height := max_y - content_y_start - 2 in
  if content_height <=? 0 then ViewReturned events
  else
    match draw_content max_x (Z.of_nat (length lines)) display_offset with
    | Some e => ViewRaised e events
    | None =>
        match events with
        | [] => ViewPending display_offset
        | KeyboardInterrupt :: _ => ViewInterrupted
        | KeyPress key :: events' =>
            if (key =? KEY_UP) || (key =? KEY_DOWN)
               || (key =? KEY_PPAGE) || (key =? KEY_NPAGE) then
              display_loop max_y max_x lines events'
                (scroll content_height (Z.of_nat (length lines)) key display_offset)
            else if key_in key [27; 113; 81] then ViewRaised NameError events'
            else display_loop max_y max_x lines events' display_offset
        end
    end.

Definition display_note_content (max_y max_x : Z) (content : pystr)
  (events : list event) : view_result :=
  display_loop max_y max_x (splitlines content) events 0.

(** ** [select_and_read_entry]: the list of notes

    [listed] is the list [notes] of the function, taken from
    [get_sorted_notes()] when it starts and again after a
    [FileNotFoundError]; the vault [w] is the notes directory at the time a
    note is opened, which may have lost files since the list was taken. *)

Record browser := {
  listed : list pystr;
  active_option : Z;
  list_offset : Z
}.

(** [notes[i]] for a Python [int]. *)
Definition py_index {A} (l : list A) (i : Z) : option A :=
  if 0 <=? i then l !! Z.to_nat i
  else if 0 <=? Z.of_nat (length l) + i then l !! Z.to_nat (Z.of_nat (length l) + i)
  else None.

(** What the function returns: [None], [False], [True], or the triple of the
    edit mode. *)
Inductive selection :=
| ReturnNone
| ReturnFalse
| ReturnTrue
| ReturnEntry (selected_note title content : pystr).

Inductive browse_exn :=
| ListIndexError
| ListCursesError.

Inductive browse_result :=
| Returned (s : selection) (rest : list event)
| BrowseRaised (e : browse_exn)
| BrowseInterrupted
| BrowsePending (b : browser)
| BrowseViewing (display_offset : Z).

(** [return None if edit_mode else False] *)
Definition cancelled (edit_mode : bool) : selection :=
  if edit_mode then ReturnNone else ReturnFalse.

Definition list_up (b : browser) : browser :=
  if 0 <? active_option b then
    let active := active_option b - 1 in
    {| listed := listed b; active_option := active;
       list_offset := if active <? list_offset b then active else list_offset b |}
  else b.

Definition list_down (list_height : Z) (b : browser) : browser :=
  if active_option b <? Z.of_nat (length (listed b)) - 1 then
    let active := active_option b + 1 in
    {| listed := listed b; active_option := active;
       list_offset := if list_offset b + list_height <=? active
                      then list_offset b + 1 else list_offset b |}
  else b.

(** After [FileNotFoundError]: the list is taken again and the selection is
    brought back into it. *)
Definition list_refresh (list_height : Z) (notes : list pystr) (b : browser) : browser :=
  {| listed := notes;
     active_option := Z.min (active_option b) (Z.of_nat (length notes) - 1);
     list_offset :=
       Z.min (list_offset b) (Z.max 0 (Z.of_nat (length notes) - list_height)) |}.

Section Browser.
Context {crypto : Cryptography}.
Variables (w : world) (encryption_key : bytes) (edit_mode : bool).
Variables max_y max_x : Z.

(** The loop. Drawing the list moves the cursor to column 3 of every row
    below the last note without a [try]; the selected note is taken with
    [notes[active_option]] outside the [try]; [getch] is not guarded. In
    the read mode the keys after Enter go to the viewer, which is called
    inside the [try]: what it raises is caught by [except Exception], which
    shows "Error reading file" and returns [False]. *)
Fixpoint browse_loop (events : list event) (b : browser) : browse_result :=
  let list_height := max_y - (HEADER_HEIGHT + 2) - 3 in
  if (Z.of_nat (length (listed b)) <? list_offset b + list_height) && (max_x <=? 3)
  then BrowseRaised ListCursesError
  else
    match events with
    | [] => BrowsePending b
    | KeyboardInterrupt :: _ => BrowseInterrupted
    | KeyPress key :: events' =>
        if key =? KEY_UP then browse_loop events' (list_up b)
        else if key =? KEY_DOWN then browse_loop events' (list_down list_height b)
        else if key_in key [KEY_ENTER; 10; 13] then
          match py_index (listed b) (active_option b) with
          | None => BrowseRaised ListIndexError
          | Some selected_note =>
              match select_and_read_entry w encryption_key selected_note with
              | DecryptionFailed => Returned (cancelled edit_mode) events'
              | ReadError => Returned (cancelled edit_mode) events'
              | FileMissing =>
                  match get_sorted_notes w with
                  | [] => Returned ReturnFalse events'
                  | notes => browse_loop events' (list_refresh list_height notes b)
                  end
              | Opened title content =>
                  if edit_mode
                  then Returned (ReturnEntry selected_note title content) events'
                  else
                    match display_note_content max_y max_x content events' with
                    | ViewReturned rest => Returned ReturnTrue rest
                    | ViewRaised _ rest => Returned ReturnFalse rest
                    | ViewInterrupted => BrowseInterrupted
                    | ViewPending display_offset => BrowseViewing display_offset
                    end
              end
          end
        else if key_in key [27; 113; 81] then Returned (cancelled edit_mode) events'
        else browse_loop events' b
    end.

(** The function from its first line on; [notes] is what
    [get_sorted_notes()] returned there. *)
Definition select_and_read_entry_from (notes : list pystr) (events : list event)
  : browse_result :=
  match notes with
  | [] => Returned (cancelled edit_mode) events
  | _ =>
      let list_height := max_y - (HEADER_HEIGHT + 2) - 3 in
      if list_height <=? 0 then Returned (cancelled edit_mode) events
      else browse_loop events {| listed := notes; active_option := 0; list_offset := 0 |}
  end.

End Browser.

(** ** Prompts in a sequence of inputs

    [string_input_run] is the loop of [get_string_input] together with the
    events that are left when it returns; [has_room] is the test of its
    first lines, [y >= max_y or x + len(prompt) + 1 >= max_x]. *)

Fixpoint string_input_run (max_len : nat) (events : list event) (text : pystr)
  : input_result * list event :=
  match events with
  | [] => (InputPending text, [])
  | KeyboardInterrupt :: events' => (InputCancelled, events')
  | KeyPress key :: events' =>
      if key_in key [KEY_ENTER; 10; 13] then (Entered text, events')
      else if key_in key [KEY_BACKSPACE; 127; 8] then
        string_input_run max_len events'
          (if bool_decide (0 < length text)%nat
           then take (length text - 1) text else text)
      else if key =? 27 then (InputCancelled, events')
      else if (32 <=? key) && (key <=? 126) then
        string_input_run max_len events'
          (if bool_decide (length text < max_len)%nat
           then text ++ [key] else text)
      else string_input_run max_len events' text
  end.

Definition has_room (max_y max_x y x : Z) (prompt : pystr) : bool :=
  negb ((max_y <=? y) || (max_x <=? x + Z.of_nat (length prompt) + 1)).

Definition prompt_input (max_y max_x y x : Z) (prompt : pystr) (max_len : nat)
  (events : list event) : input_result * list event :=
  if has_room max_y max_x y x prompt then string_input_run max_len events []
  else (Entered [], events).

(** ** [edit_entry] *)

Definition NEW_TITLE_PROMPT : pystr :=
  Eval vm_compute in lit "New Title (Enter to keep current): ".

(** "Choose Edit Mode": the loop over the two options. *)
Inductive choice_result :=
| Chosen (edit_mode_choice : Z) (rest : list event)
| ChoiceCancelled
| ChoiceInterrupted
| ChoicePending.

Fixpoint choose_edit_mode (events : list event) (edit_mode_choice : Z) : choice_result :=
  match events with
  | [] => ChoicePending
  | KeyboardInterrupt :: _ => ChoiceInterrupted
  | KeyPress key :: events' =>
      if (key =? KEY_UP) && (0 <? edit_mode_choice) then
        choose_edit_mode events' (edit_mode_choice - 1)
      else if (key =? KEY_DOWN) && (edit_mode_choice <? 2 - 1) then
        choose_edit_mode events' (edit_mode_choice + 1)
      else if key_in key [KEY_ENTER; 10; 13] then Chosen edit_mode_choice events'
      else if key =? 27 then ChoiceCancelled
      else choose_edit_mode events' edit_mode_choice
  end.

(** How [edit_entry] ends: it returns after one of its messages, it raises
    (nothing catches what [select_and_read_entry] raises, nor the
    [TypeError] of unpacking a selection that is [False]), [getch] is
    interrupted, or it waits for a key. *)
Inductive edit_outcome :=
| NothingSelected
| EditCancelled
| EditNoContent
| EditEncryptionFailed
| EditWriteError
| EditFailed
| Updated (selected_note_file : pystr).

Inductive edit_exn :=
| UnpackTypeError
| FromList (e : browse_exn).

Inductive edit_result :=
| EditReturned (outcome : edit_outcome)
| EditRaised (e : edit_exn)
| EditInterrupted
| EditPending.

Section EditEntry.
Context {crypto : Cryptography}.
Variables (encryption_key : bytes) (max_y max_x : Z).

(** The part of [edit_entry] inside its [try], for the selection
    [(selected_note_file, old_title, old_content)]. The [addstr] and
    [move] calls of the function are not guarded: those in front of the
    title prompt write at the rows [prompt_y] and [prompt_y + 2], those of
    the edit mode menu at the rows [prompt_y + 5] and [prompt_y + 6], all
    from column [input_x]. They raise [curses.error] when the row or the
    column is outside the screen; [title_drawn] and [menu_drawn] say
    whether the texts fit otherwise. When one raises, the
    [except Exception] of the function shows a message and the function
    returns. *)
Definition edit_selected (w : world) (selected_note_file old_title old_content : pystr)
  (title_drawn menu_drawn : bool) (events : list event) (e : entropy)
  : world * edit_result :=
  let prompt_y := HEADER_HEIGHT + 2 in
  let input_x := 2 in
  if negb title_drawn || (max_y <=? prompt_y + 2) || (max_x <=? input_x)
  then (w, EditReturned EditFailed)
  else
    match prompt_input max_y max_x (prompt_y + 3) input_x NEW_TITLE_PROMPT 80 events with
    | (InputPending _, _) => (w, EditPending)
    | (InputCancelled, _) => (w, EditReturned EditCancelled)
    | (Entered new_title, events1) =>
        let new_title := match new_title with [] => old_title | _ => new_title end in
        if negb menu_drawn || (max_y <=? prompt_y + 5 + 1)
        then (w, EditReturned EditFailed)
        else
          match choose_edit_mode events1 0 with
          | ChoicePending => (w, EditPending)
          | ChoiceInterrupted => (w, EditInterrupted)
          | ChoiceCancelled => (w, EditReturned EditCancelled)
          | Chosen edit_mode_choice events2 =>
              let is_append_mode := edit_mode_choice =? 1 in
              let initial_lines := edit_initial_lines is_append_mode old_content in
              let edit_win_h := max_y - (prompt_y + 5 + 2) - 1 in
              let edit_win_w := max_x - input_x - 2 in
              match get_multiline_input_with_content edit_win_h edit_win_w
                      initial_lines events2 with
              | Pending _ => (w, EditPending)
              | Cancelled => (w, EditReturned EditCancelled)
              | Crashed _ => (w, EditReturned EditFailed)
              | Lines new_content_lines =>
                  let new_content := str_join [10] new_content_lines in
                  match str_strip new_content with
                  | [] => (w, EditReturned EditNoContent)
                  | _ =>
                      let full := full_entry_data new_title new_content in
                      match encrypt_data (Str full) encryption_key e with
                      | Raise _ => (w, EditReturned EditFailed)
                      | Ok [] => (w, EditReturned EditEncryptionFailed)
                      | Ok encrypted_content =>
                          match write_note w selected_note_file encrypted_content with
                          | (w', Ok _) => (w', EditReturned (Updated selected_note_file))
                          | (w', Raise _) => (w', EditReturned EditWriteError)
                          end
                      end
                  end
              end
          end
    end.

(** [edit_entry]; [notes] is what [get_sorted_notes()] returned when the
    list was opened. *)
Definition edit_entry (w : world) (notes : list pystr) (title_drawn menu_drawn : bool)
  (events : list event) (e : entropy) : world * edit_result :=
  match select_and_read_entry_from w encryption_key true max_y max_x notes events with
  | Returned ReturnNone _ => (w, EditReturned NothingSelected)
  | Returned (ReturnEntry selected_note_file old_title old_content) events' =>
      edit_selected w selected_note_file old_title old_content
        title_drawn menu_drawn events' e
  | Returned _ _ => (w, EditRaised UnpackTypeError)
  | BrowseRaised e => (w, EditRaised (FromList e))
  | BrowseInterrupted => (w, EditInterrupted)
  | BrowsePending _ | BrowseViewing _ => (w, EditPending)
  end.

End EditEntry.

(** ** The password dialogs of [change_password] and [main] *)

Inductive dialog_exn :=
| DialogCursesError
| DialogError (e : exn).

(** How a dialog ends: it returns a value, it raises, or the events have
    run out while it waits for a key. [DialogLooping] is a loop that is
    still turning when the turns it was given are used up. *)
Inductive dialog (A : Type) :=
| Finished (a : A)
| DialogRaised (e : dialog_exn)
| DialogWaiting
| DialogLooping.
Arguments Finished {A} a.
Arguments DialogRaised {A} e.
Arguments DialogWaiting {A}.
Arguments DialogLooping {A}.

Definition NEW_PASSWORD_PROMPT : pystr := Eval vm_compute in lit "Enter NEW Password: ".
Definition CONFIRM_PASSWORD_PROMPT : pystr :=
  Eval vm_compute in lit "Confirm NEW Password: ".
Definition MASTER_PASSWORD_PROMPT : pystr :=
  Eval vm_compute in lit "Enter New Master Password: ".
Definition CONFIRM_MASTER_PROMPT : pystr :=
  Eval vm_compute in lit "Confirm Master Password: ".

(** [f"Enter OLD Password (Attempt {attempt+1}/3): "] and
    [f"Password (Attempt {attempt+1}/3): "] *)
Definition old_password_prompt (attempt : Z) : pystr :=
  lit "Enter OLD Password (Attempt " ++ int_str (attempt + 1) ++ lit "/3): ".
Definition password_prompt (attempt : Z) : pystr :=
  lit "Password (Attempt " ++ int_str (attempt + 1) ++ lit "/3): ".

Definition unchanged_report (old_key : bytes) : report :=
  {| changed := false; session_key := old_key; total_notes := 0;
     tally := {| success_count := 0; fail_count := 0 |} |}.

Section Dialogs.
Context {crypto : Cryptography}.
Variables max_y max_x : Z.

(** The loop "Get New Password" of [change_password] and of the first-time
    setup in [main]: the first prompt at row [y1], the confirmation at row
    [y2]. After a password that is too short the rows up to [short_y], and
    after a mismatch the rows up to [mismatch_y], are cleared with
    [stdscr.move(row, 0)], which is not guarded. [None] is a dialog that
    was cancelled; [fuel] is the number of turns of the [while True]. *)
Fixpoint new_password_loop (y1 y2 : Z) (prompt1 prompt2 : pystr)
  (short_y mismatch_y : Z) (fuel : nat) (events : list event)
  : dialog (option (pystr * list event)) :=
  match fuel with
  | O => DialogLooping
  | S fuel' =>
      match prompt_input max_y max_x y1 2 prompt1 50 events with
      | (InputPending _, _) => DialogWaiting
      | (InputCancelled, _) => Finished None
      | (Entered pass1, events1) =>
          if bool_decide (length pass1 < 8)%nat then
            if max_y <=? short_y then DialogRaised DialogCursesError
            else new_password_loop y1 y2 prompt1 prompt2 short_y mismatch_y fuel' events1
          else
            match prompt_input max_y max_x y2 2 prompt2 50 events1 with
            | (InputPending _, _) => DialogWaiting
            | (InputCancelled, _) => Finished None
            | (Entered pass2, events2) =>
                if bool_decide (pass1 = pass2) then Finished (Some (pass1, events2))
                else if max_y <=? mismatch_y then DialogRaised DialogCursesError
                else new_password_loop y1 y2 prompt1 prompt2 short_y mismatch_y
                       fuel' events2
            end
      end
  end.

(** "1. Get and Verify Old Password": [for attempt in range(3)]. The value
    is the events that are left once the password is verified, [None] when
    the function returns [(False, old_key)]. *)
Fixpoint verify_old_password (w : world) (old_key : bytes) (attempts : list Z)
  (events : list event) : dialog (option (list event)) :=
  match attempts with
  | [] => Finished None
  | attempt :: attempts' =>
      let prompt_y := HEADER_HEIGHT + 2 in
      match prompt_input max_y max_x (prompt_y + 3 + attempt) 2
              (old_password_prompt attempt) 50 events with
      | (InputPending _, _) => DialogWaiting
      | (InputCancelled, _) => Finished None
      | (Entered old_password, events') =>
          match load_password_salt_and_hash w with
          | None | Some ([], _) => Finished None
          | Some (salt, stored_hash) =>
              match verify_password old_password salt stored_hash with
              | Raise e => DialogRaised (DialogError e)
              | Ok (true, derived_key) =>
                  if bool_decide (derived_key = old_key)
                  then Finished (Some events') else Finished None
              | Ok (false, _) =>
                  if attempt =? 2 then Finished None
                  else verify_old_password w old_key attempts' events'
              end
          end
      end
  end.

(** [change_password] from its first line on. The two [addstr] calls of
    the heading, at the rows [prompt_y] and [prompt_y + 1] from column
    [input_x], are not guarded; [banner_drawn] says whether the texts fit
    when the rows and the column are on the screen. After the old password
    is verified the rows [prompt_y + 3 .. prompt_y + 6] are cleared with
    [stdscr.move], after the new one is chosen the rows
    [prompt_y + 3 .. prompt_y + 5]. *)
Definition change_password_ui (banner_drawn : bool) (fuel : nat)
  (events : list event) (old_key new_salt : bytes) (rs : nat -> entropy) (w : world)
  : dialog (world * report) :=
  let prompt_y := HEADER_HEIGHT + 2 in
  let input_x := 2 in
  if negb banner_drawn || (max_y <=? prompt_y + 1) || (max_x <=? input_x)
  then DialogRaised DialogCursesError
  else
    match verify_old_password w old_key [0; 1; 2] events with
    | Finished None => Finished (w, unchanged_report old_key)
    | Finished (Some events1) =>
        if max_y <=? prompt_y + 3 + 3 then DialogRaised DialogCursesError
        else
          match new_password_loop (prompt_y + 3) (prompt_y + 4)
                  NEW_PASSWORD_PROMPT CONFIRM_PASSWORD_PROMPT
                  (prompt_y + 3) (prompt_y + 4) fuel events1 with
          | Finished None => Finished (w, unchanged_report old_key)
          | Finished (Some (new_password, _)) =>
              if max_y <=? prompt_y + 3 + 2 then DialogRaised DialogCursesError
              else
                match change_password new_password new_salt old_key rs w with
                | Ok r => Finished r
                | Raise e => DialogRaised (DialogError e)
                end
          | DialogRaised e => DialogRaised e
          | DialogWaiting => DialogWaiting
          | DialogLooping => DialogLooping
          end
    | DialogRaised e => DialogRaised e
    | DialogWaiting => DialogWaiting
    | DialogLooping => DialogLooping
    end.

(** "Password Handling" of [main]: the program exits with a code, or goes
    on to the menu with an encryption key. *)
Inductive startup :=
| Exit (code : Z)
| Session (encryption_key : bytes) (w : world) (rest : list event).

(** "Authenticate existing user": [for attempt in range(3)]. *)
Fixpoint authenticate (w : world) (salt : bytes) (stored_hash : pystr)
  (attempts : list Z) (events : list event) : dialog startup :=
  match attempts with
  | [] => Finished (Exit 1)
  | attempt :: attempts' =>
      let auth_y := HEADER_HEIGHT + 3 in
      match prompt_input max_y max_x (auth_y + 2 + attempt) 2
              (password_prompt attempt) 50 events with
      | (InputPending _, _) => DialogWaiting
      | (InputCancelled, _) => Finished (Exit 0)
      | (Entered password, events') =>
          match verify_password password salt stored_hash with
          | Raise e => DialogRaised (DialogError e)
          | Ok (true, derived_key) => Finished (Session derived_key w events')
          | Ok (false, _) => authenticate w salt stored_hash attempts' events'
          end
      end
  end.

(** [new_salt] is what [os.urandom] returns in [save_password_hash]. *)
Definition main_password_handling (new_salt : bytes) (fuel : nat)
  (events : list event) (w : world) : dialog startup :=
  let first_time :=
    let setup_y := HEADER_HEIGHT + 3 in
    match new_password_loop (setup_y + 4) (setup_y + 5)
            MASTER_PASSWORD_PROMPT CONFIRM_MASTER_PROMPT
            (setup_y + 5) (setup_y + 5) fuel events with
    | Finished None => Finished (Exit 0)
    | Finished (Some (new_password, events')) =>
        match save_password_hash new_password new_salt w with
        | Raise e => DialogRaised (DialogError e)
        | Ok (w', None) => Finished (Exit 1)
        | Ok (w', Some ([], _)) | Ok (w', Some (_, [])) => Finished (Exit 1)
        | Ok (w', Some (_, encryption_key)) => Finished (Session encryption_key w' events')
        end
    | DialogRaised e => DialogRaised e
    | DialogWaiting => DialogWaiting
    | DialogLooping => DialogLooping
    end in
  match load_password_salt_and_hash w with
  | None | Some ([], _) | Some (_, []) => first_time
  | Some (salt, stored_hash) => authenticate w salt stored_hash [0; 1; 2] events
  end.

End Dialogs.

(** ** The menu loop of [main] *)

Definition MENU_OPTIONS : list string :=
  ["Write New Zecret"; "Read a Zecret"; "Edit a Zecret";
   "Import Encrypted Zecret"; "Change Master Password"; "Exit Roman Zecret"]%string.

(** What a turn of the loop does: it goes on with [active_option], it runs
    the action of the selected option and goes on once the action has
    returned, it raises [IndexError] at [menu_options[active_option]], or
    it leaves the loop. *)
Inductive menu_step :=
| MenuStays (active_option : Z)
| MenuRuns (selected_action : string) (active_option : Z)
| MenuIndexError
| MenuLeaves.

Definition menu_key (key active_option : Z) : menu_step :=
  let len := Z.of_nat (length MENU_OPTIONS) in
  if key =? KEY_UP then MenuStays ((active_option - 1) mod len)
  else if key =? KEY_DOWN then MenuStays ((active_option + 1) mod len)
  else if key_in key [KEY_ENTER; 10; 13] then
    match py_index MENU_OPTIONS active_option with
    | None => MenuIndexError
    | Some selected_action =>
        if bool_decide (selected_action = "Exit Roman Zecret"%string) then MenuLeaves
        else MenuRuns selected_action active_option
    end
  else if key_in key [27; 113; 81] then MenuLeaves
  else MenuStays active_option.

(** The option that is highlighted after the keys [keys], pressed while
    the menu is shown, when none of them has left the loop and every
    action has returned; [None] when a key has left the loop or has
    raised. *)
Fixpoint menu_after (keys : list Z) (active_option : Z) : option Z :=
  match keys with
  | [] => Some active_option
  | key :: keys' =>
      match menu_key key active_option with
      | MenuStays active_option' | MenuRuns _ active_option' =>
          menu_after keys' active_option'
      | MenuIndexError | MenuLeaves => None
      end
  end.

(** ** [import_entry]

    [outside] is the file system outside the notes directory: the regular
    files by path, and the paths that cannot be opened for reading.
    [expanduser] is [os.path.expanduser], which depends on the
    environment. *)

Record outside := {
  files : gmap (list Z) (list Z);
  unreadable : gset (list Z)
}.

(** [with open(import_path, "rb") as f: f.read()] *)
Definition read_file (out : outside) (path : pystr) : result bytes :=
  if bool_decide (path ∈ unreadable out) then Raise PermissionError
  else match files out !! path with
       | Some data => Ok data
       | None => Raise FileNotFoundError
       end.

(** [os.path.basename]: what follows the last slash. *)
Fixpoint basename_from (cur path : pystr) : pystr :=
  match path with
  | [] => rev cur
  | c :: path' => if c =? 47 then basename_from [] path' else basename_from (c :: cur) path'
  end.

Definition basename (path : pystr) : pystr := basename_from [] path.

(** [s.lower()] on the letters of ASCII. For the test
    [s.lower().endswith(ENTRY_EXTENSION)] nothing else matters: [str.lower]
    maps no other character to a letter of the extension or to the dot. *)
Definition ascii_lower (c : Z) : Z :=
  if (65 <=? c) && (c <=? 90) then c + 32 else c.

Definition str_lower (s : pystr) : pystr := ascii_lower <$> s.

Definition has_entry_extension (s : pystr) : bool :=
  endswith (str_lower s) ENTRY_EXTENSION.

(** [f"imported_{timestamp}_{base_name}"] and
    [f"imported_{timestamp}_{counter}_{base_name}"], with the extension
    added when the name does not end in it. *)
Definition import_name (timestamp base_name : pystr) (counter : option Z) : pystr :=
  let dest_filename :=
    match counter with
    | None => lit "imported_" ++ timestamp ++ lit "_" ++ base_name
    | Some counter =>
        lit "imported_" ++ timestamp ++ lit "_" ++ int_str counter ++ lit "_" ++ base_name
    end in
  if has_entry_extension dest_filename then dest_filename
  else dest_filename ++ ENTRY_EXTENSION.

(** "Avoid overwriting existing files silently": the [while] loop; [None]
    is the "Safety break". The loop makes at most 100 turns, the fuel it
    starts with. *)
Fixpoint unique_name (w : world) (timestamp base_name : pystr) (fuel : nat)
  (dest_filename : pystr) (counter : Z) : option pystr :=
  if bool_decide (dest_filename ∈ dom (notes w)) then
    match fuel with
    | O => None
    | S fuel' =>
        let dest_filename := import_name timestamp base_name (Some counter) in
        let counter := counter + 1 in
        if 100 <? counter then None
        else unique_name w timestamp base_name fuel' dest_filename counter
    end
  else Some dest_filename.

Inductive import_outcome :=
| ImportCancelled
| ImportNotFound
| ImportBadExtension
| ImportDecryptionFailed
| ImportNoName
| ImportIOError
| ImportFailed
| Imported (dest_filename : pystr).

Section ImportModel.
Context {crypto : Cryptography}.
Variable expanduser : pystr -> pystr.

(** [import_entry] from the prompt on: [import_path] is what
    [get_string_input] returned and [now] the clock. *)
Definition import_entry (w : world) (out : outside) (encryption_key : bytes)
  (import_path : option pystr) (now : datetime) : world * import_outcome :=
  match import_path with
  | None => (w, ImportCancelled)
  | Some import_path =>
      match str_strip import_path with
      | [] => (w, ImportCancelled)
      | _ =>
          let import_path := expanduser import_path in
          if negb (bool_decide (import_path ∈ dom (files out)))
          then (w, ImportNotFound)
          else if negb (has_entry_extension import_path)
          then (w, ImportBadExtension)
          else
            match read_file out import_path with
            | Raise _ => (w, ImportIOError)
            | Ok encrypted_data =>
                match decrypt_data encrypted_data encryption_key with
                | Raise _ => (w, ImportFailed)
                | Ok None => (w, ImportDecryptionFailed)
                | Ok (Some _) =>
                    let base_name := basename import_path in
                    let timestamp := timestamp now in
                    match unique_name w timestamp base_name 100
                            (import_name timestamp base_name None) 1 with
                    | None => (w, ImportNoName)
                    | Some dest_filename =>
                        match write_note w dest_filename encrypted_data with
                        | (w', Ok _) => (w', Imported dest_filename)
                        | (w', Raise _) => (w', ImportIOError)
                        end
                    end
                end
            end
      end
  end.

End ImportModel.

(** ** The buffer as one text with a cursor

    [text_before] is the text of the buffer up to the cursor and
    [text_after] the text from the cursor on, the lines joined with line
    feeds as [write_new_entry] and [edit_entry] join them. *)
Definition text_before (st : editor) : pystr :=
  concat ((fun l => l ++ [10]) <$> take (current_line_idx st) (lines st))
  ++ take (cursor_x st) (default [] (lines st !! current_line_idx st)).

Definition text_after (st : editor) : pystr :=
  drop (cursor_x st) (default [] (lines st !! current_line_idx st))
  ++ concat ((fun l => 10 :: l) <$> drop (S (current_line_idx st)) (lines st)).

(** The character a key of the editor types: a line feed for the Enter keys,
    the character of the key code otherwise. *)
Definition typed_char (key : Z) : Z :=
  if key_in key [KEY_ENTER; 10; 13] then 10 else key.

(** The keys that type a character: Enter and the printable keys. *)
Definition typing_key (key : Z) : Prop :=
  key_in key [KEY_ENTER; 10; 13] = true \/ 32 <= key <= 126.

(** [text] is what the prompt at row [y] returned at some point of the
    events: it read the events [before], the events from that point on. *)
Definition entered_at (max_y max_x y : Z) (prompt : pystr) (events : list event)
  (text : pystr) : Prop :=
  exists before rest,
    before `suffix_of` events /\
    prompt_input max_y max_x y 2 prompt 50 before = (Entered text, rest).

(** [text] was entered twice in a row: at some point of the events the
    prompt at row [y1] returned it, and the prompt at row [y2], reading on
    from there, returned it again and left the events [rest]. *)
Definition entered_twice (max_y max_x y1 y2 : Z) (prompt1 prompt2 : pystr)
  (events : list event) (text : pystr) (rest : list event) : Prop :=
  exists before between,
    before `suffix_of` events /\
    prompt_input max_y max_x y1 2 prompt1 50 before = (Entered text, between) /\
    prompt_input max_y max_x y2 2 prompt2 50 between = (Entered text, rest).

(** The selection is a note of the list and is shown in the window of
    [list_height] rows. *)
Definition browser_inv (list_height : Z) (b : browser) : Prop :=
  0 <= list_offset b <= active_option b /\
  active_option b < Z.of_nat (length (listed b)) /\
  active_option b < list_offset b + list_height.

(** ** Clock readings

    A reading of [datetime.now()] whose year has four digits, and the
    number that orders the readings by time. *)
Definition valid_datetime (d : datetime) : Prop :=
  1000 <= year d <= 9999 /\ 1 <= month d <= 12 /\ 1 <= day d <= 31 /\
  0 <= hour d <= 23 /\ 0 <= minute d <= 59 /\ 0 <= second d <= 59.

Definition clock (d : datetime) : Z :=
  ((((year d * 100 + month d) * 100 + day d) * 100 + hour d) * 100
   + minute d) * 100 + second d.

(** Strictly before in the order of [list.sort] on [str]. *)
Definition str_lt (a b : pystr) : Prop := str_leb a b = true /\ a <> b.

(** ** Sample values *)

(** A buffer of two lines with the cursor at the start of the second. *)
Definition two_lines : editor :=
  {| lines := [[104; 105]; [116; 104; 101; 114; 101]];
     current_line_idx := 1; cursor_x := 0; top_line_idx := 0 |}.

(** Clock readings one second apart, and a vault whose password file can be
    written but not given its permissions. *)
Definition noon_plus_1 : datetime :=
  {| year := 2025; month := 1; day := 15; hour := 12; minute := 0; second := 1 |}.

Definition chmod_denied_vault : world :=
  {| notes := notes Simple.sound_vault;
     password_file := Some Simple.credential_line;
     read_denied := ∅; write_denied := ∅; short_write := ∅;
     password_file_denied := false; chmod_denied := true |}.

(** The keys of an edit that keeps the title, chooses "Append", types an
    exclamation mark and finishes, and the vault it leaves. *)
Definition edit_keys : list event :=
  KeyPress <$> [10; KEY_DOWN; 10; 33; 4].

Definition edited_vault : world :=
  (@edit_selected Simple.crypto Simple.key1 24 80 Simple.sound_vault Simple.name1
     (lit "T") (lit "hello" ++ [10] ++ lit "world") true true edit_keys 9).1.

(** The keys that type the first password, [new_password] and its
    confirmation, and what [change_password] leaves on the small instance:
    the key derived from [new_password] and the vault with its
    credential. *)
Definition password1_keys : list event :=
  Eval vm_compute in (KeyPress <$> Simple.password1) ++ [KeyPress 10].

Definition change_keys : list event :=
  password1_keys ++ Simple.new_password_keys ++ Simple.new_password_keys.

(** The keys of a first-time setup: [new_password] and its confirmation,
    and the first key that the menu reads. *)
Definition setup_keys : list event :=
  Simple.new_password_keys ++ Simple.new_password_keys ++ [KeyPress KEY_DOWN].

Definition new_stored_key : bytes :=
  Eval vm_compute in
    Simple.b64url (Simple.pbkdf2 Simple.new_password Simple.salt1 KEY_ITERATIONS 32).

Definition new_credential_vault : world :=
  {| notes := ∅;
     password_file :=
       Some (Simple.letters Simple.salt1 ++ lit ":" ++ Simple.hexdigest new_stored_key);
     read_denied := ∅; write_denied := ∅; short_write := ∅;
     password_file_denied := false; chmod_denied := false |}.

Definition changed_report : report :=
  {| changed := true; session_key := new_stored_key; total_notes := 0;
     tally := {| success_count := 0; fail_count := 0 |} |}.

(** A file outside the notes directory whose extension is in upper case,
    encrypted under [key1], and the name under which it is imported. *)
Definition upper_case_path : pystr := Eval vm_compute in lit "/tmp/X.RZ".

Definition outside1 : outside :=
  {| files := {[ upper_case_path := Simple.encrypt Simple.key1 1 Simple.payload1 ]};
     unreadable := ∅ |}.

Definition imported_name : pystr :=
  Eval vm_compute in lit "imported_20250115_120000_X.RZ".

(** ** Lemmas *)

(** *** The UTF-8 codec *)

Lemma utf8_encode_char_decode c bs rest :
  utf8_encode_char c = Some bs ->
  bytes_decode (bs ++ rest) = cons c <$> bytes_decode rest.
Proof.
  unfold utf8_encode_char, is_surrogate. intros Henc.
  destruct (Z.ltb_spec c 0); [discriminate|].
  destruct (Z.ltb_spec c 0x80).
  { injection Henc as <-. simpl. ztest. reflexivity. }
  destruct (Z.ltb_spec c 0x800).
  { injection Henc as <-. simpl. unfold is_cont.
    Z.to_euclidean_division_equations. ztest. simpl.
    do 2 f_equal. lia. }
  destruct (Z.ltb_spec c 0x10000).
  { destruct (Z.leb_spec 0xD800 c); destruct (Z.leb_spec c 0xDFFF);
      simpl in Henc; try discriminate; injection Henc as <-; simpl;
      unfold is_cont, is_surrogate;
      Z.to_euclidean_division_equations; ztest; simpl; do 2 f_equal; lia. }
  destruct (Z.ltb_spec c 0x110000); [|discriminate].
  injection Henc as <-; simpl; unfold is_cont.
  Z.to_euclidean_division_equations; ztest; simpl; do 2 f_equal; lia.
Qed.

Lemma utf8_encode_char_scalar c :
  is_scalar c = true -> is_Some (utf8_encode_char c).
Proof.
  unfold is_scalar, utf8_encode_char, is_surrogate. intros Hc.
  destruct (Z.leb_spec 0 c); [|discriminate].
  destruct (Z.ltb_spec c 0x110000); [|discriminate].
  simpl in Hc. ztest.
  destruct (c <? 0x80); [eauto|]. destruct (c <? 0x800); [eauto|].
  destruct (c <? 0x10000); [|eauto].
  destruct ((0xD800 <=? c) && (c <=? 0xDFFF)); [discriminate|eauto].
Qed.

Lemma utf8_encode_char_is_scalar c bs :
  utf8_encode_char c = Some bs -> is_scalar c = true.
Proof.
  unfold is_scalar, utf8_encode_char, is_surrogate.
  destruct (Z.ltb_spec c 0); [discriminate|].
  destruct (Z.ltb_spec c 0x80); [intros _; ztest; reflexivity|].
  destruct (Z.ltb_spec c 0x800); [intros _; ztest; reflexivity|].
  destruct (Z.ltb_spec c 0x10000).
  { destruct ((0xD800 <=? c) && (c <=? 0xDFFF)); [discriminate|].
    intros _. ztest. reflexivity. }
  destruct (Z.ltb_spec c 0x110000); [|discriminate].
  intros _. ztest. reflexivity.
Qed.

(** Encoding succeeds exactly on scalar values. *)
Lemma str_encode_encodable s : encodable s <-> is_Some (str_encode s).
Proof.
  unfold encodable. induction s as [|c s IH]; simpl.
  - split; [eauto|constructor].
  - rewrite Forall_cons, IH. split.
    + intros [[bs Hbs]%utf8_encode_char_scalar [bs' Hbs']].
      rewrite Hbs, Hbs'. eauto.
    + destruct (utf8_encode_char c) as [bs|] eqn:Hc; [|intros [? ?]; discriminate].
      destruct (str_encode s) as [bs'|]; [|intros [? ?]; discriminate].
      intros _. split; [eapply utf8_encode_char_is_scalar; eassumption|eauto].
Qed.

(** Decoding undoes encoding. *)
Lemma bytes_decode_str_encode s bs :
  str_encode s = Some bs -> bytes_decode bs = Some s.
Proof.
  revert bs. induction s as [|c s IH]; simpl; intros bs Hbs.
  - injection Hbs as <-. reflexivity.
  - destruct (utf8_encode_char c) as [b1|] eqn:Hc; [|discriminate].
    destruct (str_encode s) as [b2|]; [|discriminate].
    injection Hbs as <-.
    rewrite (utf8_encode_char_decode _ _ _ Hc), (IH b2 eq_refl). reflexivity.
Qed.

Ltac splits := repeat match goal with |- _ /\ _ => split end.

Ltac btest H :=
  repeat match type of H with
  | _ && _ = true => let H' := fresh H in apply andb_true_iff in H as [H H']; btest H'
  | (_ <=? _) = true => apply Z.leb_le in H
  | (_ <? _) = true => apply Z.ltb_lt in H
  | negb _ = true => apply negb_true_iff in H
  end.

(** One step of the decoder reads the encoding of one code point. *)
Lemma bytes_decode_step b0 r0 s :
  bytes_decode (b0 :: r0) = Some s ->
  exists c enc rest s',
    b0 :: r0 = enc ++ rest /\ utf8_encode_char c = Some enc /\
    bytes_decode rest = Some s' /\ s = c :: s' /\
    (length rest < length (b0 :: r0))%nat.
Proof.
  simpl. intros Hdec.
  destruct ((0 <=? b0) && (b0 <? 0x80)) eqn:E1.
  { destruct (bytes_decode r0) as [s'|] eqn:Hr; [|discriminate].
    injection Hdec as <-. exists b0, [b0], r0, s'. btest E1.
    splits; [reflexivity| |assumption|reflexivity|simpl; lia].
    unfold utf8_encode_char. ztest. reflexivity. }
  destruct ((0xC2 <=? b0) && (b0 <=? 0xDF)) eqn:E2.
  { destruct r0 as [|b1 r1]; [discriminate|].
    destruct (is_cont b1) eqn:C1; [|discriminate].
    destruct (bytes_decode r1) as [s'|] eqn:Hr; [|discriminate].
    injection Hdec as <-. unfold is_cont in C1. btest E2. btest C1.
    eexists _, [b0; b1], r1, s'.
    splits; [reflexivity| |eassumption|reflexivity|simpl; lia].
    unfold utf8_encode_char. ztest. do 2 f_equal; [|f_equal];
      Z.to_euclidean_division_equations; lia. }
  destruct ((0xE0 <=? b0) && (b0 <=? 0xEF)) eqn:E3.
  { destruct r0 as [|b1 [|b2 r2]]; try discriminate.
    cbv zeta in Hdec.
    match type of Hdec with (if ?t then _ else _) = _ => destruct t eqn:C1 end;
      [|discriminate].
    destruct (bytes_decode r2) as [s'|] eqn:Hr; [|discriminate].
    injection Hdec as <-. unfold is_cont in C1. btest E3. btest C1.
    eexists _, [b0; b1; b2], r2, s'.
    splits; [reflexivity| |eassumption|reflexivity|simpl; lia].
    unfold utf8_encode_char.
    match goal with Hs : is_surrogate _ = false |- _ => rewrite Hs end. ztest.
    do 2 f_equal; [|f_equal; [|f_equal]];
      Z.to_euclidean_division_equations; lia. }
  destruct ((0xF0 <=? b0) && (b0 <=? 0xF4)) eqn:E4; [|discriminate].
  destruct r0 as [|b1 [|b2 [|b3 r3]]]; try discriminate.
  cbv zeta in Hdec.
  match type of Hdec with (if ?t then _ else _) = _ => destruct t eqn:C1 end;
    [|discriminate].
  destruct (bytes_decode r3) as [s'|] eqn:Hr; [|discriminate].
  injection Hdec as <-. unfold is_cont in C1. btest E4. btest C1.
  eexists _, [b0; b1; b2; b3], r3, s'.
    splits; [reflexivity| |eassumption|reflexivity|simpl; lia].
  unfold utf8_encode_char. ztest.
  do 2 f_equal; [|f_equal; [|f_equal; [|f_equal]]];
    Z.to_euclidean_division_equations; lia.
Qed.

(** Encoding undoes decoding: decoded text is encodable, to the same bytes. *)
Lemma str_encode_bytes_decode bs s :
  bytes_decode bs = Some s -> str_encode s = Some bs.
Proof.
  remember (length bs) as n eqn:Hn. revert bs s Hn.
  induction n as [n IH] using lt_wf_ind. intros [|b0 r0] s Hn Hdec.
  - injection Hdec as <-. reflexivity.
  - apply bytes_decode_step in Hdec as (c & enc & rest & s' & Hbs & Hc & Hr & -> & Hlt).
    simpl. rewrite Hc, (IH (length rest) ltac:(lia) rest s' eq_refl Hr), Hbs.
    reflexivity.
Qed.

(** *** [encrypt_data] and [decrypt_data] *)

Section Codec.
Context {crypto : Cryptography}.

(** C1, as amended: under a valid Fernet key, [encrypt_data] accepts every
    payload that is UTF-8 encodable (no surrogate code point) and
    [decrypt_data] under the same key returns that payload. *)
Theorem encrypt_decrypt_round_trip key r p :
  fernet_key_ok key = true ->
  encodable p ->
  exists token,
    encrypt_data (Str p) key r = Ok token /\
    decrypt_data token key = Ok (Some p).
Proof.
  intros Hkey [b Hb]%str_encode_encodable.
  exists (fernet_encrypt key r b). unfold encrypt_data, decrypt_data.
  rewrite Hkey, Hb, fernet_decrypt_encrypt by assumption.
  rewrite (bytes_decode_str_encode _ _ Hb). split; reflexivity.
Qed.

End Codec.

Lemma encrypt_decrypt_round_trip_witness :
  exists token,
    @encrypt_data Simple.crypto (Str (lit "TITLE:T")) Simple.key1 5 = Ok token /\
    @decrypt_data Simple.crypto token Simple.key1 = Ok (Some (lit "TITLE:T")).
Proof.
  apply (encrypt_decrypt_round_trip (crypto := Simple.crypto)).
  - reflexivity.
  - unfold encodable, lit; simpl; repeat constructor.
Defined.

(** A payload with a lone surrogate is refused under every key. *)
Lemma encrypt_data_surrogate {crypto : Cryptography} key r token :
  encrypt_data (Str [0xD800]) key r <> Ok token.
Proof. unfold encrypt_data. destruct (fernet_key_ok key); discriminate. Qed.

(** C1, as stated, fails: a [str] with a lone surrogate is a string payload,
    and [encrypt_data] raises on it instead of returning a token. *)
Lemma encrypt_data_rejects_surrogate :
  @fernet_key_ok Simple.crypto Simple.key1 = true /\
  @encrypt_data Simple.crypto (Str [0xD800]) Simple.key1 0 = Raise UnicodeEncodeError /\
  ~ (forall (crypto : Cryptography) key r p,
       fernet_key_ok key = true ->
       exists token,
         encrypt_data (Str p) key r = Ok token /\
         decrypt_data token key = Ok (Some p)).
Proof.
  splits; [reflexivity|reflexivity|]. intros Hclaim.
  destruct (Hclaim Simple.crypto Simple.key1 0 [0xD800] eq_refl) as (token & Henc & _).
  exact (encrypt_data_surrogate _ _ _ Henc).
Qed.

(** *** The line editor *)

Section EditorFacts.
Local Open Scope nat_scope.
Variable edit_win_h : nat.

Lemma adjust_scroll_fields st :
  lines (adjust_scroll edit_win_h st) = lines st /\
  current_line_idx (adjust_scroll edit_win_h st) = current_line_idx st /\
  cursor_x (adjust_scroll edit_win_h st) = cursor_x st.
Proof. unfold adjust_scroll. repeat case_bool_decide; simpl; auto. Qed.

Lemma buffer_inv_adjust_scroll st :
  buffer_inv st -> buffer_inv (adjust_scroll edit_win_h st).
Proof.
  unfold buffer_inv.
  destruct (adjust_scroll_fields st) as (-> & -> & ->). auto.
Qed.

Lemma moved_keeps_inv st ls idx x line :
  ls !! idx = Some line -> x <= length line ->
  keeps_inv (moved edit_win_h st ls idx x).
Proof.
  intros Hl Hx. apply buffer_inv_adjust_scroll. unfold buffer_inv; simpl.
  pose proof (lookup_lt_Some _ _ _ Hl).
  splits; [destruct ls; [simpl in *; lia|discriminate]|assumption|eauto].
Qed.

Lemma list_insert_at_lookup {A} (l : list A) i x :
  i <= length l -> list_insert_at i x l !! i = Some x.
Proof.
  intros Hi. unfold list_insert_at.
  rewrite lookup_app_r; rewrite length_take_le by lia; [|lia].
  rewrite Nat.sub_diag. reflexivity.
Qed.

Lemma newline_keeps_inv st line :
  lines st !! current_line_idx st = Some line -> keeps_inv (newline edit_win_h st line).
Proof.
  intros Hl. pose proof (lookup_lt_Some _ _ _ Hl).
  unfold newline. eapply moved_keeps_inv; [|apply Nat.le_0_l].
  apply list_insert_at_lookup. rewrite length_insert. lia.
Qed.

Lemma backspace_keeps_inv st line :
  lines st !! current_line_idx st = Some line -> cursor_x st <= length line ->
  keeps_inv (backspace edit_win_h st line).
Proof.
  intros Hl Hx. pose proof (lookup_lt_Some _ _ _ Hl) as Hlt. unfold backspace.
  repeat case_bool_decide.
  - eapply moved_keeps_inv; [apply list_lookup_insert_eq; assumption|].
    rewrite length_app, length_take, length_drop. lia.
  - destruct (lookup_lt_is_Some_2 (lines st) (current_line_idx st - 1)) as [prev Hp];
      [lia|]. rewrite Hp.
    eapply moved_keeps_inv.
    + rewrite list_lookup_delete_lt by lia.
      apply list_lookup_insert_eq. lia.
    + rewrite length_app. lia.
  - eapply moved_keeps_inv; eassumption.
Qed.

Lemma delete_forward_keeps_inv st line :
  lines st !! current_line_idx st = Some line -> cursor_x st <= length line ->
  keeps_inv (delete_forward edit_win_h st line).
Proof.
  intros Hl Hx. pose proof (lookup_lt_Some _ _ _ Hl) as Hlt. unfold delete_forward.
  case_bool_decide.
  - eapply moved_keeps_inv; [apply list_lookup_insert_eq; assumption|].
    rewrite length_app, length_take, length_drop. lia.
  - eapply moved_keeps_inv; eassumption.
Qed.

Lemma move_up_keeps_inv st line :
  lines st !! current_line_idx st = Some line -> cursor_x st <= length line ->
  keeps_inv (move_up edit_win_h st).
Proof.
  intros Hl Hx. pose proof (lookup_lt_Some _ _ _ Hl) as Hlt. unfold move_up.
  case_bool_decide.
  - destruct (lookup_lt_is_Some_2 (lines st) (current_line_idx st - 1)) as [prev Hp];
      [lia|]. rewrite Hp.
    eapply moved_keeps_inv; [eassumption|lia].
  - eapply moved_keeps_inv; eassumption.
Qed.

Lemma move_down_keeps_inv st line :
  lines st !! current_line_idx st = Some line -> cursor_x st <= length line ->
  keeps_inv (move_down edit_win_h st).
Proof.
  intros Hl Hx. unfold move_down. case_bool_decide.
  - destruct (lookup_lt_is_Some_2 (lines st) (current_line_idx st + 1)) as [next Hn];
      [lia|]. rewrite Hn.
    eapply moved_keeps_inv; [eassumption|lia].
  - eapply moved_keeps_inv; eassumption.
Qed.

Lemma move_left_keeps_inv st line :
  lines st !! current_line_idx st = Some line -> cursor_x st <= length line ->
  keeps_inv (move_left edit_win_h st).
Proof.
  intros Hl Hx. pose proof (lookup_lt_Some _ _ _ Hl) as Hlt. unfold move_left.
  repeat case_bool_decide.
  - eapply moved_keeps_inv; [eassumption|lia].
  - destruct (lookup_lt_is_Some_2 (lines st) (current_line_idx st - 1)) as [prev Hp];
      [lia|]. rewrite Hp.
    eapply moved_keeps_inv; [eassumption|lia].
  - eapply moved_keeps_inv; eassumption.
Qed.

Lemma move_right_keeps_inv st line :
  lines st !! current_line_idx st = Some line -> cursor_x st <= length line ->
  keeps_inv (move_right edit_win_h st line).
Proof.
  intros Hl Hx. unfold move_right. repeat case_bool_decide.
  - eapply moved_keeps_inv; [eassumption|lia].
  - destruct (lookup_lt_is_Some_2 (lines st) (current_line_idx st + 1)) as [next Hn];
      [lia|].
    eapply moved_keeps_inv; [eassumption|lia].
  - eapply moved_keeps_inv; eassumption.
Qed.

Lemma insert_char_keeps_inv st line key :
  lines st !! current_line_idx st = Some line -> cursor_x st <= length line ->
  keeps_inv (insert_char edit_win_h st line key).
Proof.
  intros Hl Hx. pose proof (lookup_lt_Some _ _ _ Hl) as Hlt. unfold insert_char.
  eapply moved_keeps_inv; [apply list_lookup_insert_eq; assumption|].
  rewrite length_app, length_take. simpl. rewrite length_drop. lia.
Qed.

(** C8: every transition of the editor (insert a character, newline,
    backspace, delete forward, the four cursor moves, and a key that is
    ignored) takes a state within the buffer invariant to a state within
    it, and never fails on an index. *)
Theorem process_key_keeps_inv key st :
  buffer_inv st -> keeps_inv (process_key edit_win_h key st).
Proof.
  intros (Hne & Hlt & line & Hl & Hx). unfold process_key. rewrite Hl.
  repeat match goal with |- keeps_inv (if ?b then _ else _) => destruct b end.
  - apply newline_keeps_inv; assumption.
  - apply backspace_keeps_inv; assumption.
  - apply delete_forward_keeps_inv; assumption.
  - eapply move_up_keeps_inv; eassumption.
  - eapply move_down_keeps_inv; eassumption.
  - eapply move_left_keeps_inv; eassumption.
  - apply move_right_keeps_inv; assumption.
  - unfold keeps_inv, buffer_inv. eauto.
  - apply insert_char_keeps_inv; assumption.
  - eapply moved_keeps_inv; eassumption.
Qed.

End EditorFacts.

Lemma process_key_keeps_inv_witness :
  keeps_inv (process_key 20 KEY_ENTER (editor_start [lit "hi"; lit "there"])).
Proof.
  apply process_key_keeps_inv. unfold buffer_inv. simpl.
  splits; [discriminate|lia|]. exists (lit "hi"). split; [reflexivity|simpl; lia].
Defined.

(** C9: in a buffer state with the cursor on line 0 at column 0, each of the
    backspace keys leaves [lines], the cursor line and the cursor column as
    they were; with the window on line 0 the whole state is as it was. *)
Theorem backspace_at_origin edit_win_h key st :
  buffer_inv st ->
  key_in key [KEY_BACKSPACE; 127; 8] = true ->
  current_line_idx st = 0%nat -> cursor_x st = 0%nat ->
  exists st',
    process_key edit_win_h key st = Continue st' /\
    lines st' = lines st /\
    current_line_idx st' = 0%nat /\ cursor_x st' = 0%nat /\
    (top_line_idx st = 0%nat -> (0 < edit_win_h)%nat -> st' = st).
Proof.
  intros (_ & _ & line & Hl & _) Hkey Hidx Hx. unfold process_key. rewrite Hl.
  assert (key_in key [KEY_ENTER; 10; 13] = false) as ->.
  { unfold key_in in *. apply bool_decide_eq_true_1 in Hkey.
    apply bool_decide_eq_false_2. intros Hin.
    repeat (apply elem_of_cons in Hkey as [->|Hkey]);
      try (apply elem_of_nil in Hkey; contradiction);
      repeat (apply elem_of_cons in Hin as [Hin|Hin]; [discriminate|]);
      apply elem_of_nil in Hin; contradiction. }
  rewrite Hkey. unfold backspace, moved. rewrite Hidx, Hx.
  rewrite !bool_decide_eq_false_2 by lia.
  eexists. split; [reflexivity|].
  destruct (adjust_scroll_fields edit_win_h
              {| lines := lines st; current_line_idx := 0; cursor_x := 0;
                 top_line_idx := top_line_idx st |}) as (-> & -> & ->).
  splits; auto. intros Htop Hh. unfold adjust_scroll. simpl.
  rewrite !bool_decide_eq_false_2 by lia.
  destruct st; simpl in *; subst; reflexivity.
Qed.

Lemma backspace_at_origin_witness :
  exists st',
    process_key 20 KEY_BACKSPACE (editor_start [lit "hi"; lit "there"]) = Continue st' /\
    lines st' = [lit "hi"; lit "there"] /\
    current_line_idx st' = 0%nat /\ cursor_x st' = 0%nat /\
    (0%nat = 0%nat -> (0 < 20)%nat -> st' = editor_start [lit "hi"; lit "there"]).
Proof.
  apply (backspace_at_origin 20 KEY_BACKSPACE (editor_start [lit "hi"; lit "there"])).
  - unfold buffer_inv. simpl.
    splits; [discriminate|lia|]. exists (lit "hi"). split; [reflexivity|simpl; lia].
  - reflexivity.
  - reflexivity.
  - reflexivity.
Defined.

(** *** [splitlines] and the seed of an edit session *)

Lemma splitlines_from_break cur c rest :
  is_linebreak c = true -> c <> 13 ->
  splitlines_from cur (c :: rest) = rev cur :: splitlines_from [] rest.
Proof.
  intros Hc Hne. simpl. rewrite Hc.
  destruct rest; [reflexivity|].
  destruct (Z.eqb_spec c 13); [contradiction|reflexivity].
Qed.

Lemma splitlines_from_app_lf s : forall cur rest,
  exists pad, (pad = [] \/ pad = [[]]) /\
    splitlines_from cur (s ++ 10 :: rest)
    = splitlines_from cur s ++ pad ++ splitlines_from [] rest.
Proof.
  remember (length s) as n eqn:Hn. revert s Hn.
  induction n as [n IH] using lt_wf_ind. intros [|c s] Hn cur rest.
  - rewrite app_nil_l, splitlines_from_break by (reflexivity || discriminate).
    simpl. destruct cur; [exists [[]]|exists []]; auto.
  - destruct (is_linebreak c) eqn:Hc.
    + destruct s as [|c' s].
      * destruct (Z.eqb_spec c 13) as [->|Hne].
        -- exists []. auto.
        -- exists [[]]. split; [auto|]. cbn [app].
           rewrite !(splitlines_from_break _ c) by assumption.
           rewrite splitlines_from_break by (reflexivity || discriminate).
           reflexivity.
      * simpl. rewrite Hc. destruct ((c =? 13) && (c' =? 10)) eqn:Hcrlf.
        -- destruct (IH (length s) ltac:(simpl in *; lia) s eq_refl [] rest)
             as (pad & Hpad & ->).
           exists pad. auto.
        -- destruct (IH (length (c' :: s)) ltac:(simpl in *; lia) (c' :: s) eq_refl [] rest)
             as (pad & Hpad & Heq).
           simpl in Heq. rewrite Heq. exists pad. auto.
    + simpl. rewrite Hc.
      destruct (IH (length s) ltac:(simpl in *; lia) s eq_refl (c :: cur) rest)
        as (pad & Hpad & ->).
      exists pad. auto.
Qed.

Lemma splitlines_app_marker old :
  exists pad, (pad = [] \/ pad = [[]]) /\
    splitlines (old ++ APPEND_MARKER)
    = splitlines old ++ pad ++ [[]; lit "--- APPENDED CONTENT ---"; []].
Proof.
  unfold splitlines, APPEND_MARKER.
  destruct (splitlines_from_app_lf old []
              (10 :: lit "--- APPENDED CONTENT ---" ++ [10; 10]))
    as (pad & Hpad & Heq).
  exists pad. split; [assumption|]. exact Heq.
Qed.

(** C6, as amended: in append mode the editor opens on the lines of the old
    content followed by the trailing lines of the marker (one or two empty
    lines, the marker, an empty line), with the cursor at the beginning of
    the buffer: line 0, column 0. *)
Theorem append_mode_seed old_content :
  exists pad, (pad = [] \/ pad = [[]]) /\
    lines (edit_session_start true old_content)
    = splitlines old_content ++ pad ++ [[]; lit "--- APPENDED CONTENT ---"; []] /\
    current_line_idx (edit_session_start true old_content) = 0%nat /\
    cursor_x (edit_session_start true old_content) = 0%nat.
Proof.
  destruct (splitlines_app_marker old_content) as (pad & Hpad & Heq).
  exists pad. split; [assumption|]. split; [|split; reflexivity].
  unfold edit_session_start, edit_initial_lines, initial_buffer. simpl.
  rewrite Heq.
  destruct (splitlines old_content) as [|l ls]; [|reflexivity].
  destruct Hpad as [-> | ->]; reflexivity.
Qed.

(** C6, as stated, fails: after opening ["first"] in append mode the cursor
    is on line 0 of a four-line buffer, not at its end. *)
Lemma append_mode_cursor_not_at_end :
  lines (edit_session_start true (lit "first"))
  = [lit "first"; []; lit "--- APPENDED CONTENT ---"; []] /\
  current_line_idx (edit_session_start true (lit "first")) = 0%nat /\
  cursor_x (edit_session_start true (lit "first")) = 0%nat /\
  ~ cursor_at_end (edit_session_start true (lit "first")).
Proof.
  splits; try reflexivity. intros [Hlast _]. discriminate Hlast.
Qed.

(** *** Entry file names *)

Lemma lit_inj s1 s2 : lit s1 = lit s2 -> s1 = s2.
Proof.
  intros Heq.
  assert (forall s, String.string_of_list_ascii
            (map (fun z => Ascii.ascii_of_N (Z.to_N z)) (lit s)) = s) as Hinv.
  { intros s. unfold lit. rewrite List.map_map.
    erewrite List.map_ext, List.map_id.
    - apply String.string_of_list_ascii_of_string.
    - intros a. simpl. rewrite N2Z.id. apply Ascii.ascii_N_embedding. }
  rewrite <- (Hinv s1), <- (Hinv s2), Heq. reflexivity.
Qed.

Lemma int_str_inj r1 r2 : int_str r1 = int_str r2 -> r1 = r2.
Proof. intros Heq%lit_inj. exact (pretty_Z_inj _ _ Heq). Qed.

(** In one second the name is decided by the draw alone. *)
Lemma entry_filename_inj now r1 r2 :
  entry_filename now r1 = entry_filename now r2 -> r1 = r2.
Proof.
  unfold entry_filename. intros Heq.
  apply app_inv_head, app_inv_head, app_inv_tail in Heq.
  exact (int_str_inj _ _ Heq).
Qed.

(** There are 900 draws: more names than that cannot all differ. *)
Lemma entry_filename_pigeonhole now (rs : list Z) :
  Forall randint_100_999 rs -> (900 < length rs)%nat ->
  ~ NoDup (entry_filename now <$> rs).
Proof.
  intros Hrange Hlen Hnodup%NoDup_fmap_1.
  assert (rs ⊆+ seqZ 100 900) as Hsub%submseteq_length.
  { apply NoDup_submseteq; [assumption|]. intros r Hr.
    rewrite Forall_forall in Hrange. specialize (Hrange r Hr).
    unfold randint_100_999 in Hrange. apply elem_of_seqZ. lia. }
  rewrite length_seqZ in Hsub. lia.
Qed.

(** C5, as amended: an entry id is the second of the clock followed by the
    draw of [random.randint(100,999)] and the extension; two ids made in the
    same second are equal exactly when their draws are equal, so among more
    than 900 ids of one second two are always the same. *)
Theorem entry_filename_same_second now :
  (forall r1 r2, entry_filename now r1 = entry_filename now r2 <-> r1 = r2) /\
  (forall rs : list Z,
     Forall randint_100_999 rs -> (900 < length rs)%nat ->
     ~ NoDup (entry_filename now <$> rs)).
Proof.
  split.
  - intros r1 r2. split; [apply entry_filename_inj|intros ->; reflexivity].
  - apply entry_filename_pigeonhole.
Qed.

(** *** Writing a note *)

(** A write that returns has stored the data, and no storage error stood
    in its way. *)
Lemma write_note_Ok w f data w' u :
  write_note w f data = (w', Ok u) ->
  w' = store w f data /\ (f ∉ write_denied w) /\ short_write w !! f = None.
Proof.
  unfold write_note. case_bool_decide; [discriminate|].
  destruct (short_write w !! f); [discriminate|]. intros [= <- _]. auto.
Qed.

(** A write that raises has left the vault as it was, or has left a part
    of the data under the name. *)
Lemma write_note_Raise w f data w' e :
  write_note w f data = (w', Raise e) ->
  (w' = w /\ f ∈ write_denied w) \/
  (exists n, short_write w !! f = Some n /\ (f ∉ write_denied w) /\
             w' = store w f (take n data)).
Proof.
  unfold write_note. case_bool_decide; [intros [= <- _]; auto|].
  destruct (short_write w !! f) as [n|]; [|discriminate].
  intros [= <- _]. eauto.
Qed.

Lemma write_note_storable w f data :
  (f ∉ write_denied w) -> short_write w !! f = None ->
  write_note w f data = (store w f data, Ok tt).
Proof.
  intros Hw Hs. unfold write_note. rewrite bool_decide_eq_false_2, Hs by assumption.
  reflexivity.
Qed.

Section SaveCollision.
Context {crypto : Cryptography}.

(** A save writes under the generated name whether or not a file of that
    name is there. *)
Lemma write_new_entry_saved w key title content_lines now r e w' filename :
  write_new_entry w key title content_lines now r e = (w', Saved filename) ->
  filename = entry_filename now r /\
  exists token, notes w' = <[filename := token]> (notes w).
Proof.
  unfold write_new_entry. intros Hsave.
  destruct title as [title|]; [|discriminate].
  destruct content_lines as [content_lines|]; [|discriminate].
  destruct (str_strip _); [discriminate|].
  destruct (encrypt_data _ _ _) as [[|b token]|]; try discriminate.
  destruct (write_note _ _ _) as [w1 [u|err]] eqn:Hw; [|discriminate].
  injection Hsave as <- <-. apply write_note_Ok in Hw as (-> & _). eauto.
Qed.

End SaveCollision.

(** C5, as stated, fails: a thousand draws in one second cannot give a
    thousand names, and a name that is already taken is used again: the
    second of two saves at [noon] with the draw 500 replaces the first. *)
Lemma thousand_ids_collide :
  ~ (forall now (rs : list Z),
       length rs = 1000%nat -> Forall randint_100_999 rs ->
       NoDup (entry_filename now <$> rs)) /\
  (exists w1 w2 f,
     @write_new_entry Simple.crypto (vault_of ∅) Simple.key1
       (Some (lit "one")) (Some [lit "first"]) noon 500 1 = (w1, Saved f) /\
     @select_and_read_entry Simple.crypto w1 Simple.key1 f
       = Opened (lit "one") (lit "first") /\
     @write_new_entry Simple.crypto w1 Simple.key1
       (Some (lit "two")) (Some [lit "second"]) noon 500 2 = (w2, Saved f) /\
     @select_and_read_entry Simple.crypto w2 Simple.key1 f
       = Opened (lit "two") (lit "second") /\
     size (notes w2) = 1%nat).
Proof.
  split.
  - intros Hclaim.
    apply (entry_filename_pigeonhole noon (replicate 1000 100)).
    + apply Forall_replicate. unfold randint_100_999. lia.
    + rewrite length_replicate. lia.
    + apply Hclaim; [apply length_replicate|].
      apply Forall_replicate. unfold randint_100_999. lia.
  - eexists _, _, _. splits.
    + vm_compute. reflexivity.
    + vm_compute. reflexivity.
    + vm_compute. reflexivity.
    + vm_compute. reflexivity.
    + vm_compute. reflexivity.
Qed.

(** *** Prefixes, the leftmost separator and [strip] *)

Lemma startswith_spec s p : startswith s p = true <-> exists r, s = p ++ r.
Proof.
  revert s. induction p as [|a p IH]; intros s; simpl.
  - split; [eauto|reflexivity].
  - destruct s as [|b s].
    + split; [discriminate|intros [r Hr]; discriminate].
    + rewrite andb_true_iff, Z.eqb_eq, IH. split.
      * intros [-> [r ->]]. eauto.
      * intros [r Hr]. injection Hr as -> ->. eauto.
Qed.

Lemma startswith_app p r : startswith (p ++ r) p = true.
Proof. apply startswith_spec. eauto. Qed.

Lemma endswith_spec s p : endswith s p = true <-> exists a, s = a ++ p.
Proof.
  unfold endswith. rewrite startswith_spec. split.
  - intros [r Hr]. exists (rev r).
    rewrite <- (rev_involutive s), Hr, rev_app_distr, rev_involutive. reflexivity.
  - intros [a ->]. exists (rev a). apply rev_app_distr.
Qed.

Lemma startswith_drop s p : startswith s p = true -> s = p ++ drop (length p) s.
Proof.
  intros [r ->]%startswith_spec. rewrite drop_app_length. reflexivity.
Qed.

Lemma str_partition_Some sep s a b :
  str_partition sep s = Some (a, b) -> s = a ++ sep ++ b.
Proof.
  revert a b. induction s as [|c s IH]; intros a b; simpl.
  - destruct (startswith [] sep) eqn:Hp; [|discriminate].
    intros [= <- <-]. exact (startswith_drop _ _ Hp).
  - destruct (startswith (c :: s) sep) eqn:Hp.
    + intros [= <- <-]. exact (startswith_drop _ _ Hp).
    + destruct (str_partition sep s) as [[a' b']|]; [|discriminate].
      intros [= <- <-]. rewrite (IH a' b' eq_refl). reflexivity.
Qed.

(** The cut is at the leftmost occurrence. *)
Lemma str_partition_leftmost sep a' b' :
  exists a b, str_partition sep (a' ++ sep ++ b') = Some (a, b) /\
              (length a <= length a')%nat.
Proof.
  induction a' as [|c a' IH].
  - exists [], b'. simpl app.
    assert (str_partition sep (sep ++ b') = Some ([], drop (length sep) (sep ++ b')))
      as ->.
    { destruct (sep ++ b') eqn:E; simpl; rewrite <- E, startswith_app; reflexivity. }
    rewrite drop_app_length. auto.
  - simpl. destruct (startswith (c :: a' ++ sep ++ b') sep).
    + eexists _, _. split; [reflexivity|simpl; lia].
    + destruct IH as (a & b & -> & Hlen).
      eexists _, _. split; [reflexivity|simpl; lia].
Qed.

Lemma str_partition_None sep s :
  str_partition sep s = None -> ~ contains sep s.
Proof.
  intros Hnone (a' & b' & ->).
  destruct (str_partition_leftmost sep a' b') as (a & b & Hsome & _).
  congruence.
Qed.

Lemma str_lstrip_length s : (length (str_lstrip s) <= length s)%nat.
Proof.
  induction s as [|c s IH]; simpl; [lia|].
  destruct (is_space c); simpl; lia.
Qed.

Lemma str_strip_length s : (length (str_strip s) <= length s)%nat.
Proof.
  unfold str_strip, str_rstrip.
  etransitivity; [apply str_lstrip_length|].
  rewrite length_rev. etransitivity; [apply str_lstrip_length|].
  rewrite length_rev. reflexivity.
Qed.

Lemma str_partition_here sep s :
  startswith s sep = true -> str_partition sep s = Some ([], drop (length sep) s).
Proof. intros Hp. destruct s; simpl; rewrite Hp; reflexivity. Qed.

Lemma str_partition_later sep c s :
  startswith (c :: s) sep = false ->
  str_partition sep (c :: s)
  = match str_partition sep s with
    | Some (a, b) => Some (c :: a, b)
    | None => None
    end.
Proof. intros Hp. simpl. rewrite Hp. reflexivity. Qed.

(** The separator cannot begin inside the title marker. *)
Lemma str_partition_title_mark s :
  str_partition CONTENT_SEP (TITLE_MARK ++ s)
  = match str_partition CONTENT_SEP s with
    | Some (a, b) => Some (TITLE_MARK ++ a, b)
    | None => None
    end.
Proof.
  unfold TITLE_MARK. cbn [app].
  rewrite !str_partition_later by reflexivity.
  destruct (str_partition CONTENT_SEP s) as [[a b]|]; reflexivity.
Qed.

Ltac eqbs H :=
  repeat match type of H with
  | _ && _ = true =>
      let H' := fresh "E" in
      apply andb_true_iff in H as [H' H]; apply Z.eqb_eq in H'
  end;
  try apply Z.eqb_eq in H.

(** Where the separator begins inside a title that is followed by the
    separator, the title contains it or ends with all of it but the last
    character, which the separator's own first character then supplies. *)
Lemma early_separator t c :
  t <> [] ->
  startswith (t ++ CONTENT_SEP ++ c) CONTENT_SEP = true ->
  contains CONTENT_SEP t \/ endswith t CONTENT_SEP_HEAD = true.
Proof.
  intros Hne Hp.
  destruct t as [|x t]; [contradiction|]. clear Hne.
  do 12 (destruct t as [|? t];
    [cbn -[Z.eqb] in Hp; eqbs Hp; try discriminate; subst;
     try (right; reflexivity) |]).
  cbn -[Z.eqb] in Hp. eqbs Hp. subst. left. eexists [], _. reflexivity.
Qed.

Lemma title_clean_tail x t : title_clean (x :: t) -> title_clean t.
Proof.
  intros [Hc He]. split.
  - intros (a & b & ->). apply Hc. exists (x :: a), b. reflexivity.
  - destruct (endswith t CONTENT_SEP_HEAD) eqn:Ht; [|reflexivity].
    apply endswith_spec in Ht as [a ->].
    rewrite <- He. symmetry. apply endswith_spec. exists (x :: a). reflexivity.
Qed.

(** After a clean title the parser cuts at the separator of the framing. *)
Lemma str_partition_clean t c :
  title_clean t -> str_partition CONTENT_SEP (t ++ CONTENT_SEP ++ c) = Some (t, c).
Proof.
  induction t as [|x t IH]; intros Hclean.
  - rewrite app_nil_l, str_partition_here by apply startswith_app.
    rewrite drop_app_length. reflexivity.
  - destruct (startswith ((x :: t) ++ CONTENT_SEP ++ c) CONTENT_SEP) eqn:Hp.
    + destruct Hclean as [Hc He].
      apply early_separator in Hp as [Hp|Hp]; [contradiction|congruence|discriminate].
    + change ((x :: t) ++ CONTENT_SEP ++ c) with (x :: t ++ CONTENT_SEP ++ c) in *.
      rewrite str_partition_later, IH by eauto using title_clean_tail.
      reflexivity.
Qed.

(** After any other title the parser cuts earlier. *)
Lemma str_partition_unclean t c :
  ~ title_clean t ->
  exists a b, str_partition CONTENT_SEP (t ++ CONTENT_SEP ++ c) = Some (a, b) /\
              (length a < length t)%nat.
Proof.
  intros Hunclean.
  destruct (str_partition CONTENT_SEP t) as [[a' b']|] eqn:Ht.
  - apply str_partition_Some in Ht as ->.
    destruct (str_partition_leftmost CONTENT_SEP a' (b' ++ CONTENT_SEP ++ c))
      as (a & b & Hcut & Hlen).
    exists a, b. rewrite <- !app_assoc. split; [exact Hcut|].
    rewrite !length_app. simpl. lia.
  - destruct (endswith t CONTENT_SEP_HEAD) eqn:He.
    + apply endswith_spec in He as [a' ->].
      destruct (str_partition_leftmost CONTENT_SEP a' (drop 1 CONTENT_SEP ++ c))
        as (a & b & Hcut & Hlen).
      exists a, b. rewrite <- app_assoc. split; [exact Hcut|].
      rewrite length_app. simpl. lia.
    + exfalso. apply Hunclean. split; [|exact He].
      apply str_partition_None. exact Ht.
Qed.

Lemma parse_entry_framed name t c a b :
  str_partition CONTENT_SEP (t ++ CONTENT_SEP ++ c) = Some (a, b) ->
  parse_entry name (full_entry_data t c) = (str_strip a, b).
Proof.
  intros Hcut. unfold parse_entry, full_entry_data, str_split1.
  rewrite str_partition_title_mark, Hcut, startswith_app, drop_app_length.
  reflexivity.
Qed.

(** What the parser makes of a framed title: the stripped title when the
    title is clean, and the title itself exactly when it is clean and has no
    white space at either end. *)
Lemma parse_entry_title name t c :
  (title_clean t -> parse_entry name (full_entry_data t c) = (str_strip t, c)) /\
  ((parse_entry name (full_entry_data t c)).1 = t <->
   title_clean t /\ str_strip t = t).
Proof.
  assert (title_clean t -> parse_entry name (full_entry_data t c) = (str_strip t, c))
    as Hclean.
  { intros Hc. apply parse_entry_framed, str_partition_clean, Hc. }
  split; [exact Hclean|]. split.
  - intros Htitle.
    assert (title_clean t) as Hc.
    { destruct (str_partition CONTENT_SEP t) as [[a' b']|] eqn:Ht;
        [|destruct (endswith t CONTENT_SEP_HEAD) eqn:He];
        [| |split; [apply str_partition_None; exact Ht|exact He]].
      all: exfalso.
      all: destruct (str_partition_unclean t c) as (a & b & Hcut & Hlen);
        [intros [Hc He']|].
      all: try (apply Hc; apply str_partition_Some in Ht; eexists _, _; exact Ht).
      all: try congruence.
      all: rewrite (parse_entry_framed _ _ _ _ _ Hcut) in Htitle; simpl in Htitle.
      all: pose proof (str_strip_length a) as Hs; rewrite Htitle in Hs; lia. }
    split; [exact Hc|]. rewrite (Hclean Hc) in Htitle. exact Htitle.
  - intros [Hc Hs]. rewrite (Hclean Hc). exact Hs.
Qed.

Lemma title_clean_cases t : title_clean t \/ ~ title_clean t.
Proof.
  destruct (str_partition CONTENT_SEP t) as [[a b]|] eqn:Ht.
  - right. intros [Hc _]. apply Hc.
    apply str_partition_Some in Ht. eexists _, _. exact Ht.
  - destruct (endswith t CONTENT_SEP_HEAD) eqn:He.
    + right. intros [_ He']. congruence.
    + left. split; [apply str_partition_None; exact Ht|exact He].
Qed.

Lemma str_partition_cut_clean t c :
  str_partition CONTENT_SEP (t ++ CONTENT_SEP ++ c) = Some (t, c) -> title_clean t.
Proof.
  intros Hcut. destruct (title_clean_cases t) as [Hc|Hc]; [exact Hc|].
  destruct (str_partition_unclean t c Hc) as (a & b & Hcut' & Hlen).
  rewrite Hcut in Hcut'. injection Hcut' as <- <-. lia.
Qed.

(** The parser on any payload: the framing is there and it cuts at the first
    separator, or the framing is missing and it falls back. *)
Lemma parse_entry_cases name payload :
  (exists t b, payload = full_entry_data t b /\ title_clean t /\
               parse_entry name payload = (str_strip t, b)) \/
  (~ framed payload /\ parse_entry name payload = (lit "Zecret: " ++ name, payload)).
Proof.
  unfold parse_entry, str_split1.
  destruct (str_partition CONTENT_SEP payload) as [[a b]|] eqn:Hcut.
  - destruct (startswith a TITLE_MARK) eqn:Hmark.
    + left. apply startswith_drop in Hmark.
      exists (drop (length TITLE_MARK) a), b.
      assert (payload = full_entry_data (drop (length TITLE_MARK) a) b) as Hp.
      { apply str_partition_Some in Hcut. unfold full_entry_data.
        rewrite Hcut, Hmark at 1. rewrite <- app_assoc. reflexivity. }
      split; [exact Hp|]. split; [|reflexivity].
      rewrite Hp in Hcut. unfold full_entry_data in Hcut.
      rewrite str_partition_title_mark in Hcut.
      destruct (str_partition CONTENT_SEP _) as [[a0 b0]|] eqn:Hcut0 in Hcut;
        [|discriminate].
      assert (TITLE_MARK ++ a0 = a /\ b0 = b) as [Ha <-] by (split; congruence).
      rewrite Hmark in Ha. apply app_inv_head in Ha. subst a0.
      exact (str_partition_cut_clean _ _ Hcut0).
    + right. split; [|reflexivity]. intros (t & c & ->).
      rewrite str_partition_title_mark in Hcut.
      destruct (str_partition CONTENT_SEP _) as [[a0 b0]|]; [|discriminate].
      assert (TITLE_MARK ++ a0 = a) as <- by congruence.
      rewrite startswith_app in Hmark. discriminate.
  - right. split; [|reflexivity]. intros (t & c & ->).
    apply str_partition_None in Hcut. apply Hcut.
    exists (TITLE_MARK ++ t), c. rewrite <- app_assoc. reflexivity.
Qed.

Section Entries.
Context {crypto : Cryptography}.

Lemma encrypt_data_decrypt s key r token :
  encrypt_data (Str s) key r = Ok token -> decrypt_data token key = Ok (Some s).
Proof.
  unfold encrypt_data, decrypt_data.
  destruct (fernet_key_ok key) eqn:Hkey; [|discriminate].
  destruct (str_encode s) as [b|] eqn:Hb; [|discriminate].
  intros [= <-]. rewrite fernet_decrypt_encrypt by assumption.
  rewrite (bytes_decode_str_encode _ _ Hb). reflexivity.
Qed.

(** C7: once the file is read and decrypted, [select_and_read_entry] always
    has a title and a body to show. With the framing in place they are the
    stripped text between the title marker and the first separator, and
    what follows that separator; with the framing missing or malformed they
    are a title made from the file name and the whole payload. *)
Theorem select_and_read_entry_parses w key name data payload :
  read_note w name = Ok data ->
  decrypt_data data key = Ok (Some payload) ->
  exists title content,
    select_and_read_entry w key name = Opened title content /\
    ((exists t b, payload = full_entry_data t b /\ title_clean t /\
                  title = str_strip t /\ content = b) \/
     (~ framed payload /\ title = lit "Zecret: " ++ name /\ content = payload)).
Proof.
  intros Hread Hdec. unfold select_and_read_entry. rewrite Hread, Hdec.
  destruct (parse_entry_cases name payload)
    as [(t & b & Hp & Hclean & Hparse)|[Hnf Hparse]];
    rewrite Hparse; eexists _, _; (split; [reflexivity|]).
  - left. eauto 10.
  - right. auto.
Qed.

Lemma write_new_entry_token w key t content_lines now r e w' f :
  write_new_entry w key (Some t) (Some content_lines) now r e = (w', Saved f) ->
  let title := match t with [] => lit "Untitled Zecret" | _ => t end in
  exists token,
    encrypt_data (Str (full_entry_data title (str_join [10] content_lines))) key e
    = Ok token /\
    f = entry_filename now r /\
    notes w' = <[f := token]> (notes w) /\
    read_denied w' = read_denied w.
Proof.
  intros Hsave title. unfold write_new_entry in Hsave. fold title in Hsave.
  destruct (str_strip (str_join [10] content_lines)); [discriminate|].
  destruct (encrypt_data _ key e) as [[|b token]|]; try discriminate.
  destruct (write_note _ _ _) as [w1 [u|err]] eqn:Hw; [|discriminate].
  injection Hsave as <- <-. apply write_note_Ok in Hw as (-> & _). eauto.
Qed.

(** C10, as amended: an entry saved under the title [t] and then loaded
    shows [t.strip()] when [t] is clean, that is when it neither contains the
    content separator nor ends with the separator's first twelve characters;
    it shows [t] itself exactly when [t] is clean and has no white space at
    either end. (An empty input title is saved as ["Untitled Zecret"].) *)
Theorem save_then_load_title w key t content_lines now r e w' f :
  write_new_entry w key (Some t) (Some content_lines) now r e = (w', Saved f) ->
  f ∉ read_denied w ->
  let title := match t with [] => lit "Untitled Zecret" | _ => t end in
  exists loaded_title loaded_content,
    select_and_read_entry w' key f = Opened loaded_title loaded_content /\
    (title_clean title ->
       loaded_title = str_strip title /\
       loaded_content = str_join [10] content_lines) /\
    (loaded_title = title <-> title_clean title /\ str_strip title = title).
Proof.
  intros Hsave Hread title.
  destruct (write_new_entry_token _ _ _ _ _ _ _ _ _ Hsave)
    as (token & Henc & -> & Hnotes & Hden).
  fold title in Henc. apply encrypt_data_decrypt in Henc.
  unfold select_and_read_entry, read_note.
  rewrite Hden, bool_decide_eq_false_2 by assumption.
  rewrite Hnotes, lookup_insert_eq, Henc.
  destruct (parse_entry_title (entry_filename now r) title
              (str_join [10] content_lines)) as [Hclean Hexact].
  destruct (parse_entry _ _) as [lt lc] eqn:Hparse.
  exists lt, lc. split; [reflexivity|]. split.
  - intros Hc. specialize (Hclean Hc). injection Hclean as -> ->. auto.
  - exact Hexact.
Qed.

End Entries.

Lemma select_and_read_entry_parses_witness :
  exists title content,
    @select_and_read_entry Simple.crypto Simple.legacy_vault Simple.key1 legacy_name
    = Opened title content /\
    ((exists t b, legacy_text = full_entry_data t b /\ title_clean t /\
                  title = str_strip t /\ content = b) \/
     (~ framed legacy_text /\ title = lit "Zecret: " ++ legacy_name /\
      content = legacy_text)).
Proof.
  apply (select_and_read_entry_parses (crypto := Simple.crypto)
           Simple.legacy_vault Simple.key1 legacy_name
           (Simple.encrypt Simple.key1 0 legacy_text) legacy_text).
  - vm_compute. reflexivity.
  - vm_compute. reflexivity.
Defined.

Lemma save_then_load_title_witness :
  let saved :=
    @write_new_entry Simple.crypto (vault_of ∅) Simple.key1
      (Some (lit " My day ")) (Some [lit "hello"; lit "world"]) noon 500 1 in
  exists loaded_title loaded_content,
    @select_and_read_entry Simple.crypto saved.1 Simple.key1 (entry_filename noon 500)
    = Opened loaded_title loaded_content /\
    (title_clean (lit " My day ") ->
       loaded_title = str_strip (lit " My day ") /\
       loaded_content = str_join [10] [lit "hello"; lit "world"]) /\
    (loaded_title = lit " My day " <->
     title_clean (lit " My day ") /\ str_strip (lit " My day ") = lit " My day ").
Proof.
  intros saved.
  apply (save_then_load_title (crypto := Simple.crypto) (vault_of ∅) Simple.key1
           (lit " My day ") [lit "hello"; lit "world"] noon 500 1
           saved.1 (entry_filename noon 500)).
  - vm_compute. reflexivity.
  - vm_compute. intros Hin. inversion Hin.
Defined.

(** C10, as stated, fails: the title [a\n--CONTENT--] has no white space at
    either end and does not contain the separator, and it does not come
    back: whatever the body, the entry loads with the title [a]. *)
Lemma title_ending_in_separator_head :
  let t := lit "a" ++ CONTENT_SEP_HEAD in
  str_strip t = t /\ ~ contains CONTENT_SEP t /\
  (forall name body,
     parse_entry name (full_entry_data t body)
     = (lit "a", lit "--CONTENT--" ++ [10] ++ body)) /\
  exists w' f,
    @write_new_entry Simple.crypto (vault_of ∅) Simple.key1
      (Some t) (Some [lit "body"]) noon 500 1 = (w', Saved f) /\
    @select_and_read_entry Simple.crypto w' Simple.key1 f
    = Opened (lit "a") (lit "--CONTENT--" ++ [10] ++ lit "body").
Proof.
  intros t. splits.
  - vm_compute. reflexivity.
  - apply str_partition_None. vm_compute. reflexivity.
  - intros name body. reflexivity.
  - eexists _, _. split.
    + vm_compute. reflexivity.
    + vm_compute. reflexivity.
Qed.

(** *** The notes of the vault *)

Lemma elem_of_get_sorted_notes w f :
  f ∈ get_sorted_notes w <-> f ∈ dom (notes w) /\ endswith f ENTRY_EXTENSION = true.
Proof.
  unfold get_sorted_notes. rewrite merge_sort_Permutation.
  rewrite list_elem_of_filter, elem_of_elements. tauto.
Qed.

Lemma NoDup_get_sorted_notes w : NoDup (get_sorted_notes w).
Proof.
  unfold get_sorted_notes. rewrite merge_sort_Permutation.
  apply NoDup_filter, NoDup_elements.
Qed.

(** *** The re-encryption loop *)

Section Rotation.
Context {crypto : Cryptography}.
Variables old_key new_key : bytes.
Hypothesis new_key_ok : fernet_key_ok new_key = true.

(** What one turn of the loop does: it counts a failure or a success, and
    touches no file but its own. *)
Lemma reencrypt_note_effect r f w c w' c' :
  reencrypt_note old_key new_key r f (w, c) = (w', c') ->
  read_denied w' = read_denied w /\ write_denied w' = write_denied w /\
  short_write w' = short_write w /\ password_file w' = password_file w /\
  (forall m, m <> f -> notes w' !! m = notes w !! m) /\
  ((success_count c' = success_count c /\ fail_count c' = S (fail_count c)) \/
   (success_count c' = S (success_count c) /\ fail_count c' = fail_count c)).
Proof.
  unfold reencrypt_note, failed, succeeded. intros Hturn.
  assert (forall w0 c0, (w, {| success_count := success_count c;
                             fail_count := S (fail_count c) |}) = (w0, c0) ->
            read_denied w0 = read_denied w /\ write_denied w0 = write_denied w /\
            short_write w0 = short_write w /\ password_file w0 = password_file w /\
            (forall m, m <> f -> notes w0 !! m = notes w !! m) /\
            ((success_count c0 = success_count c /\
              fail_count c0 = S (fail_count c)) \/
             (success_count c0 = S (success_count c) /\
              fail_count c0 = fail_count c))) as Hfail.
  { intros w0 c0 [= <- <-]. splits; try reflexivity. left. auto. }
  destruct (read_note w f) as [data|]; [|auto].
  destruct (decrypt_data data old_key) as [[s|]|]; [|auto|auto].
  destruct (encrypt_data (Str s) new_key r) as [token|]; [|auto].
  destruct (write_note w f token) as [w1 [u|e]] eqn:Hw.
  - apply write_note_Ok in Hw as (-> & _). injection Hturn as <- <-.
    splits; try reflexivity; [|right; auto].
    intros m Hm. apply lookup_insert_ne. congruence.
  - apply write_note_Raise in Hw as [[-> _]|(n & _ & _ & ->)]; [auto|].
    injection Hturn as <- <-. splits; try reflexivity; [|left; auto].
    intros m Hm. apply lookup_insert_ne. congruence.
Qed.

Lemma reencrypt_note_healthy r f w c :
  healthy w old_key f ->
  exists w' token s,
    reencrypt_note old_key new_key r f (w, c) = succeeded w' c /\
    notes w' = <[f := token]> (notes w) /\
    (exists data, notes w !! f = Some data /\ decrypt_data data old_key = Ok (Some s)) /\
    encrypt_data (Str s) new_key r = Ok token /\
    decrypt_data token new_key = Ok (Some s).
Proof.
  intros ((Hr & Hw & Hs) & data & s & Hdata & Hdec).
  unfold reencrypt_note, read_note.
  rewrite bool_decide_eq_false_2 by assumption. rewrite Hdata, Hdec.
  assert (exists b, str_encode s = Some b) as [b Hb].
  { unfold decrypt_data in Hdec. destruct (fernet_key_ok old_key); [|discriminate].
    destruct (fernet_decrypt old_key data) as [b|]; [|discriminate].
    exists b. apply str_encode_bytes_decode. congruence. }
  unfold encrypt_data. rewrite new_key_ok, Hb.
  rewrite write_note_storable by assumption.
  eexists _, _, s. splits; [reflexivity|reflexivity|eauto|rewrite Hb; reflexivity|].
  unfold decrypt_data. rewrite new_key_ok, fernet_decrypt_encrypt by assumption.
  rewrite (bytes_decode_str_encode _ _ Hb). reflexivity.
Qed.

(** Only an entry that decrypts and meets no storage error is counted as a
    success. *)
Lemma reencrypt_note_unhealthy r f w c w' c' :
  ~ healthy w old_key f ->
  reencrypt_note old_key new_key r f (w, c) = (w', c') ->
  success_count c' = success_count c /\ fail_count c' = S (fail_count c).
Proof.
  intros Hnot. unfold reencrypt_note, failed, succeeded, read_note.
  case_bool_decide as Hrd; [intros [= <- <-]; auto|].
  destruct (notes w !! f) as [data|] eqn:Hdata; [|intros [= <- <-]; auto].
  destruct (decrypt_data data old_key) as [[s|]|] eqn:Hdec;
    [|intros [= <- <-]; auto|intros [= <- <-]; auto].
  destruct (encrypt_data (Str s) new_key r) as [token|]; [|intros [= <- <-]; auto].
  destruct (write_note w f token) as [w1 [u|e]] eqn:Hw; [|intros [= <- <-]; auto].
  apply write_note_Ok in Hw as (_ & Hwd & Hsw).
  destruct Hnot. split; [split; auto|]. exists data, s. auto.
Qed.

Lemma reencrypt_note_undecryptable r f w c :
  undecryptable w old_key f ->
  reencrypt_note old_key new_key r f (w, c) = failed w c.
Proof.
  intros (data & Hread & Hdec). unfold reencrypt_note. rewrite Hread.
  destruct (decrypt_data data old_key) as [[s|]|]; try reflexivity.
  destruct (Hdec s eq_refl).
Qed.

Lemma healthy_same_file w w1 f :
  read_denied w1 = read_denied w -> write_denied w1 = write_denied w ->
  short_write w1 = short_write w ->
  notes w1 !! f = notes w !! f ->
  healthy w old_key f -> healthy w1 old_key f.
Proof. unfold healthy, storable, decrypts. intros -> -> -> ->. auto. Qed.

Lemma undecryptable_same_file w w1 f :
  read_denied w1 = read_denied w -> notes w1 !! f = notes w !! f ->
  undecryptable w old_key f -> undecryptable w1 old_key f.
Proof. unfold undecryptable, read_note. intros -> ->. auto. Qed.

Lemma rekeyed_same_file w w1 w' f :
  notes w1 !! f = notes w !! f ->
  rekeyed w1 w' old_key new_key f -> rekeyed w w' old_key new_key f.
Proof. unfold rekeyed. intros ->. auto. Qed.

Lemma reencrypted_same_file w w1 w' f :
  notes w1 !! f = notes w !! f ->
  reencrypted w1 w' old_key new_key f -> reencrypted w w' old_key new_key f.
Proof. unfold reencrypted. intros ->. auto. Qed.

(** One turn leaves every other file as it was. *)
Lemma reencrypt_note_others r f w c w1 c1 m :
  reencrypt_note old_key new_key r f (w, c) = (w1, c1) ->
  m <> f -> notes w1 !! m = notes w !! m.
Proof.
  intros Hturn Hne.
  destruct (reencrypt_note_effect _ _ _ _ _ _ Hturn) as (_ & _ & _ & _ & Hsame & _).
  auto.
Qed.

(** The entries of a list that the loop can carry over are the same in two
    vaults that agree on the files of the list. *)
Lemma healthy_filter_same w w1 (ns : list pystr) :
  read_denied w1 = read_denied w -> write_denied w1 = write_denied w ->
  short_write w1 = short_write w ->
  (forall g, g ∈ ns -> notes w1 !! g = notes w !! g) ->
  filter (healthy w1 old_key) ns = filter (healthy w old_key) ns.
Proof.
  intros Hrd Hwd Hsw. induction ns as [|g ns IH]; intros Hsame; [reflexivity|].
  assert (healthy w1 old_key g <-> healthy w old_key g) as Hiff.
  { assert (notes w1 !! g = notes w !! g) as Hg by (apply Hsame; left).
    split; apply healthy_same_file; auto. }
  rewrite !filter_cons, IH by (intros h Hh; apply Hsame; right; exact Hh).
  destruct (decide (healthy w1 old_key g)), (decide (healthy w old_key g));
    tauto || reflexivity.
Qed.

(** The loop over a list of distinct names. *)
Lemma reencrypt_notes_spec rs ns : NoDup ns -> forall i w c w' c',
  reencrypt_notes old_key new_key rs i ns (w, c) = (w', c') ->
  read_denied w' = read_denied w /\ write_denied w' = write_denied w /\
  short_write w' = short_write w /\ password_file w' = password_file w /\
  (forall m, m ∉ ns -> notes w' !! m = notes w !! m) /\
  (success_count c' + fail_count c'
   = success_count c + fail_count c + length ns)%nat /\
  (fail_count c <= fail_count c')%nat /\
  success_count c'
  = (success_count c + length (filter (healthy w old_key) ns))%nat /\
  (forall f, f ∈ ns -> healthy w old_key f ->
     reencrypted w w' old_key new_key f /\ rekeyed w w' old_key new_key f) /\
  (forall f, f ∈ ns -> undecryptable w old_key f ->
     notes w' !! f = notes w !! f /\ (fail_count c < fail_count c')%nat) /\
  ((forall f, f ∈ ns -> healthy w old_key f) ->
     success_count c' = (success_count c + length ns)%nat /\
     fail_count c' = fail_count c).
Proof.
  induction 1 as [|f ns Hf Hnodup IH]; intros i w c w' c' Hloop.
  - simpl in Hloop. injection Hloop as <- <-.
    splits; auto; try (simpl; lia); intros f Hin; inversion Hin.
  - cbn [reencrypt_notes] in Hloop.
    destruct (reencrypt_note old_key new_key (rs i) f (w, c)) as [w1 c1] eqn:Hturn.
    destruct (IH _ _ _ _ _ Hloop)
      as (Hrd & Hwd & Hsw & Hpw & Hothers & Hsum & Hmono & Hcount & Hgood & Hbad
          & Hall).
    pose proof (reencrypt_note_effect _ _ _ _ _ _ Hturn)
      as (Hrd1 & Hwd1 & Hsw1 & Hpw1 & Hsame & Hcases).
    assert (success_count c1 + fail_count c1 = S (success_count c + fail_count c)
            /\ fail_count c <= fail_count c1)%nat as [Hsum1 Hmono1].
    { destruct Hcases as [[-> ->]|[-> ->]]; lia. }
    assert (forall g, g ∈ ns -> g <> f) as Hns by (intros g Hg ->; contradiction).
    splits.
    + congruence.
    + congruence.
    + congruence.
    + congruence.
    + intros m Hm. apply not_elem_of_cons in Hm as [Hne Hm].
      rewrite (Hothers m Hm). auto.
    + simpl. lia.
    + lia.
    + rewrite Hcount, (healthy_filter_same w w1) by auto.
      rewrite filter_cons. destruct (decide (healthy w old_key f)) as [Hh|Hh].
      * destruct (reencrypt_note_healthy (rs i) f w c Hh)
          as (w1' & token & s & Hturn' & _).
        rewrite Hturn in Hturn'. unfold succeeded in Hturn'.
        injection Hturn' as _ ->. simpl. lia.
      * destruct (reencrypt_note_unhealthy _ _ _ _ _ _ Hh Hturn) as [-> _]. lia.
    + intros g Hg Hhealthy. apply elem_of_cons in Hg as [->|Hg].
      * destruct (reencrypt_note_healthy (rs i) f w c Hhealthy)
          as (w1' & token & s & Hturn' & Hnotes & (data & Hdata & Hdec) & Henc
              & Hnew).
        rewrite Hturn in Hturn'. unfold succeeded in Hturn'.
        injection Hturn' as <- _.
        assert (notes w' !! f = Some token) as Htoken.
        { rewrite (Hothers f Hf), Hnotes. apply lookup_insert_eq. }
        split; [exists data, s, (rs i), token|exists data, token, s]; splits; auto.
      * destruct (Hgood g Hg) as [Hre Hrk].
        { apply (healthy_same_file w); auto. }
        split; [apply (reencrypted_same_file w w1)|apply (rekeyed_same_file w w1)];
          auto.
    + intros g Hg Hund. apply elem_of_cons in Hg as [->|Hg].
      * rewrite (reencrypt_note_undecryptable (rs i) f w c Hund) in Hturn.
        unfold failed in Hturn. injection Hturn as <- <-.
        split; [apply Hothers; assumption|]. simpl in Hmono. lia.
      * destruct (Hbad g Hg) as [Hkeep Hlt].
        { apply (undecryptable_same_file w); auto. }
        split; [rewrite Hkeep; auto|lia].
    + intros Hallh.
      destruct (reencrypt_note_healthy (rs i) f w c (Hallh f ltac:(left)))
        as (w1' & token & s & Hturn' & _).
      rewrite Hturn in Hturn'. unfold succeeded in Hturn'.
      injection Hturn' as _ ->.
      destruct Hall as [Hs Hfl].
      { intros g Hg. apply (healthy_same_file w); auto. apply Hallh. right.
        assumption. }
      simpl in *. lia.
Qed.

End Rotation.

(** *** What the prompt returns *)

Lemma string_input_loop_typed max_len events : forall text result,
  typed text ->
  string_input_loop max_len events text = Entered result -> typed result.
Proof.
  induction events as [|[key|] events IH]; intros text result Htext; simpl;
    try discriminate.
  destruct (key_in key [KEY_ENTER; 10; 13]); [intros [= <-]; assumption|].
  destruct (key_in key [KEY_BACKSPACE; 127; 8]).
  { apply IH. case_bool_decide; [|assumption].
    unfold typed in *. apply Forall_take. assumption. }
  destruct (key =? 27); [discriminate|].
  destruct ((32 <=? key) && (key <=? 126)) eqn:Hkey; [|apply IH; assumption].
  apply IH. case_bool_decide; [|assumption].
  unfold typed in *. apply Forall_app. split; [assumption|].
  constructor; [|constructor]. btest Hkey. lia.
Qed.

Lemma get_string_input_typed room max_len events text :
  get_string_input room max_len events = Entered text -> typed text.
Proof.
  unfold get_string_input. destruct room.
  - apply string_input_loop_typed. constructor.
  - intros [= <-]. constructor.
Qed.

Lemma typed_encodable text : typed text -> encodable text.
Proof.
  unfold typed, encodable. intros Ht. eapply Forall_impl; [exact Ht|].
  intros c Hc. simpl in Hc. unfold is_scalar, is_surrogate. ztest. reflexivity.
Qed.

Lemma typed_title_clean t : typed t -> title_clean t.
Proof.
  intros Ht.
  assert (forall a b, t <> a ++ 10 :: b) as Hlf.
  { intros a b ->. unfold typed in Ht. rewrite Forall_app, Forall_cons in Ht.
    destruct Ht as (_ & Hc & _). lia. }
  split.
  - intros (a & b & ->). exact (Hlf a _ eq_refl).
  - destruct (endswith t CONTENT_SEP_HEAD) eqn:He; [|reflexivity].
    apply endswith_spec in He as [a ->]. destruct (Hlf a _ eq_refl).
Qed.

(** *** [change_password] *)

Section ChangePassword.
Context {crypto : Cryptography}.

Lemma get_key_from_password_ok password salt :
  encodable password ->
  exists key, get_key_from_password password salt = Ok key /\
              fernet_key_ok key = true /\ key <> [].
Proof.
  intros [pw Hpw]%str_encode_encodable. unfold get_key_from_password. rewrite Hpw.
  eexists. split; [reflexivity|]. split; [apply derived_key_ok|].
  intros Hnil. pose proof (derived_key_ok pw salt KEY_ITERATIONS) as Hok.
  rewrite Hnil, fernet_key_nonempty in Hok. discriminate.
Qed.

(** With a credential that can be written, the rotation reaches the loop
    and reports what the loop counted. *)
Lemma change_password_runs new_password new_salt old_key rs w :
  encodable new_password -> new_salt <> [] -> credential_writable w ->
  exists new_key w1 w' c,
    get_key_from_password new_password new_salt = Ok new_key /\
    fernet_key_ok new_key = true /\
    notes w1 = notes w /\ read_denied w1 = read_denied w /\
    write_denied w1 = write_denied w /\ short_write w1 = short_write w /\
    reencrypt_notes old_key new_key rs 0 (get_sorted_notes w)
      (w1, {| success_count := 0; fail_count := 0 |}) = (w', c) /\
    change_password new_password new_salt old_key rs w
    = Ok (w', {| changed := true; session_key := new_key;
                 total_notes := length (get_sorted_notes w); tally := c |}).
Proof.
  intros Henc Hsalt [Hpw Hch].
  destruct (get_key_from_password_ok new_password new_salt Henc)
    as (new_key & Hkey & Hok & Hne).
  unfold change_password, save_password_hash, write_password_file,
    chmod_password_file.
  rewrite Hkey, Hpw. cbn [chmod_denied]. rewrite Hch.
  destruct new_salt as [|b salt]; [contradiction|].
  destruct new_key as [|k key]; [contradiction|].
  set (w1 := {| notes := notes w; password_file := _ |}).
  change (get_sorted_notes w1) with (get_sorted_notes w).
  destruct (reencrypt_notes old_key (k :: key) rs 0 (get_sorted_notes w) _)
    as [w' c] eqn:Hloop.
  exists (k :: key), w1, w', c. splits; auto.
Qed.

(** C2: when every entry of the vault decrypts under the old key and no
    storage operation fails, the rotation to a password entered at the
    prompt makes every entry decrypt under the new key to its former
    plaintext, counts [(N, 0)] and returns the key derived from the new
    password. *)
Theorem change_password_rekeys_all events new_password new_salt old_key rs w :
  get_string_input true 50 events = Entered new_password ->
  length new_salt = Z.to_nat SALT_SIZE ->
  storage_ok w ->
  (forall f, f ∈ get_sorted_notes w -> decrypts w old_key f) ->
  exists w' new_key,
    get_key_from_password new_password new_salt = Ok new_key /\
    change_password new_password new_salt old_key rs w
    = Ok (w', {| changed := true; session_key := new_key;
                 total_notes := length (get_sorted_notes w);
                 tally := {| success_count := length (get_sorted_notes w);
                             fail_count := 0 |} |}) /\
    forall f, f ∈ get_sorted_notes w -> rekeyed w w' old_key new_key f.
Proof.
  intros Henc%get_string_input_typed%typed_encodable Hsalt [Hcred Hio] Hdec.
  assert (forall f, f ∈ get_sorted_notes w -> healthy w old_key f) as Hall.
  { intros f Hf. split; auto. }
  destruct (change_password_runs new_password new_salt old_key rs w Henc)
    as (new_key & w1 & w' & c & Hkey & Hok & Hn & Hr & Hw & Hs & Hloop & Hres);
    [destruct new_salt; [discriminate|congruence]|assumption|].
  destruct (reencrypt_notes_spec old_key new_key Hok rs _
              (NoDup_get_sorted_notes w) _ _ _ _ _ Hloop)
    as (_ & _ & _ & _ & _ & _ & _ & _ & Hgood & _ & Hcount).
  assert (forall f, f ∈ get_sorted_notes w -> healthy w1 old_key f) as Hall1.
  { intros f Hf. apply (healthy_same_file old_key w); auto. rewrite Hn. reflexivity. }
  destruct (Hcount Hall1) as [Hsc Hfc]. simpl in Hsc, Hfc.
  exists w', new_key. splits; [assumption| |].
  - rewrite Hres. destruct c as [sc fc]. simpl in *. subst. reflexivity.
  - intros f Hf'. apply (rekeyed_same_file old_key new_key w w1).
    + rewrite Hn. reflexivity.
    + apply Hgood; auto.
Qed.

(** C3: an entry that does not decrypt under the old key does not stop the
    rotation. The rotation is reported as done and returns the key derived
    from the new password; that entry is counted as a failure and its
    bytes are as they were; the successes are exactly the entries that
    decrypt under the old key and meet no storage error, and each of them
    now holds a token made under the new key from its former plaintext,
    which decrypts to it under the new key. *)
Theorem change_password_skips_undecryptable
  events new_password new_salt old_key rs w i :
  get_string_input true 50 events = Entered new_password ->
  length new_salt = Z.to_nat SALT_SIZE ->
  credential_writable w ->
  i ∈ get_sorted_notes w ->
  undecryptable w old_key i ->
  exists w' new_key c,
    get_key_from_password new_password new_salt = Ok new_key /\
    change_password new_password new_salt old_key rs w
    = Ok (w', {| changed := true; session_key := new_key;
                 total_notes := length (get_sorted_notes w); tally := c |}) /\
    (1 <= fail_count c)%nat /\
    success_count c = length (filter (healthy w old_key) (get_sorted_notes w)) /\
    (success_count c + fail_count c = length (get_sorted_notes w))%nat /\
    notes w' !! i = notes w !! i /\
    forall f, f ∈ get_sorted_notes w -> healthy w old_key f ->
              reencrypted w w' old_key new_key f /\
              rekeyed w w' old_key new_key f.
Proof.
  intros Henc%get_string_input_typed%typed_encodable Hsalt Hcred Hi Hund.
  destruct (change_password_runs new_password new_salt old_key rs w Henc)
    as (new_key & w1 & w' & c & Hkey & Hok & Hn & Hr & Hw & Hs & Hloop & Hres);
    [destruct new_salt; [discriminate|congruence]|assumption|].
  destruct (reencrypt_notes_spec old_key new_key Hok rs _
              (NoDup_get_sorted_notes w) _ _ _ _ _ Hloop)
    as (_ & _ & _ & _ & _ & Hsum & _ & Hcount & Hgood & Hbad & _).
  assert (forall g, notes w1 !! g = notes w !! g) as Hsame
    by (intros g; rewrite Hn; reflexivity).
  destruct (Hbad i Hi) as [Hkeep Hlt].
  { apply (undecryptable_same_file old_key w); auto. }
  exists w', new_key, c. simpl in *. splits; [assumption|assumption|lia| |lia| |].
  - rewrite Hcount. apply f_equal, healthy_filter_same; auto.
  - rewrite Hkeep. apply Hsame.
  - intros f Hf Hh. destruct (Hgood f Hf) as [Hre Hrk].
    { apply (healthy_same_file old_key w); auto. }
    split; [apply (reencrypted_same_file old_key new_key w w1)
           |apply (rekeyed_same_file old_key new_key w w1)]; auto.
Qed.

End ChangePassword.

Lemma change_password_rekeys_all_witness :
  exists w' new_key,
    @get_key_from_password Simple.crypto Simple.new_password Simple.salt1 = Ok new_key /\
    @change_password Simple.crypto Simple.new_password Simple.salt1 Simple.key1
      (fun _ => 0) Simple.sound_vault
    = Ok (w', {| changed := true; session_key := new_key;
                 total_notes := length (get_sorted_notes Simple.sound_vault);
                 tally := {| success_count := length (get_sorted_notes Simple.sound_vault);
                             fail_count := 0 |} |}) /\
    forall f, f ∈ get_sorted_notes Simple.sound_vault ->
              @rekeyed Simple.crypto Simple.sound_vault w' Simple.key1 new_key f.
Proof.
  apply (change_password_rekeys_all (crypto := Simple.crypto)
           Simple.new_password_keys).
  - vm_compute. reflexivity.
  - reflexivity.
  - split; [split; reflexivity|]. intros f _.
    split; [apply not_elem_of_empty|]. split; [apply not_elem_of_empty|reflexivity].
  - intros f Hf. vm_compute in Hf.
    apply elem_of_cons in Hf as [->|Hf]; [|apply elem_of_cons in Hf as [->|Hf]];
      [| |inversion Hf].
    + eexists _, _. split; [vm_compute; reflexivity|vm_compute; reflexivity].
    + eexists _, _. split; [vm_compute; reflexivity|vm_compute; reflexivity].
Defined.

Lemma change_password_skips_undecryptable_witness :
  exists w' new_key c,
    @get_key_from_password Simple.crypto Simple.new_password Simple.salt1 = Ok new_key /\
    @change_password Simple.crypto Simple.new_password Simple.salt1 Simple.key1
      (fun _ => 0) Simple.damaged_vault
    = Ok (w', {| changed := true; session_key := new_key;
                 total_notes := length (get_sorted_notes Simple.damaged_vault);
                 tally := c |}) /\
    (1 <= fail_count c)%nat /\
    success_count c
    = length (filter (@healthy Simple.crypto Simple.damaged_vault Simple.key1)
                (get_sorted_notes Simple.damaged_vault)) /\
    (success_count c + fail_count c
     = length (get_sorted_notes Simple.damaged_vault))%nat /\
    notes w' !! Simple.name2 = notes Simple.damaged_vault !! Simple.name2 /\
    forall f, f ∈ get_sorted_notes Simple.damaged_vault ->
              @healthy Simple.crypto Simple.damaged_vault Simple.key1 f ->
              @reencrypted Simple.crypto Simple.damaged_vault w' Simple.key1 new_key f /\
              @rekeyed Simple.crypto Simple.damaged_vault w' Simple.key1 new_key f.
Proof.
  apply (change_password_skips_undecryptable (crypto := Simple.crypto)
           Simple.new_password_keys).
  - vm_compute. reflexivity.
  - reflexivity.
  - split; reflexivity.
  - vm_compute. apply list_elem_of_here.
  - exists [1; 2; 3]. split; [vm_compute; reflexivity|].
    intros s Hs. vm_compute in Hs. discriminate Hs.
Defined.

(** *** The password file *)

Lemma readline_whole text :
  Forall (fun c => c <> 10 /\ c <> 13) text -> readline text = text.
Proof.
  induction 1 as [|c text [H10 H13] _ IH]; [reflexivity|]. simpl.
  destruct (Z.eqb_spec c 10); [contradiction|].
  destruct (Z.eqb_spec c 13); [contradiction|]. simpl. rewrite IH. reflexivity.
Qed.

Lemma str_lstrip_id s : Forall (fun c => is_space c = false) s -> str_lstrip s = s.
Proof. destruct 1 as [|c s Hc _]; [reflexivity|]. simpl. rewrite Hc. reflexivity. Qed.

Lemma str_strip_id s : Forall (fun c => is_space c = false) s -> str_strip s = s.
Proof.
  intros Hs. unfold str_strip, str_rstrip.
  rewrite (str_lstrip_id (rev s)) by (apply Forall_rev; assumption).
  rewrite rev_involutive. apply str_lstrip_id. assumption.
Qed.

Lemma startswith_colon c s : c <> 58 -> startswith (c :: s) [58] = false.
Proof.
  intros Hc. cbn -[Z.eqb]. destruct (Z.eqb_spec 58 c); [congruence|reflexivity].
Qed.

Lemma str_partition_colon_None s :
  Forall (fun c => c <> 58) s -> str_partition [58] s = None.
Proof.
  induction 1 as [|c s Hc _ IH]; [reflexivity|].
  rewrite str_partition_later, IH by (apply startswith_colon; assumption).
  reflexivity.
Qed.

Lemma str_partition_colon a b :
  Forall (fun c => c <> 58) a -> str_partition [58] (a ++ 58 :: b) = Some (a, b).
Proof.
  induction 1 as [|c a Hc _ IH].
  - apply (str_partition_here [58] (58 :: b)). reflexivity.
  - cbn [app].
    rewrite str_partition_later, IH by (apply startswith_colon; assumption).
    reflexivity.
Qed.

Lemma str_split_colon a b :
  Forall (fun c => c <> 58) a -> Forall (fun c => c <> 58) b ->
  str_split [58] (a ++ 58 :: b) = [a; b].
Proof.
  intros Ha Hb. unfold str_split. rewrite length_app. simpl.
  rewrite Nat.add_succ_r. cbn [str_split_fuel].
  rewrite (str_partition_colon a b Ha).
  destruct (length a + length b)%nat; cbn [str_split_fuel]; [reflexivity|].
  rewrite (str_partition_colon_None b Hb). reflexivity.
Qed.

Ltac bools H :=
  match type of H with
  | _ || _ = true => apply orb_true_iff in H as [H|H]; bools H
  | _ && _ = true =>
      let H' := fresh H in apply andb_true_iff in H as [H H']; bools H; bools H'
  | (_ <=? _) = true => apply Z.leb_le in H
  | (_ <? _) = true => apply Z.ltb_lt in H
  | (_ =? _) = true => apply Z.eqb_eq in H
  | _ => idtac
  end.

Lemma is_space_range c : is_space c = true -> c <= 32 \/ 133 <= c.
Proof. unfold is_space. intros H. bools H; lia. Qed.

Lemma is_b64_char_range c : is_b64_char c = true -> 43 <= c <= 122 /\ c <> 58.
Proof. unfold is_b64_char. intros H. bools H; lia. Qed.

Lemma is_hex_digit_range c : is_hex_digit c = true -> 48 <= c <= 102 /\ c <> 58.
Proof. unfold is_hex_digit. intros H. bools H; lia. Qed.

Lemma plain_not_space c : plain c -> is_space c = false.
Proof.
  unfold plain. intros Hc. destruct (is_space c) eqn:Hs; [|reflexivity].
  apply is_space_range in Hs. lia.
Qed.

Section Credential.
Context {crypto : Cryptography}.

Lemma credential_line_plain salt key :
  Forall plain (b64encode_str salt ++ lit ":" ++ key_hash key).
Proof.
  rewrite !Forall_app. splits.
  - eapply Forall_impl; [apply b64encode_alphabet|].
    intros c Hc%is_b64_char_range. unfold plain. lia.
  - repeat constructor; unfold plain; simpl; lia.
  - eapply Forall_impl; [apply sha256_hexdigest_hex|].
    intros c Hc%is_hex_digit_range. unfold plain. lia.
Qed.

(** Reading the credential back gives the salt and the digest that
    [save_password_hash] wrote. *)
Lemma load_after_save password salt w w1 salt1 key :
  Forall is_byte salt ->
  save_password_hash password salt w = Ok (w1, Some (salt1, key)) ->
  salt1 = salt /\ get_key_from_password password salt = Ok key /\
  notes w1 = notes w /\
  load_password_salt_and_hash w1 = Some (salt, key_hash key).
Proof.
  intros Hsalt. unfold save_password_hash, write_password_file.
  destruct (get_key_from_password password salt) as [key'|]; [|discriminate].
  destruct (password_file_denied w); [discriminate|].
  unfold chmod_password_file. cbn [chmod_denied].
  destruct (chmod_denied w); [discriminate|].
  intros [= <- <- <-]. splits; try reflexivity.
  unfold load_password_salt_and_hash. cbn [password_file].
  pose proof (credential_line_plain salt key') as Hplain.
  rewrite readline_whole, str_strip_id.
  - change (lit ":" ++ key_hash key') with (58 :: key_hash key').
    rewrite str_split_colon.
    + rewrite b64decode_b64encode by assumption. reflexivity.
    + eapply Forall_impl; [apply b64encode_alphabet|].
      intros c Hc%is_b64_char_range. lia.
    + eapply Forall_impl; [apply sha256_hexdigest_hex|].
      intros c Hc%is_hex_digit_range. lia.
  - eapply Forall_impl; [exact Hplain|]. apply plain_not_space.
  - eapply Forall_impl; [exact Hplain|]. unfold plain. intros c Hc. simpl. lia.
Qed.


End Credential.


(** *** More passwords than digests *)

Lemma Z_pigeonhole (f : Z -> Z) (n : Z) :
  0 <= n -> (forall i, 0 <= i <= n -> 0 <= f i < n) ->
  exists i j, 0 <= i < j /\ j <= n /\ f i = f j.
Proof.
  intros Hn Hf.
  destruct (nat_pigeonhole (fun k => Z.to_nat (f (Z.of_nat k)))
              (S (Z.to_nat n)) (Z.to_nat n)) as (i1 & i2 & Hlt & Heq).
  - lia.
  - intros k Hk. specialize (Hf (Z.of_nat k)). lia.
  - exists (Z.of_nat i1), (Z.of_nat i2). split; [lia|]. split; [lia|].
    pose proof (Hf (Z.of_nat i1)). pose proof (Hf (Z.of_nat i2)). lia.
Qed.

Lemma base64_text_length k : forall n, length (base64_text k n) = k.
Proof. induction k as [|k IH]; intros n; simpl; [reflexivity|]. rewrite IH. reflexivity. Qed.

Lemma base64_text_typed k : forall n, typed (base64_text k n).
Proof.
  induction k as [|k IH]; intros n; simpl; [constructor|].
  constructor; [|apply IH]. pose proof (Z.mod_pos_bound n 64). lia.
Qed.

Lemma base64_text_inj k : forall n m,
  0 <= n < 64 ^ Z.of_nat k -> 0 <= m < 64 ^ Z.of_nat k ->
  base64_text k n = base64_text k m -> n = m.
Proof.
  induction k as [|k IH]; intros n m Hn Hm Heq.
  - change (64 ^ Z.of_nat 0) with 1 in *. lia.
  - rewrite Nat2Z.inj_succ, Z.pow_succ_r in Hn, Hm by lia.
    simpl in Heq. injection Heq as Hlow Hhigh.
    apply IH in Hhigh.
    + pose proof (Z.div_mod n 64). pose proof (Z.div_mod m 64). lia.
    + split; [apply Z.div_pos; lia|apply Z.div_lt_upper_bound; lia].
    + split; [apply Z.div_pos; lia|apply Z.div_lt_upper_bound; lia].
Qed.

Lemma hex_value_range c : is_hex_digit c = true -> 0 <= hex_value c < 16.
Proof.
  unfold is_hex_digit, hex_value. intros H. bools H;
    destruct (Z.leb_spec c 57); lia.
Qed.

Lemma hex_value_inj c d :
  is_hex_digit c = true -> is_hex_digit d = true ->
  hex_value c = hex_value d -> c = d.
Proof.
  unfold is_hex_digit, hex_value. intros Hc Hd. bools Hc; bools Hd;
    destruct (Z.leb_spec c 57); destruct (Z.leb_spec d 57); lia.
Qed.

Lemma hex_number_bound s :
  Forall (fun c => is_hex_digit c = true) s ->
  0 <= hex_number s < 16 ^ Z.of_nat (length s).
Proof.
  induction 1 as [|c s Hc _ IH]; [simpl; lia|].
  cbn [hex_number length]. rewrite Nat2Z.inj_succ, Z.pow_succ_r by lia.
  pose proof (hex_value_range c Hc). lia.
Qed.

Lemma hex_number_inj s : forall t,
  Forall (fun c => is_hex_digit c = true) s ->
  Forall (fun c => is_hex_digit c = true) t ->
  length s = length t -> hex_number s = hex_number t -> s = t.
Proof.
  induction s as [|c s IH]; intros [|d t] Hs Ht Hlen Heq; try discriminate;
    [reflexivity|].
  apply Forall_cons in Hs as [Hc Hs]. apply Forall_cons in Ht as [Hd Ht].
  cbn [hex_number] in Heq.
  pose proof (hex_value_range c Hc). pose proof (hex_value_range d Hd).
  assert (hex_value c = hex_value d /\ hex_number s = hex_number t) as [Hv Hn] by lia.
  f_equal; [apply hex_value_inj; assumption|].
  apply IH; auto.
Qed.

Section Collision.
Context {crypto : Cryptography}.
Hypothesis digest_length : forall data, length (sha256_hexdigest data) = 64%nat.
Variable salt : bytes.

(** There are more passwords of 43 characters than digests of 64
    hexadecimal digits: two of them have the same stored digest, and the
    one is verified against the credential of the other. *)
Lemma stored_digest_collision :
  exists p0 p key0 key,
    typed p0 /\ typed p /\ length p0 = 43%nat /\ length p = 43%nat /\ p <> p0 /\
    get_key_from_password p0 salt = Ok key0 /\
    verify_password p salt (key_hash key0) = Ok (true, key).
Proof.
  destruct (Z_pigeonhole (fun n => hex_number (stored_digest salt n)) (16 ^ 64))
    as (i & j & Hij & Hj & Heq).
  - lia.
  - intros n _. unfold stored_digest, key_hash.
    pose proof (hex_number_bound _ (sha256_hexdigest_hex
      (urlsafe_b64encode
         (pbkdf2_hmac_sha256 (default [] (str_encode (base64_text 43 n)))
            salt KEY_ITERATIONS 32)))) as Hb.
    rewrite digest_length in Hb. exact Hb.
  - assert (16 ^ 64 < 64 ^ Z.of_nat 43) as Hmore by (vm_compute; reflexivity).
    assert (forall n, exists b, str_encode (base64_text 43 n) = Some b) as Hbytes.
    { intros n. apply str_encode_encodable, typed_encodable, base64_text_typed. }
    destruct (Hbytes i) as [bi Hbi]. destruct (Hbytes j) as [bj Hbj].
    apply hex_number_inj in Heq;
      [|apply sha256_hexdigest_hex|apply sha256_hexdigest_hex
       |unfold stored_digest, key_hash; rewrite !digest_length; reflexivity].
    unfold stored_digest in Heq. rewrite Hbi, Hbj in Heq. cbn [default] in Heq.
    exists (base64_text 43 i), (base64_text 43 j). eexists _, _.
    splits; try apply base64_text_typed; try apply base64_text_length.
    + intros Hsame. apply base64_text_inj in Hsame; lia.
    + unfold get_key_from_password. rewrite Hbi. reflexivity.
    + unfold verify_password, get_key_from_password. rewrite Hbj.
      rewrite bool_decide_eq_true_2 by (symmetry; exact Heq). reflexivity.
Qed.

End Collision.


Lemma entry_filename_same_second_witness :
  (entry_filename noon 500 = entry_filename noon 501 <-> 500 = 501) /\
  ~ NoDup (entry_filename noon <$> replicate 901 100).
Proof.
  pose proof (entry_filename_same_second noon) as [Hdraw Hmany].
  split; [apply Hdraw|]. apply Hmany.
  - apply Forall_replicate. unfold randint_100_999. lia.
  - rewrite length_replicate. lia.
Defined.

(** *** The functions on concrete inputs *)

Example utf8_two_bytes : str_encode [0xE9] = Some [0xC3; 0xA9].
Proof. reflexivity. Qed.

Example utf8_four_bytes :
  str_encode [0x1F480] = Some [0xF0; 0x9F; 0x92; 0x80] /\
  bytes_decode [0xF0; 0x9F; 0x92; 0x80] = Some [0x1F480].
Proof. split; reflexivity. Qed.

Example utf8_overlong_rejected : bytes_decode [0xC0; 0x80] = None.
Proof. reflexivity. Qed.

Example utf8_surrogate_rejected :
  str_encode [0xD800] = None /\ bytes_decode [0xED; 0xA0; 0x80] = None.
Proof. split; reflexivity. Qed.

Example splitlines_mixed :
  splitlines (lit "ab" ++ [13; 10] ++ lit "cd" ++ [10; 10] ++ lit "e")
  = [lit "ab"; lit "cd"; []; lit "e"].
Proof. reflexivity. Qed.

Example strip_spaces : str_strip (lit "  My day ") = lit "My day".
Proof. reflexivity. Qed.

Example split_once :
  str_split1 (lit "--") (lit "a--b--c") = [lit "a"; lit "b--c"].
Proof. reflexivity. Qed.

Example entry_filename_noon :
  entry_filename noon 500 = lit "20250115_120000_500.rz".
Proof. reflexivity. Qed.

Example sorted_newest_first :
  get_sorted_notes Simple.sound_vault = [Simple.name2; Simple.name1].
Proof. vm_compute. reflexivity. Qed.

(** The transcript of the editor: typing [hi], Enter, [there] gives the
    lines [hi] and [there] with the cursor on line 1 at column 5; after five
    moves to the left, a backspace merges the lines into [hithere] and
    leaves the cursor at column 2. *)
Example editor_transcript :
  editor_loop 20
    (KeyPress <$> [104; 105; 10; 116; 104; 101; 114; 101]) (editor_start [[]])
  = Pending {| lines := [lit "hi"; lit "there"]; current_line_idx := 1;
               cursor_x := 5; top_line_idx := 0 |} /\
  editor_loop 20
    (KeyPress <$> [104; 105; 10; 116; 104; 101; 114; 101;
                   KEY_LEFT; KEY_LEFT; KEY_LEFT; KEY_LEFT; KEY_LEFT; KEY_BACKSPACE])
    (editor_start [[]])
  = Pending {| lines := [lit "hithere"]; current_line_idx := 0;
               cursor_x := 2; top_line_idx := 0 |} /\
  get_multiline_input 20 60 (KeyPress <$> [104; 105; 10; 116; 104; 101; 114; 101; 4])
  = Lines [lit "hi"; lit "there"].
Proof. splits; reflexivity. Qed.

(** A title typed with a backspace and confirmed with Enter. *)
Example prompt_transcript :
  get_string_input true 80 (KeyPress <$> [84; 120; KEY_BACKSPACE; 10]) = Entered (lit "T").
Proof. reflexivity. Qed.

(** One session on the small instance: the credential is stored, an entry is
    saved and read back, a wrong password is refused and the key derived
    from it does not open the entry. *)
Example session :
  exists w1 w2 f wrong_key,
    @save_password_hash Simple.crypto Simple.password1 Simple.salt1 (vault_of ∅)
    = Ok (w1, Some (Simple.salt1, Simple.stored_key)) /\
    @write_new_entry Simple.crypto w1 Simple.stored_key
      (Some (lit "T")) (Some [lit "hello"; lit "world"]) noon 500 1
    = (w2, Saved f) /\
    @select_and_read_entry Simple.crypto w2 Simple.stored_key f
    = Opened (lit "T") (lit "hello" ++ [10] ++ lit "world") /\
    @verify_password Simple.crypto (lit "wrongpw") Simple.salt1
      (@key_hash Simple.crypto Simple.stored_key)
    = Ok (false, wrong_key) /\
    @select_and_read_entry Simple.crypto w2 wrong_key f = DecryptionFailed.
Proof.
  eexists _, _, _, _. splits.
  - vm_compute. reflexivity.
  - vm_compute. reflexivity.
  - vm_compute. reflexivity.
  - vm_compute. reflexivity.
  - vm_compute. reflexivity.
Qed.

Lemma key_in_cons key k keys : key_in key (k :: keys) = (key =? k) || key_in key keys.
Proof.
  unfold key_in. destruct (Z.eqb_spec key k) as [->|Hne]; simpl.
  - apply bool_decide_eq_true_2. left.
  - apply bool_decide_ext. rewrite elem_of_cons. tauto.
Qed.

Lemma key_in_nil key : key_in key [] = false.
Proof. reflexivity. Qed.

(** Decides the tests of a key code against the constants of the loop. *)
Ltac keytest :=
  rewrite ?key_in_cons, ?key_in_nil;
  unfold KEY_ENTER, KEY_BACKSPACE, KEY_DC, KEY_UP, KEY_DOWN, KEY_LEFT, KEY_RIGHT;
  repeat match goal with
  | |- context [?a =? ?b] =>
      first [ rewrite (proj2 (Z.eqb_neq a b)) by lia
            | rewrite (proj2 (Z.eqb_eq a b)) by lia ]
  end;
  ztest; cbn [orb andb].

Lemma key_in_elim key keys (P : Prop) :
  key_in key keys = true -> Forall (fun k => key = k -> P) keys -> P.
Proof.
  unfold key_in. intros Hin%bool_decide_eq_true_1 Hall.
  rewrite Forall_forall in Hall. eauto.
Qed.

Section EditorText.
Local Open Scope nat_scope.
Variable edit_win_h : nat.

Lemma str_join_cons sep (a : pystr) rest :
  rest <> [] -> str_join sep (a :: rest) = a ++ sep ++ str_join sep rest.
Proof. destruct rest; [congruence|reflexivity]. Qed.

Lemma str_join_head (cl : pystr) l2 :
  str_join [10%Z] (cl :: l2) = cl ++ concat ((fun l => 10%Z :: l) <$> l2).
Proof.
  revert cl. induction l2 as [|b l2 IH]; intros cl.
  - simpl. rewrite app_nil_r. reflexivity.
  - rewrite (str_join_cons _ cl (b :: l2)) by congruence. rewrite IH. reflexivity.
Qed.

Lemma str_join_middle (l1 : list pystr) cl l2 :
  str_join [10%Z] (l1 ++ cl :: l2)
  = concat ((fun l => l ++ [10%Z]) <$> l1) ++ cl ++ concat ((fun l => 10%Z :: l) <$> l2).
Proof.
  induction l1 as [|a l1 IH].
  - apply str_join_head.
  - change ((a :: l1) ++ cl :: l2) with (a :: (l1 ++ cl :: l2)).
    rewrite (str_join_cons _ a (l1 ++ cl :: l2)) by (destruct l1; simpl; congruence).
    rewrite IH. simpl. rewrite <- !app_assoc. reflexivity.
Qed.

Lemma editor_shape st :
  buffer_inv st ->
  exists l1 cl l2,
    lines st = l1 ++ cl :: l2 /\ current_line_idx st = length l1 /\
    cursor_x st <= length cl.
Proof.
  intros (_ & Hlt & cl & Hl & Hx).
  exists (take (current_line_idx st) (lines st)), cl,
         (drop (S (current_line_idx st)) (lines st)).
  splits.
  - symmetry. apply take_drop_middle. assumption.
  - rewrite length_take. lia.
  - assumption.
Qed.

Lemma text_before_at l1 cl l2 x top :
  text_before {| lines := l1 ++ cl :: l2; current_line_idx := length l1;
                 cursor_x := x; top_line_idx := top |}
  = concat ((fun l => l ++ [10%Z]) <$> l1) ++ take x cl.
Proof.
  unfold text_before. simpl.
  rewrite take_app_length, list_lookup_middle by reflexivity. reflexivity.
Qed.

Lemma text_after_at l1 cl l2 x top :
  text_after {| lines := l1 ++ cl :: l2; current_line_idx := length l1;
                cursor_x := x; top_line_idx := top |}
  = drop x cl ++ concat ((fun l => 10%Z :: l) <$> l2).
Proof.
  unfold text_after. simpl.
  rewrite list_lookup_middle by reflexivity.
  rewrite (cons_middle cl l1 l2), app_assoc.
  rewrite (drop_app_length' (l1 ++ [cl])) by (rewrite length_app; simpl; lia).
  reflexivity.
Qed.

Lemma text_adjust_scroll st :
  text_before (adjust_scroll edit_win_h st) = text_before st /\
  text_after (adjust_scroll edit_win_h st) = text_after st.
Proof.
  unfold text_before, text_after.
  destruct (adjust_scroll_fields edit_win_h st) as (-> & -> & ->). auto.
Qed.

(** The buffer in the cursor's two halves is the text that is saved. *)
Lemma text_before_after st :
  buffer_inv st -> text_before st ++ text_after st = str_join [10%Z] (lines st).
Proof.
  intros Hinv. destruct (editor_shape st Hinv) as (l1 & cl & l2 & Hl & Hi & Hx).
  destruct st as [ls i x top]; simpl in *; subst.
  rewrite text_before_at, text_after_at, str_join_middle.
  rewrite <- !app_assoc. f_equal. rewrite app_assoc, take_drop. reflexivity.
Qed.

End EditorText.

Section EditorKeys.
Local Open Scope nat_scope.
Variable edit_win_h : nat.

Lemma insert_middle {A} (l1 : list A) c l2 v :
  <[length l1 := v]> (l1 ++ c :: l2) = l1 ++ v :: l2.
Proof.
  rewrite insert_app_r_alt by lia. rewrite Nat.sub_diag. reflexivity.
Qed.


(** A key that types a character puts it into the text at the cursor and
    leaves the cursor behind it. *)
Lemma typing_key_text key st :
  buffer_inv st -> typing_key key ->
  exists st',
    process_key edit_win_h key st = Continue st' /\
    buffer_inv st' /\
    text_before st' = text_before st ++ [typed_char key] /\
    text_after st' = text_after st.
Proof.
  intros Hinv Hkey.
  destruct (editor_shape st Hinv) as (l1 & cl & l2 & Hl & Hi & Hx).
  destruct st as [ls i x top]; simpl in *; subst ls i.
  unfold process_key, typed_char; simpl.
  rewrite list_lookup_middle by reflexivity.
  destruct (key_in key [KEY_ENTER; 10%Z; 13%Z]) eqn:Henter.
  - unfold newline, moved; simpl. eexists. split; [reflexivity|].
    assert (list_insert_at (length l1 + 1) (drop x cl)
              (<[length l1 := take x cl]> (l1 ++ cl :: l2))
            = (l1 ++ [take x cl]) ++ drop x cl :: l2) as ->.
    { rewrite insert_middle. unfold list_insert_at.
      rewrite (cons_middle (take x cl) l1 l2), app_assoc.
      rewrite take_app_length', drop_app_length'
        by (rewrite length_app; simpl; lia).
      reflexivity. }
    replace (length l1 + 1) with (length (l1 ++ [take x cl]))
      by (rewrite length_app; simpl; lia).
    split.
    { apply buffer_inv_adjust_scroll. unfold buffer_inv; simpl.
      splits.
      - destruct l1; discriminate.
      - rewrite !length_app. simpl. lia.
      - exists (drop x cl). rewrite list_lookup_middle by reflexivity.
        split; [reflexivity|lia]. }
    destruct (text_adjust_scroll edit_win_h
      {| lines := (l1 ++ [take x cl]) ++ drop x cl :: l2;
         current_line_idx := length (l1 ++ [take x cl]);
         cursor_x := 0; top_line_idx := top |}) as [-> ->].
    rewrite !text_before_at, !text_after_at.
    rewrite fmap_app, concat_app. simpl.
    rewrite take_0, drop_0, !app_nil_r, <- !app_assoc. auto.
  - destruct Hkey as [Hkey|Hkey]; [congruence|].
    replace (key_in key [KEY_BACKSPACE; 127%Z; 8%Z]) with false by (keytest; reflexivity).
    replace (key =? KEY_DC)%Z with false by (keytest; reflexivity).
    replace (key =? KEY_UP)%Z with false by (keytest; reflexivity).
    replace (key =? KEY_DOWN)%Z with false by (keytest; reflexivity).
    replace (key =? KEY_LEFT)%Z with false by (keytest; reflexivity).
    replace (key =? KEY_RIGHT)%Z with false by (keytest; reflexivity).
    replace (key_in key [4%Z; 7%Z]) with false by (keytest; reflexivity).
    replace ((32 <=? key)%Z && (key <=? 126)%Z) with true by (keytest; reflexivity).
    unfold insert_char, moved; simpl. eexists. split; [reflexivity|].
    rewrite insert_middle.
    split.
    { apply buffer_inv_adjust_scroll. unfold buffer_inv; simpl.
      splits.
      - destruct l1; discriminate.
      - rewrite !length_app. simpl. lia.
      - eexists. rewrite list_lookup_middle by reflexivity.
        split; [reflexivity|].
        rewrite length_app, length_take. simpl. rewrite length_drop. lia. }
    destruct (text_adjust_scroll edit_win_h
      {| lines := l1 ++ (take x cl ++ key :: drop x cl) :: l2;
         current_line_idx := length l1;
         cursor_x := x + 1; top_line_idx := top |}) as [-> ->].
    rewrite !text_before_at, !text_after_at.
    rewrite (cons_middle key (take x cl) (drop x cl)), app_assoc.
    rewrite take_app_length', drop_app_length'
      by (rewrite length_app, length_take; simpl; lia).
    rewrite <- !app_assoc. auto.
Qed.

End EditorKeys.

Section EditorSteps.
Local Open Scope nat_scope.
Variable edit_win_h : nat.

(** X: a backspace key removes from the text the one character in front of
    the cursor, a line feed when the cursor is at the start of a line, and
    nothing when the cursor is at the start of the text; what follows the
    cursor is as it was. *)
Theorem backspace_deletes_before_cursor key st :
  buffer_inv st ->
  key_in key [KEY_BACKSPACE; 127%Z; 8%Z] = true ->
  exists st',
    process_key edit_win_h key st = Continue st' /\
    text_before st' = take (length (text_before st) - 1) (text_before st) /\
    text_after st' = text_after st.
Proof.
  intros Hinv Hkey.
  destruct (editor_shape st Hinv) as (l1 & cl & l2 & Hl & Hi & Hx).
  destruct st as [ls i x top]; simpl in *; subst ls i.
  unfold process_key; simpl.
  rewrite list_lookup_middle by reflexivity.
  assert (key_in key [KEY_ENTER; 10%Z; 13%Z] = false) as ->.
  { apply (key_in_elim _ _ _ Hkey). repeat constructor; intros ->; reflexivity. }
  rewrite Hkey. unfold backspace; simpl.
  case_bool_decide as Hx0; [|case_bool_decide as Hi0].
  - unfold moved; simpl. eexists. split; [reflexivity|].
    rewrite insert_middle.
    destruct (text_adjust_scroll edit_win_h
      {| lines := l1 ++ (take (x - 1) cl ++ drop x cl) :: l2;
         current_line_idx := length l1;
         cursor_x := x - 1; top_line_idx := top |}) as [-> ->].
    rewrite !text_before_at, !text_after_at.
    rewrite take_app_length', drop_app_length' by (rewrite length_take; lia).
    split; [|reflexivity].
    rewrite length_app, length_take.
    rewrite take_app_ge by lia. f_equal.
    rewrite take_take. f_equal. lia.
  - destruct l1 as [|prev l0 _] using rev_ind; [simpl in Hi0; lia|].
    rewrite length_app in *. simpl in *.
    replace (length l0 + 1 - 1) with (length l0) by lia.
    rewrite <- app_assoc. simpl.
    rewrite list_lookup_middle by reflexivity.
    unfold moved; simpl. eexists. split; [reflexivity|].
    rewrite insert_middle.
    assert (delete (length l0 + 1) (l0 ++ (prev ++ cl) :: cl :: l2)
            = l0 ++ (prev ++ cl) :: l2) as ->.
    { rewrite (cons_middle (prev ++ cl) l0 (cl :: l2)), app_assoc.
      replace (length l0 + 1) with (length (l0 ++ [prev ++ cl]))
        by (rewrite length_app; reflexivity).
      rewrite delete_middle, <- app_assoc. reflexivity. }
    destruct (text_adjust_scroll edit_win_h
      {| lines := l0 ++ (prev ++ cl) :: l2;
         current_line_idx := length l0;
         cursor_x := length prev; top_line_idx := top |}) as [-> ->].
    rewrite text_before_at, text_after_at.
    rewrite take_app_length, drop_app_length.
    assert (x = 0) as -> by lia.
    replace (length l0 + 1) with (length (l0 ++ [prev]))
      by (rewrite length_app; reflexivity).
    rewrite (cons_middle prev l0 (cl :: l2)), app_assoc.
    rewrite text_before_at, text_after_at.
    rewrite take_0, drop_0, app_nil_r, fmap_app, concat_app. simpl.
    rewrite app_nil_r. split; [|reflexivity].
    rewrite app_assoc, length_app. simpl.
    rewrite take_app_length' by lia. reflexivity.
  - unfold moved; simpl. eexists. split; [reflexivity|].
    destruct (text_adjust_scroll edit_win_h
      {| lines := l1 ++ cl :: l2;
         current_line_idx := length l1;
         cursor_x := x; top_line_idx := top |}) as [-> ->].
    split; [|reflexivity].
    rewrite text_before_at.
    assert (x = 0) as -> by lia.
    destruct l1; [reflexivity|simpl in Hi0; lia].
Qed.

(** X: the Delete key removes the character under the cursor when there is
    one on the cursor's line; at the end of a line it changes nothing, also
    when a line follows (the lines are not joined). What precedes the
    cursor is as it was. *)
Theorem delete_forward_within_line st cl :
  buffer_inv st ->
  lines st !! current_line_idx st = Some cl ->
  exists st',
    process_key edit_win_h KEY_DC st = Continue st' /\
    text_before st' = text_before st /\
    text_after st' =
      (if bool_decide (cursor_x st < length cl) then drop 1 (text_after st)
       else text_after st) /\
    (cursor_x st = length cl -> lines st' = lines st).
Proof.
  intros Hinv Hcl.
  destruct (editor_shape st Hinv) as (l1 & cl' & l2 & Hl & Hi & Hx).
  destruct st as [ls i x top]; simpl in *; subst ls i.
  rewrite list_lookup_middle in Hcl by reflexivity. injection Hcl as ->.
  unfold process_key; simpl.
  rewrite list_lookup_middle by reflexivity.
  change (key_in KEY_DC [KEY_ENTER; 10%Z; 13%Z]) with false.
  change (key_in KEY_DC [KEY_BACKSPACE; 127%Z; 8%Z]) with false.
  cbn match. unfold delete_forward; simpl.
  case_bool_decide as Hlt.
  - unfold moved; simpl. eexists. split; [reflexivity|].
    rewrite insert_middle.
    destruct (adjust_scroll_fields edit_win_h
      {| lines := l1 ++ (take x cl ++ drop (x + 1) cl) :: l2;
         current_line_idx := length l1;
         cursor_x := x; top_line_idx := top |}) as (Hls & _ & _).
    destruct (text_adjust_scroll edit_win_h
      {| lines := l1 ++ (take x cl ++ drop (x + 1) cl) :: l2;
         current_line_idx := length l1;
         cursor_x := x; top_line_idx := top |}) as [-> ->].
    rewrite !text_before_at, !text_after_at.
    rewrite take_app_length', drop_app_length' by (rewrite length_take; lia).
    splits; [reflexivity| |lia].
    rewrite <- (drop_drop cl 1 x).
    destruct (drop x cl) eqn:E; [|reflexivity].
    apply (f_equal length) in E. rewrite length_drop in E. simpl in E. lia.
  - unfold moved; simpl. eexists. split; [reflexivity|].
    destruct (adjust_scroll_fields edit_win_h
      {| lines := l1 ++ cl :: l2;
         current_line_idx := length l1;
         cursor_x := x; top_line_idx := top |}) as (Hls & _ & _).
    destruct (text_adjust_scroll edit_win_h
      {| lines := l1 ++ cl :: l2;
         current_line_idx := length l1;
         cursor_x := x; top_line_idx := top |}) as [-> ->].
    splits; auto.
Qed.

End EditorSteps.

Section EditorMoves.
Local Open Scope nat_scope.
Variable edit_win_h : nat.

(** X: the Left and Right keys leave the lines as they are and move the
    cursor by one character of the joined text: Left towards its start,
    from column 0 onto the end of the line above, staying at the start of
    the text; Right towards its end, from the end of a line onto column 0
    of the line below, staying at the end of the text. *)
Theorem arrows_move_one_character st :
  buffer_inv st ->
  (exists st',
     process_key edit_win_h KEY_LEFT st = Continue st' /\
     lines st' = lines st /\
     text_before st' = take (length (text_before st) - 1) (text_before st)) /\
  (exists st',
     process_key edit_win_h KEY_RIGHT st = Continue st' /\
     lines st' = lines st /\
     text_before st' = text_before st ++ take 1 (text_after st)).
Proof.
  intros Hinv. split.
  - destruct (editor_shape st Hinv) as (l1 & cl & l2 & Hl & Hi & Hx).
    destruct st as [ls i x top]; simpl in *; subst ls i.
    unfold process_key; simpl.
    rewrite list_lookup_middle by reflexivity.
    change (key_in KEY_LEFT [KEY_ENTER; 10%Z; 13%Z]) with false.
    change (key_in KEY_LEFT [KEY_BACKSPACE; 127%Z; 8%Z]) with false.
    cbn match. unfold move_left; simpl.
    case_bool_decide as Hx0; [|case_bool_decide as Hi0].
    + unfold moved; simpl. eexists. split; [reflexivity|].
      destruct (adjust_scroll_fields edit_win_h
        {| lines := l1 ++ cl :: l2; current_line_idx := length l1;
           cursor_x := x - 1; top_line_idx := top |}) as (Hls & _ & _).
      destruct (text_adjust_scroll edit_win_h
        {| lines := l1 ++ cl :: l2; current_line_idx := length l1;
           cursor_x := x - 1; top_line_idx := top |}) as [-> _].
      split; [exact Hls|].
      rewrite !text_before_at, length_app, length_take.
      rewrite take_app_ge by lia. f_equal.
      rewrite take_take. f_equal. lia.
    + destruct l1 as [|prev l0 _] using rev_ind; [simpl in Hi0; lia|].
      rewrite length_app in *. simpl in *.
      replace (length l0 + 1 - 1) with (length l0) by lia.
      rewrite <- app_assoc. simpl.
      rewrite list_lookup_middle by reflexivity.
      unfold moved; simpl. eexists. split; [reflexivity|].
      destruct (adjust_scroll_fields edit_win_h
        {| lines := l0 ++ prev :: cl :: l2; current_line_idx := length l0;
           cursor_x := length prev; top_line_idx := top |}) as (Hls & _ & _).
      destruct (text_adjust_scroll edit_win_h
        {| lines := l0 ++ prev :: cl :: l2; current_line_idx := length l0;
           cursor_x := length prev; top_line_idx := top |}) as [-> _].
      split; [exact Hls|].
      rewrite text_before_at, firstn_all.
      assert (x = 0) as -> by lia.
      replace (length l0 + 1) with (length (l0 ++ [prev]))
        by (rewrite length_app; reflexivity).
      rewrite (cons_middle prev l0 (cl :: l2)), app_assoc.
      rewrite text_before_at.
      rewrite take_0, app_nil_r, fmap_app, concat_app. simpl.
      rewrite app_nil_r.
      rewrite app_assoc, length_app. simpl.
      rewrite take_app_length' by lia. reflexivity.
    + unfold moved; simpl. eexists. split; [reflexivity|].
      destruct (adjust_scroll_fields edit_win_h
        {| lines := l1 ++ cl :: l2; current_line_idx := length l1;
           cursor_x := x; top_line_idx := top |}) as (Hls & _ & _).
      destruct (text_adjust_scroll edit_win_h
        {| lines := l1 ++ cl :: l2; current_line_idx := length l1;
           cursor_x := x; top_line_idx := top |}) as [-> _].
      split; [exact Hls|].
      rewrite text_before_at.
      assert (x = 0) as -> by lia.
      destruct l1; [reflexivity|simpl in Hi0; lia].
  - destruct (editor_shape st Hinv) as (l1 & cl & l2 & Hl & Hi & Hx).
    destruct st as [ls i x top]; simpl in *; subst ls i.
    unfold process_key; simpl.
    rewrite list_lookup_middle by reflexivity.
    change (key_in KEY_RIGHT [KEY_ENTER; 10%Z; 13%Z]) with false.
    change (key_in KEY_RIGHT [KEY_BACKSPACE; 127%Z; 8%Z]) with false.
    cbn match. unfold move_right; simpl.
    rewrite text_before_at, text_after_at.
    case_bool_decide as Hlt; [|case_bool_decide as Hi0].
    + unfold moved; simpl. eexists. split; [reflexivity|].
      destruct (adjust_scroll_fields edit_win_h
        {| lines := l1 ++ cl :: l2; current_line_idx := length l1;
           cursor_x := x + 1; top_line_idx := top |}) as (Hls & _ & _).
      destruct (text_adjust_scroll edit_win_h
        {| lines := l1 ++ cl :: l2; current_line_idx := length l1;
           cursor_x := x + 1; top_line_idx := top |}) as [-> _].
      split; [exact Hls|].
      rewrite text_before_at, <- app_assoc. f_equal.
      rewrite take_app_le by (rewrite length_drop; lia).
      rewrite take_take_drop. reflexivity.
    + unfold moved; simpl. eexists. split; [reflexivity|].
      destruct (adjust_scroll_fields edit_win_h
        {| lines := l1 ++ cl :: l2; current_line_idx := length l1 + 1;
           cursor_x := 0; top_line_idx := top |}) as (Hls & _ & _).
      destruct (text_adjust_scroll edit_win_h
        {| lines := l1 ++ cl :: l2; current_line_idx := length l1 + 1;
           cursor_x := 0; top_line_idx := top |}) as [-> _].
      split; [exact Hls|].
      rewrite length_app in Hi0. simpl in Hi0.
      destruct l2 as [|next l2]; [simpl in Hi0; lia|].
      replace (length l1 + 1) with (length (l1 ++ [cl]))
        by (rewrite length_app; reflexivity).
      rewrite (cons_middle cl l1 (next :: l2)), app_assoc.
      rewrite text_before_at.
      rewrite take_0, app_nil_r, fmap_app, concat_app. simpl.
      rewrite app_nil_r, <- app_assoc.
      rewrite drop_ge, take_ge by lia. reflexivity.
    + unfold moved; simpl. eexists. split; [reflexivity|].
      destruct (adjust_scroll_fields edit_win_h
        {| lines := l1 ++ cl :: l2; current_line_idx := length l1;
           cursor_x := x; top_line_idx := top |}) as (Hls & _ & _).
      destruct (text_adjust_scroll edit_win_h
        {| lines := l1 ++ cl :: l2; current_line_idx := length l1;
           cursor_x := x; top_line_idx := top |}) as [-> _].
      split; [exact Hls|].
      rewrite text_before_at.
      rewrite length_app in Hi0. simpl in Hi0.
      destruct l2 as [|next l2]; [|simpl in Hi0; lia].
      simpl. rewrite drop_ge by lia. simpl. rewrite app_nil_r. reflexivity.
Qed.

End EditorMoves.

Section EditorLoop.
Local Open Scope nat_scope.
Variable edit_win_h : nat.

(** Every turn that goes on ends in "Adjust Scroll": the window is the old
    one, adjusted to the new cursor line. *)
Lemma process_key_Continue key st st' :
  process_key edit_win_h key st = Continue st' ->
  exists ls idx x,
    st' = adjust_scroll edit_win_h
            {| lines := ls; current_line_idx := idx; cursor_x := x;
               top_line_idx := top_line_idx st |}.
Proof.
  unfold process_key, newline, backspace, delete_forward, move_up, move_down,
    move_left, move_right, insert_char, moved.
  intros H.
  repeat match type of H with
  | match ?o with _ => _ end = _ => destruct o; try discriminate H
  | (if ?b then _ else _) = _ => destruct b; try discriminate H
  end; injection H as <-; eauto.
Qed.

(** The loop ends on Ctrl+D and Ctrl+G only, with the state it had. *)
Lemma process_key_Finish key st st' :
  process_key edit_win_h key st = Finish st' ->
  st' = st /\ key_in key [4%Z; 7%Z] = true.
Proof.
  unfold process_key, newline, backspace, delete_forward, move_up, move_down,
    move_left, move_right, insert_char, moved.
  intros H.
  repeat match type of H with
  | match ?o with _ => _ end = _ => destruct o eqn:?; try discriminate H
  | (if ?b then _ else _) = _ => destruct b eqn:?; try discriminate H
  end; injection H as <-; auto.
Qed.

(** X: after every key the cursor line is inside the window of
    [edit_win_h] lines, and the window stays where it was when the cursor
    line is still inside it. *)
Theorem cursor_line_in_window key st st' :
  0 < edit_win_h ->
  process_key edit_win_h key st = Continue st' ->
  top_line_idx st' <= current_line_idx st' < top_line_idx st' + edit_win_h /\
  (top_line_idx st <= current_line_idx st' < top_line_idx st + edit_win_h ->
   top_line_idx st' = top_line_idx st).
Proof.
  intros Hh Hstep.
  destruct (process_key_Continue key st st' Hstep) as (ls & idx & x & ->).
  unfold adjust_scroll; simpl.
  repeat case_bool_decide; simpl; lia.
Qed.

(** X: a key that is neither Enter, Backspace, Delete nor printable (the
    four arrows, Ctrl+D and Ctrl+G, Escape, any other code) leaves the
    lines of the buffer as they are. *)
Theorem other_keys_keep_lines key st :
  buffer_inv st ->
  key_in key [KEY_ENTER; 10%Z; 13%Z] = false ->
  key_in key [KEY_BACKSPACE; 127%Z; 8%Z] = false ->
  key <> KEY_DC -> ~ (32 <= key <= 126)%Z ->
  match process_key edit_win_h key st with
  | Continue st' | Finish st' => lines st' = lines st
  | Crash _ => False
  end.
Proof.
  intros (_ & Hlt & cl & Hcl & Hx) Henter Hback Hdc Hprint.
  unfold process_key. rewrite Hcl, Henter, Hback.
  rewrite (proj2 (Z.eqb_neq key KEY_DC)) by assumption.
  assert (forall idx x, match moved edit_win_h st (lines st) idx x with
                        | Continue st' | Finish st' => lines st' = lines st
                        | Crash _ => False
                        end) as Hmoved.
  { intros idx x. unfold moved.
    destruct (adjust_scroll_fields edit_win_h
      {| lines := lines st; current_line_idx := idx; cursor_x := x;
         top_line_idx := top_line_idx st |}) as (-> & _ & _). reflexivity. }
  destruct (key =? KEY_UP)%Z; [|destruct (key =? KEY_DOWN)%Z;
    [|destruct (key =? KEY_LEFT)%Z; [|destruct (key =? KEY_RIGHT)%Z;
      [|destruct (key_in key [4%Z; 7%Z])]]]].
  - unfold move_up. case_bool_decide; [|apply Hmoved].
    destruct (lookup_lt_is_Some_2 (lines st) (current_line_idx st - 1)) as [l ->];
      [lia|apply Hmoved].
  - unfold move_down. case_bool_decide; [|apply Hmoved].
    destruct (lookup_lt_is_Some_2 (lines st) (current_line_idx st + 1)) as [l ->];
      [lia|apply Hmoved].
  - unfold move_left. repeat case_bool_decide; try apply Hmoved.
    destruct (lookup_lt_is_Some_2 (lines st) (current_line_idx st - 1)) as [l ->];
      [lia|apply Hmoved].
  - unfold move_right. repeat case_bool_decide; apply Hmoved.
  - reflexivity.
  - destruct ((32 <=? key)%Z && (key <=? 126)%Z) eqn:E; [|apply Hmoved].
    apply andb_true_iff in E as [?%Z.leb_le ?%Z.leb_le]. lia.
Qed.

(** A turn of the loop goes on within the invariant, or ends the loop on
    Ctrl+D or Ctrl+G. *)
Lemma process_key_progress key st :
  buffer_inv st ->
  (exists st', process_key edit_win_h key st = Continue st' /\ buffer_inv st') \/
  (process_key edit_win_h key st = Finish st /\ key_in key [4%Z; 7%Z] = true).
Proof.
  intros Hinv.
  assert (keeps_inv (process_key edit_win_h key st)) as Hk.
  { destruct Hinv as (Hne & Hlt & line & Hl & Hx). unfold process_key. rewrite Hl.
    repeat match goal with |- keeps_inv (if ?b then _ else _) => destruct b end;
      eauto using newline_keeps_inv, backspace_keeps_inv, delete_forward_keeps_inv,
        move_up_keeps_inv, move_down_keeps_inv, move_left_keeps_inv,
        move_right_keeps_inv, insert_char_keeps_inv, moved_keeps_inv.
    unfold keeps_inv, buffer_inv. eauto. }
  destruct (process_key edit_win_h key st) as [st'|st'|e] eqn:E.
  - left. eauto.
  - right. apply process_key_Finish in E as [-> ?]. auto.
  - destruct Hk.
Qed.

Lemma editor_loop_app events1 events2 : forall st,
  editor_loop edit_win_h (events1 ++ events2) st
  = match editor_loop edit_win_h events1 st with
    | Pending st' => editor_loop edit_win_h events2 st'
    | r => r
    end.
Proof.
  induction events1 as [|[key|] events1 IH]; intros st; simpl; try reflexivity.
  destruct (process_key edit_win_h key st); auto.
Qed.

(** Whatever the keys, the loop does not fail on an index, stays within the
    invariant and returns at least one line. *)
Lemma editor_loop_inv events : forall st,
  buffer_inv st ->
  match editor_loop edit_win_h events st with
  | Lines ls => ls <> []
  | Cancelled => True
  | Crashed _ => False
  | Pending st' => buffer_inv st'
  end.
Proof.
  induction events as [|[key|] events IH]; intros st Hinv; simpl; auto.
  destruct (process_key_progress key st Hinv) as [(st' & -> & Hinv')|[-> _]].
  - apply IH. assumption.
  - apply Hinv.
Qed.

(** Typing keys puts their characters into the text at the cursor. *)
Lemma editor_loop_typing keys : forall st,
  buffer_inv st -> Forall typing_key keys ->
  exists st',
    editor_loop edit_win_h (KeyPress <$> keys) st = Pending st' /\
    buffer_inv st' /\
    text_before st' = text_before st ++ (typed_char <$> keys) /\
    text_after st' = text_after st.
Proof.
  induction keys as [|key keys IH]; intros st Hinv Hkeys.
  - exists st. rewrite app_nil_r. auto.
  - apply Forall_cons in Hkeys as [Hkey Hkeys].
    destruct (typing_key_text edit_win_h key st Hinv Hkey)
      as (st1 & Hstep & Hinv1 & Hb1 & Ha1).
    destruct (IH st1 Hinv1 Hkeys) as (st' & Hloop & Hinv' & Hb & Ha).
    exists st'. simpl. rewrite Hstep.
    rewrite Hb, Hb1, Ha, Ha1, <- app_assoc. auto.
Qed.

End EditorLoop.

Lemma buffer_inv_start initial_lines :
  buffer_inv (editor_start (initial_buffer initial_lines)).
Proof.
  unfold buffer_inv, editor_start; simpl.
  destruct initial_lines as [|l ls]; simpl.
  - splits; [discriminate|lia|]. exists []. auto.
  - splits; [discriminate|lia|]. exists l. split; [reflexivity|lia].
Qed.

(** X: whatever the keys and the initial lines, the editor does not fail on
    an index, and the list of lines it returns is never empty. *)
Theorem editor_never_fails edit_win_h edit_win_w initial_lines events :
  match get_multiline_input_with_content edit_win_h edit_win_w initial_lines events with
  | Lines ls => ls <> []
  | Crashed _ => False
  | _ => True
  end /\
  match get_multiline_input edit_win_h edit_win_w events with
  | Lines ls => ls <> []
  | Crashed _ => False
  | _ => True
  end.
Proof.
  unfold get_multiline_input_with_content, get_multiline_input.
  destruct ((edit_win_h <=? 0) || (edit_win_w <=? 0)); [auto|].
  pose proof (editor_loop_inv (Z.to_nat edit_win_h) events _
                (buffer_inv_start initial_lines)) as H1.
  pose proof (editor_loop_inv (Z.to_nat edit_win_h) events _
                (buffer_inv_start [])) as H2.
  simpl in H2. split.
  - destruct (editor_loop _ events (editor_start (initial_buffer initial_lines))); auto.
  - destruct (editor_loop _ events (editor_start [[]])); auto.
Qed.


Section EditorCharacters.
Local Open Scope nat_scope.
Variable edit_win_h : nat.

(** [holds] is a property of characters that the printable ones have. *)
Variable holds : Z -> Prop.
Hypothesis holds_printable : forall c, (32 <= c <= 126)%Z -> holds c.

Lemma holds_take n s : Forall holds s -> Forall holds (take n s).
Proof. apply Forall_take. Qed.

Lemma holds_drop n s : Forall holds s -> Forall holds (drop n s).
Proof. apply Forall_drop. Qed.

Lemma holds_app s t : Forall holds s -> Forall holds t -> Forall holds (s ++ t).
Proof. intros. apply Forall_app. auto. Qed.

(** A turn of the loop puts nothing but printable characters into the
    lines: the characters of every line are those that were there or
    printable ones. *)
Lemma process_key_holds key st :
  Forall (Forall holds) (lines st) ->
  match process_key edit_win_h key st with
  | Continue st' | Finish st' => Forall (Forall holds) (lines st')
  | Crash _ => True
  end.
Proof.
  intros Hall.
  assert (forall ls idx x, Forall (Forall holds) ls ->
            match moved edit_win_h st ls idx x with
            | Continue st' | Finish st' => Forall (Forall holds) (lines st')
            | Crash _ => True
            end) as Hmoved.
  { intros ls idx x Hls. unfold moved.
    destruct (adjust_scroll_fields edit_win_h
      {| lines := ls; current_line_idx := idx; cursor_x := x;
         top_line_idx := top_line_idx st |}) as (-> & _ & _). exact Hls. }
  unfold process_key.
  destruct (lines st !! current_line_idx st) as [cl|] eqn:Hcl; [|exact I].
  assert (Forall holds cl) as Hc by (eapply Forall_lookup_1; eassumption).
  destruct (key_in key [KEY_ENTER; 10%Z; 13%Z]).
  { unfold newline, list_insert_at. apply Hmoved.
    apply Forall_app. split; [apply Forall_take|apply Forall_cons; split;
      [|apply Forall_drop]]; try apply Forall_insert;
      auto using holds_take, holds_drop. }
  destruct (key_in key [KEY_BACKSPACE; 127%Z; 8%Z]).
  { unfold backspace. repeat case_bool_decide; try (apply Hmoved; assumption).
    - apply Hmoved, Forall_insert; auto using holds_take, holds_drop, holds_app.
    - destruct (lines st !! (current_line_idx st - 1)) as [prev|] eqn:Hp; [|exact I].
      assert (Forall holds prev) by (eapply Forall_lookup_1; eassumption).
      apply Hmoved, Forall_delete, Forall_insert; auto using holds_app. }
  destruct (key =? KEY_DC)%Z.
  { unfold delete_forward. case_bool_decide; [|apply Hmoved; assumption].
    apply Hmoved, Forall_insert; auto using holds_take, holds_drop, holds_app. }
  destruct (key =? KEY_UP)%Z.
  { unfold move_up. case_bool_decide; [|apply Hmoved; assumption].
    destruct (lines st !! (current_line_idx st - 1));
      [apply Hmoved; assumption|exact I]. }
  destruct (key =? KEY_DOWN)%Z.
  { unfold move_down. case_bool_decide; [|apply Hmoved; assumption].
    destruct (lines st !! (current_line_idx st + 1));
      [apply Hmoved; assumption|exact I]. }
  destruct (key =? KEY_LEFT)%Z.
  { unfold move_left. repeat case_bool_decide; try (apply Hmoved; assumption).
    destruct (lines st !! (current_line_idx st - 1));
      [apply Hmoved; assumption|exact I]. }
  destruct (key =? KEY_RIGHT)%Z.
  { unfold move_right. repeat case_bool_decide; apply Hmoved; assumption. }
  destruct (key_in key [4%Z; 7%Z]); [exact Hall|].
  destruct ((32 <=? key)%Z && (key <=? 126)%Z) eqn:E; [|apply Hmoved; assumption].
  apply andb_true_iff in E as [?%Z.leb_le ?%Z.leb_le].
  unfold insert_char. apply Hmoved, Forall_insert; [assumption|].
  apply holds_app; [auto using holds_take|].
  apply Forall_cons. split; [apply holds_printable; lia|apply holds_drop, Hc].
Qed.

Lemma editor_loop_holds events : forall st,
  Forall (Forall holds) (lines st) ->
  match editor_loop edit_win_h events st with
  | Lines ls => Forall (Forall holds) ls
  | Pending st' => Forall (Forall holds) (lines st')
  | _ => True
  end.
Proof.
  induction events as [|[key|] events IH]; intros st Hall; simpl; auto.
  pose proof (process_key_holds key st Hall) as Hstep.
  destruct (process_key edit_win_h key st); [apply IH| |]; auto.
Qed.

End EditorCharacters.

Lemma str_join_Forall (holds : Z -> Prop) (ls : list pystr) :
  holds 10 -> Forall (Forall holds) ls -> Forall holds (str_join [10] ls).
Proof.
  intros Hlf. induction 1 as [|l ls Hl Hls IH]; [constructor|].
  destruct ls as [|l' ls]; [exact Hl|].
  change (str_join [10] (l :: l' :: ls)) with (l ++ [10] ++ str_join [10] (l' :: ls)).
  rewrite !Forall_app. splits; auto.
Qed.

Lemma str_join_Forall_inv (holds : Z -> Prop) (ls : list pystr) :
  Forall holds (str_join [10] ls) -> Forall (Forall holds) ls.
Proof.
  induction ls as [|l ls IH]; [constructor|].
  destruct ls as [|l' ls]; [intros Hl; repeat constructor; exact Hl|].
  change (str_join [10] (l :: l' :: ls)) with (l ++ [10] ++ str_join [10] (l' :: ls)).
  rewrite !Forall_app. intros (Hl & _ & Hrest). constructor; auto.
Qed.

(** X: the editors add nothing but printable ASCII to the text. The lines
    that [get_multiline_input] returns hold printable characters only,
    whatever the keys, so their join is text that [encrypt_data] can
    encode. Every character of a line that
    [get_multiline_input_with_content] returns is printable or a
    character of its initial lines, whatever they hold; when the initial
    text can be encoded, so can the text returned. *)
Theorem editor_returns_printable edit_win_h edit_win_w initial_lines events :
  match get_multiline_input edit_win_h edit_win_w events with
  | Lines ls => Forall typed ls /\ encodable (str_join [10] ls)
  | _ => True
  end /\
  match get_multiline_input_with_content edit_win_h edit_win_w initial_lines events with
  | Lines ls =>
      Forall (Forall (fun c => 32 <= c <= 126 \/ c ∈ concat initial_lines)) ls /\
      (encodable (str_join [10] initial_lines) -> encodable (str_join [10] ls))
  | _ => True
  end.
Proof.
  assert (forall c, 32 <= c <= 126 -> is_scalar c = true) as Hscalar.
  { intros c Hc. unfold is_scalar, is_surrogate. ztest. reflexivity. }
  unfold get_multiline_input, get_multiline_input_with_content.
  destruct ((edit_win_h <=? 0) || (edit_win_w <=? 0)); [auto|].
  split.
  - pose proof (editor_loop_holds (Z.to_nat edit_win_h) (fun c => 32 <= c <= 126)
                  (fun c Hc => Hc) events (editor_start [[]])) as H.
    destruct (editor_loop _ events (editor_start [[]])); auto.
    assert (Forall typed ls) as Hls by (apply H; repeat constructor).
    split; [exact Hls|]. apply str_join_Forall; [reflexivity|].
    eapply Forall_impl; [exact Hls|]. intros l Hl.
    eapply Forall_impl; [exact Hl|]. exact Hscalar.
  - pose proof (editor_loop_holds (Z.to_nat edit_win_h)
                  (fun c => 32 <= c <= 126 \/ c ∈ concat initial_lines)
                  (fun c Hc => or_introl Hc) events
                  (editor_start (initial_buffer initial_lines))) as Hfrom.
    pose proof (editor_loop_holds (Z.to_nat edit_win_h)
                  (fun c => is_scalar c = true) Hscalar events
                  (editor_start (initial_buffer initial_lines))) as Hcode.
    destruct (editor_loop _ events (editor_start (initial_buffer initial_lines))); auto.
    split.
    + apply Hfrom. destruct initial_lines as [|l ls']; [repeat constructor|].
      apply Forall_forall. intros line Hline. apply Forall_forall. intros c Hc.
      right. apply list_elem_of_In, in_concat. exists line.
      split; apply list_elem_of_In; assumption.
    + intros Hinit%str_join_Forall_inv. apply str_join_Forall; [reflexivity|].
      apply Hcode. destruct initial_lines; [repeat constructor|exact Hinit].
Qed.

Lemma buffer_inv_two_lines : buffer_inv two_lines.
Proof.
  unfold buffer_inv, two_lines; simpl. splits; [discriminate|lia|].
  eexists. split; [reflexivity|simpl; lia].
Qed.

Lemma backspace_deletes_before_cursor_witness :
  exists st',
    process_key 20 KEY_BACKSPACE two_lines = Continue st' /\
    text_before st' = take (length (text_before two_lines) - 1) (text_before two_lines) /\
    text_after st' = text_after two_lines.
Proof.
  apply backspace_deletes_before_cursor; [apply buffer_inv_two_lines|reflexivity].
Defined.

Lemma delete_forward_within_line_witness :
  exists st',
    process_key 20 KEY_DC two_lines = Continue st' /\
    text_before st' = text_before two_lines /\
    text_after st' =
      (if bool_decide (cursor_x two_lines < length [116; 104; 101; 114; 101]%Z)%nat
       then drop 1 (text_after two_lines) else text_after two_lines) /\
    (cursor_x two_lines = length [116; 104; 101; 114; 101] ->
     lines st' = lines two_lines).
Proof.
  apply delete_forward_within_line; [apply buffer_inv_two_lines|reflexivity].
Defined.

Lemma arrows_move_one_character_witness :
  (exists st',
     process_key 20 KEY_LEFT two_lines = Continue st' /\
     lines st' = lines two_lines /\
     text_before st' = take (length (text_before two_lines) - 1) (text_before two_lines)) /\
  (exists st',
     process_key 20 KEY_RIGHT two_lines = Continue st' /\
     lines st' = lines two_lines /\
     text_before st' = text_before two_lines ++ take 1 (text_after two_lines)).
Proof. apply arrows_move_one_character, buffer_inv_two_lines. Defined.

Lemma other_keys_keep_lines_witness :
  match process_key 20 KEY_UP two_lines with
  | Continue st' | Finish st' => lines st' = lines two_lines
  | Crash _ => False
  end.
Proof.
  apply other_keys_keep_lines;
    [apply buffer_inv_two_lines|reflexivity|reflexivity|discriminate|
     unfold KEY_UP; lia].
Defined.

Lemma cursor_line_in_window_witness :
  let st' := {| lines := [[104; 105]; []; [116; 104; 101; 114; 101]];
                current_line_idx := 2; cursor_x := 0; top_line_idx := 1 |} in
  ((top_line_idx st' <= current_line_idx st' < top_line_idx st' + 2) /\
   (top_line_idx two_lines <= current_line_idx st' < top_line_idx two_lines + 2 ->
    top_line_idx st' = top_line_idx two_lines))%nat.
Proof.
  apply (cursor_line_in_window 2 10 two_lines); [lia|reflexivity].
Defined.


(** ** The one-line prompt *)

Lemma string_input_loop_bounded max_len events : forall text,
  (length text <= max_len)%nat ->
  match string_input_loop max_len events text with
  | Entered result | InputPending result => (length result <= max_len)%nat
  | InputCancelled => True
  end.
Proof.
  induction events as [|[key|] events IH]; intros text Hlen; simpl; auto.
  destruct (key_in key [KEY_ENTER; 10; 13]); [assumption|].
  destruct (key_in key [KEY_BACKSPACE; 127; 8]).
  { apply IH. case_bool_decide; [rewrite length_take|]; lia. }
  destruct (key =? 27); [exact I|].
  destruct ((32 <=? key) && (key <=? 126)); [|apply IH; assumption].
  apply IH. case_bool_decide; [rewrite length_app; simpl|]; lia.
Qed.

(** X: what [get_string_input] returns. Whatever the keys, a text it
    returns is printable ASCII of at most [max_len] characters; and
    printable keys followed by Enter return the typed characters, cut off
    after [max_len] of them: the keys typed into a full field are
    dropped. *)
Theorem get_string_input_returns max_len :
  (forall room events,
     match get_string_input room max_len events with
     | Entered text => typed text /\ (length text <= max_len)%nat
     | _ => True
     end) /\
  (forall keys enter,
     typed keys -> key_in enter [KEY_ENTER; 10; 13] = true ->
     get_string_input true max_len (KeyPress <$> keys ++ [enter])
     = Entered (take max_len keys)).
Proof.
  split.
  - intros room events.
    destruct (get_string_input room max_len events) as [text| |text] eqn:E; auto.
    split; [eapply get_string_input_typed; eassumption|].
    unfold get_string_input in E. destruct room.
    + pose proof (string_input_loop_bounded max_len events [] (Nat.le_0_l _)) as H.
      rewrite E in H. exact H.
    + injection E as <-. simpl. lia.
  - intros keys enter Hkeys Henter. unfold get_string_input.
    assert (forall text, (length text <= max_len)%nat ->
              string_input_loop max_len (KeyPress <$> keys ++ [enter]) text
              = Entered (take max_len (text ++ keys))) as Hloop.
    { induction Hkeys as [|key keys Hkey Hkeys IH]; intros text Hlen; simpl.
      - rewrite Henter, app_nil_r, take_ge by assumption. reflexivity.
      - replace (key_in key [KEY_ENTER; 10; 13]) with false by (keytest; reflexivity).
        replace (key_in key [KEY_BACKSPACE; 127; 8]) with false
          by (keytest; reflexivity).
        replace (key =? 27) with false by (keytest; reflexivity).
        replace ((32 <=? key) && (key <=? 126)) with true by (keytest; reflexivity).
        case_bool_decide as Hfull.
        + rewrite IH by (rewrite length_app; simpl; lia).
          rewrite <- app_assoc. reflexivity.
        + rewrite IH by assumption.
          rewrite !take_app_le by lia. reflexivity. }
    apply (Hloop []). simpl. lia.
Qed.

Lemma get_string_input_returns_witness :
  get_string_input true 3 (KeyPress <$> [97; 98; 99; 100] ++ [10])
  = Entered (take 3 [97; 98; 99; 100]).
Proof.
  apply (proj2 (get_string_input_returns 3)); [|reflexivity].
  repeat (apply List.Forall_cons; [lia|]). apply List.Forall_nil.
Defined.

(** ** Decrypted text, the credential file and the listing *)

Section VaultFacts.
Context {crypto : Cryptography}.

(** X: text that [decrypt_data] returned is text that [encrypt_data]
    accepts: under any valid key it is encrypted without an encoding error
    and decrypts to the same text again, as the re-encryption of
    [change_password] and the saving of [edit_entry] need it. *)
Theorem decrypted_text_reencrypts token key s key' r :
  decrypt_data token key = Ok (Some s) ->
  fernet_key_ok key' = true ->
  encodable s /\
  exists token',
    encrypt_data (Str s) key' r = Ok token' /\
    decrypt_data token' key' = Ok (Some s).
Proof.
  unfold decrypt_data. intros Hdec Hkey'.
  destruct (fernet_key_ok key); [|discriminate].
  destruct (fernet_decrypt key token) as [data|]; [|discriminate].
  injection Hdec as Hdec. apply str_encode_bytes_decode in Hdec as Henc.
  split; [apply str_encode_encodable; eauto|].
  exists (fernet_encrypt key' r data). unfold encrypt_data.
  rewrite Hkey', Henc, fernet_decrypt_encrypt, Hdec by assumption. auto.
Qed.

Lemma str_partition_colon_inv s a b :
  str_partition [58] s = Some (a, b) ->
  s = a ++ 58 :: b /\ Forall (fun c => c <> 58) a.
Proof.
  revert a b. induction s as [|c s IH]; intros a b; [discriminate|].
  destruct (Z.eqb_spec 58 c) as [<-|Hc].
  - rewrite (str_partition_here [58] (58 :: s)) by reflexivity.
    intros [= <- <-]. auto.
  - rewrite str_partition_later by (apply startswith_colon; congruence).
    destruct (str_partition [58] s) as [[a' b']|]; [|discriminate].
    intros [= <- <-]. destruct (IH a' b' eq_refl) as [-> Ha].
    split; [reflexivity|]. constructor; [congruence|assumption].
Qed.

Lemma str_partition_colon_None_inv s :
  str_partition [58] s = None -> Forall (fun c => c <> 58) s.
Proof.
  induction s as [|c s IH]; [constructor|].
  destruct (Z.eqb_spec 58 c) as [<-|Hc].
  - rewrite (str_partition_here [58] (58 :: s)) by reflexivity. discriminate.
  - rewrite str_partition_later by (apply startswith_colon; congruence).
    destruct (str_partition [58] s) as [[a' b']|]; [discriminate|].
    intros _. constructor; [congruence|auto].
Qed.

Lemma str_split_colon_inv s a b :
  str_split [58] s = [a; b] ->
  s = a ++ 58 :: b /\ Forall (fun c => c <> 58) a /\ Forall (fun c => c <> 58) b.
Proof.
  unfold str_split. destruct (length s) as [|n] eqn:Hn; [discriminate|].
  cbn [str_split_fuel].
  destruct (str_partition [58] s) as [[a' b']|] eqn:Hp; [|discriminate].
  apply str_partition_colon_inv in Hp as [-> Ha].
  destruct n as [|n]; cbn [str_split_fuel].
  - intros [= <- <-]. splits; auto.
    rewrite length_app in Hn. simpl in Hn.
    destruct b'; [constructor|simpl in Hn; lia].
  - destruct (str_partition [58] b') as [[a2 b2]|] eqn:Hp2.
    + destruct n; cbn [str_split_fuel]; [discriminate|].
      destruct (str_partition [58] b2) as [[? ?]|]; discriminate.
    + intros [= <- <-]. splits; auto. apply str_partition_colon_None_inv, Hp2.
Qed.

(** X: [load_password_salt_and_hash] returns a salt and a digest exactly
    when the password file exists and its first line, stripped, is one
    base64 text that decodes to the salt, one colon and the digest, with no
    further colon; a missing file, a line without a colon or with more
    than one, and a salt that is not base64 give [(None, None)]. *)
Theorem load_password_salt_and_hash_spec w salt stored :
  load_password_salt_and_hash w = Some (salt, stored) <->
  exists text salt_b64,
    password_file w = Some text /\
    str_strip (readline text) = salt_b64 ++ 58 :: stored /\
    Forall (fun c => c <> 58) salt_b64 /\ Forall (fun c => c <> 58) stored /\
    b64decode salt_b64 = Some salt.
Proof.
  unfold load_password_salt_and_hash. split.
  - destruct (password_file w) as [text|]; [|discriminate].
    change (lit ":") with [58].
    destruct (str_split [58] (str_strip (readline text)))
      as [|a [|b [|c parts]]] eqn:Hsplit; try discriminate.
    destruct (b64decode a) as [salt'|] eqn:Hb64; [|discriminate].
    intros [= <- <-].
    apply str_split_colon_inv in Hsplit as (Hline & Ha & Hb).
    exists text, a. auto.
  - intros (text & a & -> & Hline & Ha & Hb & Hb64).
    change (lit ":") with [58].
    rewrite Hline, str_split_colon, Hb64 by assumption. reflexivity.
Qed.

Lemma load_credential_line w salt key :
  Forall is_byte salt ->
  password_file w = Some (b64encode_str salt ++ lit ":" ++ key_hash key) ->
  load_password_salt_and_hash w = Some (salt, key_hash key).
Proof.
  intros Hsalt Hfile. unfold load_password_salt_and_hash. rewrite Hfile.
  pose proof (credential_line_plain salt key) as Hplain.
  rewrite readline_whole, str_strip_id.
  - change (lit ":" ++ key_hash key) with (58 :: key_hash key).
    rewrite str_split_colon.
    + rewrite b64decode_b64encode by assumption. reflexivity.
    + eapply Forall_impl; [apply b64encode_alphabet|].
      intros c Hc%is_b64_char_range. lia.
    + eapply Forall_impl; [apply sha256_hexdigest_hex|].
      intros c Hc%is_hex_digit_range. lia.
  - eapply Forall_impl; [exact Hplain|]. apply plain_not_space.
  - eapply Forall_impl; [exact Hplain|]. unfold plain. intros c Hc. simpl. lia.
Qed.


End VaultFacts.

(** *** The order of the listing *)

Lemma str_leb_total a b : str_leb a b = true \/ str_leb b a = true.
Proof.
  revert b. induction a as [|x a IH]; intros [|y b]; simpl; auto.
  destruct (Z.ltb_spec x y); [auto|].
  destruct (Z.ltb_spec y x); [auto|].
  assert (x = y) as -> by lia. rewrite Z.eqb_refl. simpl. apply IH.
Qed.

Lemma str_leb_trans a b c :
  str_leb a b = true -> str_leb b c = true -> str_leb a c = true.
Proof.
  revert b c. induction a as [|x a IH]; intros [|y b] [|z c]; simpl; auto;
    try discriminate.
  intros Hab Hbc. bools Hab; bools Hbc; subst.
  - rewrite (proj2 (Z.ltb_lt x z)) by lia. reflexivity.
  - rewrite (proj2 (Z.ltb_lt x z)) by lia. reflexivity.
  - rewrite (proj2 (Z.ltb_lt y z)) by lia. reflexivity.
  - rewrite Z.eqb_refl, (IH b c) by assumption. apply orb_true_r.
Qed.

Lemma str_leb_antisym a b :
  str_leb a b = true -> str_leb b a = true -> a = b.
Proof.
  revert b. induction a as [|x a IH]; intros [|y b]; simpl; auto;
    try discriminate.
  intros Hab Hba. bools Hab; bools Hba; subst; try lia.
  f_equal. auto.
Qed.

Lemma sorts_before_total : Total sorts_before.
Proof. intros a b. unfold sorts_before. destruct (str_leb_total a b); auto. Qed.

Lemma sorts_before_trans : Transitive sorts_before.
Proof. intros a b c Hab Hbc. unfold sorts_before in *. eapply str_leb_trans; eauto. Qed.

Lemma get_sorted_notes_sorted w : StronglySorted sorts_before (get_sorted_notes w).
Proof.
  apply (@StronglySorted_merge_sort _ sorts_before _
           sorts_before_trans sorts_before_total).
Qed.

Lemma StronglySorted_strict (l : list pystr) :
  StronglySorted sorts_before l -> NoDup l ->
  StronglySorted (fun a b => sorts_before a b /\ a <> b) l.
Proof.
  induction 1 as [|a l Hl IH Ha]; intros Hnd; constructor.
  - apply IH. apply NoDup_cons in Hnd. tauto.
  - apply NoDup_cons in Hnd as [Hnotin _].
    rewrite Forall_forall in *. intros b Hb. split; [auto|].
    intros ->. contradiction.
Qed.

(** X: [get_sorted_notes] lists exactly the file names of the notes
    directory that end in the entry extension, each once, in strictly
    descending order of their code points; it is the only such list. *)
Theorem get_sorted_notes_descending w l :
  l = get_sorted_notes w <->
  (forall f, f ∈ l <-> f ∈ dom (notes w) /\ endswith f ENTRY_EXTENSION = true) /\
  StronglySorted (fun a b => str_leb b a = true /\ a <> b) l.
Proof.
  split.
  - intros ->. split; [apply elem_of_get_sorted_notes|].
    apply (StronglySorted_strict _ (get_sorted_notes_sorted w)
             (NoDup_get_sorted_notes w)).
  - intros [Hmem Hsorted].
    assert (forall l1 l2 : list pystr,
              StronglySorted (fun a b => str_leb b a = true /\ a <> b) l1 ->
              StronglySorted (fun a b => str_leb b a = true /\ a <> b) l2 ->
              (forall f, f ∈ l1 <-> f ∈ l2) -> l1 = l2) as Huniq.
    { clear. induction l1 as [|a l1 IH]; intros l2 H1 H2 Hsame.
      - destruct l2 as [|b l2]; [reflexivity|].
        exfalso. apply (not_elem_of_nil b), Hsame. left.
      - destruct l2 as [|b l2].
        { exfalso. apply (not_elem_of_nil a), Hsame. left. }
        apply StronglySorted_inv in H1 as [H1 Ha].
        apply StronglySorted_inv in H2 as [H2 Hb].
        rewrite Forall_forall in Ha, Hb.
        assert (a = b) as <-.
        { assert (a ∈ b :: l2) as Hin1 by (apply Hsame; left).
          assert (b ∈ a :: l1) as Hin2 by (apply Hsame; left).
          apply elem_of_cons in Hin1 as [?|Hin1]; [assumption|].
          apply elem_of_cons in Hin2 as [?|Hin2]; [congruence|].
          apply Hb in Hin1 as [? _]. apply Ha in Hin2 as [? _].
          apply str_leb_antisym; assumption. }
        f_equal. apply IH; try assumption.
        intros f. split; intros Hf.
        + assert (f ∈ a :: l2) as Hin by (apply Hsame; right; assumption).
          apply elem_of_cons in Hin as [->|?]; [|assumption].
          apply Ha in Hf as [_ ?]. congruence.
        + assert (f ∈ a :: l1) as Hin by (apply Hsame; right; assumption).
          apply elem_of_cons in Hin as [->|?]; [|assumption].
          apply Hb in Hf as [_ ?]. congruence. }
    apply Huniq; [assumption| |].
    + apply (StronglySorted_strict _ (get_sorted_notes_sorted w)
               (NoDup_get_sorted_notes w)).
    + intros f. rewrite Hmem, elem_of_get_sorted_notes. reflexivity.
Qed.

(** *** File names in the order of time *)

Lemma str_lt_prefix p s t : str_lt s t -> str_lt (p ++ s) (p ++ t).
Proof.
  intros [Hle Hne]. split.
  - induction p as [|c p IH]; [exact Hle|]. simpl.
    rewrite Z.eqb_refl, IH. apply orb_true_r.
  - intros Heq. apply app_inv_head in Heq. contradiction.
Qed.

Lemma str_lt_pad2 a b s t :
  0 <= a < b -> b < 100 -> str_lt (zero_pad2 a ++ s) (zero_pad2 b ++ t).
Proof.
  intros Hab Hb. unfold zero_pad2, digit, str_lt. cbn [app str_leb].
  assert (a / 10 < b / 10 \/ a / 10 = b / 10 /\ a mod 10 < b mod 10) as Hcase
    by (Z.to_euclidean_division_equations; lia).
  assert ((a / 10) mod 10 = a / 10 /\ (b / 10) mod 10 = b / 10) as [-> ->]
    by (Z.to_euclidean_division_equations; lia).
  destruct Hcase as [Hlt|[Heq Hlt]].
  - split; [rewrite (proj2 (Z.ltb_lt _ _)) by lia; reflexivity|].
    intros [= ? _]. lia.
  - rewrite Heq, Z.ltb_irrefl, Z.eqb_refl. cbn [orb andb].
    split; [rewrite (proj2 (Z.ltb_lt _ _)) by lia; reflexivity|].
    intros [= ? _]. lia.
Qed.

Lemma zero_pad4_pad2 n :
  0 <= n -> zero_pad4 n = zero_pad2 (n / 100) ++ zero_pad2 (n mod 100).
Proof.
  intros Hn. unfold zero_pad4, zero_pad2, digit. cbn [app].
  assert ((n / 100 / 10) mod 10 = (n / 1000) mod 10) as ->
    by (Z.to_euclidean_division_equations; lia).
  assert ((n mod 100 / 10) mod 10 = (n / 10) mod 10) as ->
    by (Z.to_euclidean_division_equations; lia).
  assert ((n mod 100) mod 10 = n mod 10) as ->
    by (Z.to_euclidean_division_equations; lia).
  reflexivity.
Qed.

Lemma str_lt_pad4 a b s t :
  0 <= a < b -> b < 10000 -> str_lt (zero_pad4 a ++ s) (zero_pad4 b ++ t).
Proof.
  intros Hab Hb. rewrite !zero_pad4_pad2, <- !app_assoc by lia.
  assert (a / 100 < b / 100 \/ a / 100 = b / 100 /\ a mod 100 < b mod 100)
    as [Hlt|[-> Hlt]] by (Z.to_euclidean_division_equations; lia).
  - apply str_lt_pad2; Z.to_euclidean_division_equations; lia.
  - apply str_lt_prefix, str_lt_pad2; Z.to_euclidean_division_equations; lia.
Qed.

(** X: the file names of entries written at different seconds sort in the
    order of time, whatever the random suffixes: the name of the later
    entry is the greater one, so [get_sorted_notes] lists it first. *)
Theorem entry_filename_chronological d1 d2 r1 r2 w :
  valid_datetime d1 -> valid_datetime d2 -> clock d1 < clock d2 ->
  str_lt (entry_filename d1 r1) (entry_filename d2 r2) /\
  (entry_filename d1 r1 ∈ dom (notes w) ->
   entry_filename d2 r2 ∈ dom (notes w) ->
   exists l1 l2 l3,
     get_sorted_notes w
     = l1 ++ entry_filename d2 r2 :: l2 ++ entry_filename d1 r1 :: l3).
Proof.
  intros Hv1 Hv2 Hclock.
  assert (str_lt (entry_filename d1 r1) (entry_filename d2 r2)) as Hlt.
  { destruct d1 as [y1 m1 dd1 h1 mi1 s1], d2 as [y2 m2 dd2 h2 mi2 s2].
    unfold valid_datetime, clock in *. simpl in Hv1, Hv2, Hclock.
    unfold entry_filename, timestamp. cbn [year month day hour minute second].
    rewrite <- !app_assoc.
    destruct Hv1 as (? & ? & ? & ? & ? & ?), Hv2 as (? & ? & ? & ? & ? & ?).
    destruct (Z.lt_trichotomy y1 y2) as [?|[->|?]]; [apply str_lt_pad4; lia| |lia].
    rewrite zero_pad4_pad2, <- !app_assoc by lia. do 2 apply str_lt_prefix.
    destruct (Z.lt_trichotomy m1 m2) as [?|[->|?]]; [apply str_lt_pad2; lia| |lia].
    apply str_lt_prefix.
    destruct (Z.lt_trichotomy dd1 dd2) as [?|[->|?]]; [apply str_lt_pad2; lia| |lia].
    do 2 apply str_lt_prefix.
    destruct (Z.lt_trichotomy h1 h2) as [?|[->|?]]; [apply str_lt_pad2; lia| |lia].
    apply str_lt_prefix.
    destruct (Z.lt_trichotomy mi1 mi2) as [?|[->|?]]; [apply str_lt_pad2; lia| |lia].
    apply str_lt_prefix. apply str_lt_pad2; lia. }
  split; [exact Hlt|]. intros Hin1 Hin2.
  assert (forall d r, endswith (entry_filename d r) ENTRY_EXTENSION = true) as Hext.
  { intros d r. apply endswith_spec. unfold entry_filename.
    exists (timestamp d ++ lit "_" ++ int_str r). rewrite <- !app_assoc. reflexivity. }
  assert (entry_filename d1 r1 ∈ get_sorted_notes w) as H1
    by (apply elem_of_get_sorted_notes; auto).
  assert (entry_filename d2 r2 ∈ get_sorted_notes w) as H2
    by (apply elem_of_get_sorted_notes; auto).
  pose proof (get_sorted_notes_sorted w) as Hsorted.
  destruct Hlt as [Hle Hne].
  apply list_elem_of_split in H2 as (l1 & rest & Hsplit).
  rewrite Hsplit in H1, Hsorted.
  apply elem_of_app in H1 as [H1|H1].
  - exfalso. apply Hne. apply str_leb_antisym; [assumption|].
    apply (StronglySorted_app_1_elem_of sorts_before l1
             (entry_filename d2 r2 :: rest)); [assumption..|left].
  - apply elem_of_cons in H1 as [H1|H1]; [congruence|].
    apply list_elem_of_split in H1 as (l2 & l3 & ->).
    exists l1, l2, l3. exact Hsplit.
Qed.

(** *** What [write_new_entry] touches *)

Lemma str_lstrip_spaces s : Forall (fun c => is_space c = true) s -> str_lstrip s = [].
Proof. induction 1 as [|c s Hc _ IH]; [reflexivity|]. simpl. rewrite Hc. exact IH. Qed.

Lemma str_strip_spaces s : Forall (fun c => is_space c = true) s -> str_strip s = [].
Proof.
  intros Hs. unfold str_strip, str_rstrip.
  rewrite (str_lstrip_spaces (rev s)) by (apply Forall_rev; assumption).
  reflexivity.
Qed.

Lemma str_join_spaces (ls : list pystr) :
  Forall (Forall (fun c => is_space c = true)) ls ->
  Forall (fun c => is_space c = true) (str_join [10] ls).
Proof.
  induction 1 as [|l ls Hl Hls IH]; [constructor|].
  destruct ls as [|l' ls]; [exact Hl|].
  change (str_join [10] (l :: l' :: ls)) with (l ++ [10] ++ str_join [10] (l' :: ls)).
  rewrite !Forall_app. splits; auto.
Qed.

Section WriteFacts.
Context {crypto : Cryptography}.


(** X: an entry whose lines hold white space only is not saved: the
    outcome is "no content" and nothing is written, whatever the title. *)
Theorem write_new_entry_blank w key title content_lines now r e :
  Forall (Forall (fun c => is_space c = true)) content_lines ->
  write_new_entry w key (Some title) (Some content_lines) now r e = (w, NoContent).
Proof.
  intros Hblank. unfold write_new_entry.
  rewrite str_strip_spaces by (apply str_join_spaces; assumption).
  reflexivity.
Qed.

End WriteFacts.

Lemma decrypted_text_reencrypts_witness :
  encodable Simple.payload1 /\
  exists token',
    @encrypt_data Simple.crypto (Str Simple.payload1) Simple.key2 5 = Ok token' /\
    @decrypt_data Simple.crypto token' Simple.key2 = Ok (Some Simple.payload1).
Proof.
  apply (decrypted_text_reencrypts (crypto := Simple.crypto)
           (Simple.encrypt Simple.key1 1 Simple.payload1) Simple.key1).
  - vm_compute. reflexivity.
  - vm_compute. reflexivity.
Defined.


Lemma entry_filename_chronological_witness :
  str_lt (entry_filename noon 999) (entry_filename noon_plus_1 100) /\
  (entry_filename noon 999 ∈ dom (notes Simple.sound_vault) ->
   entry_filename noon_plus_1 100 ∈ dom (notes Simple.sound_vault) ->
   exists l1 l2 l3,
     get_sorted_notes Simple.sound_vault
     = l1 ++ entry_filename noon_plus_1 100 :: l2 ++ entry_filename noon 999 :: l3).
Proof.
  apply entry_filename_chronological.
  - unfold valid_datetime. simpl. lia.
  - unfold valid_datetime. simpl. lia.
  - unfold clock. simpl. lia.
Defined.

Lemma write_new_entry_blank_witness :
  @write_new_entry Simple.crypto (vault_of ∅) Simple.key1
    (Some [84]) (Some [[32; 32]; []; [9]]) noon 500 1
  = (vault_of ∅, NoContent).
Proof.
  apply (write_new_entry_blank (crypto := Simple.crypto)).
  repeat (apply List.Forall_cons; [repeat constructor|]). apply List.Forall_nil.
Defined.

(** *** The viewer *)

Lemma scroll_bounds content_height len key display_offset :
  0 < content_height ->
  0 <= display_offset <= Z.max 0 (len - content_height) ->
  0 <= scroll content_height len key display_offset
    <= Z.max 0 (len - content_height).
Proof.
  intros Hh Hoff. unfold scroll.
  repeat match goal with
  | |- context [if ?b then _ else _] =>
      match b with
      | (_ =? _) => destruct b
      | (?x <? ?y) => destruct (Z.ltb_spec x y)
      end
  end; lia.
Qed.

Lemma display_loop_bounded max_y max_x lines events : forall display_offset,
  0 <= display_offset <= Z.max 0 (Z.of_nat (length lines) - (max_y - 14)) ->
  match display_loop max_y max_x lines events display_offset with
  | ViewPending d => 0 <= d <= Z.max 0 (Z.of_nat (length lines) - (max_y - 14))
  | _ => True
  end.
Proof.
  induction events as [|[key|] events IH]; intros display_offset Hoff;
    cbn [display_loop]; unfold HEADER_HEIGHT.
  - destruct (Z.leb_spec (max_y - (8 + 2 + 2) - 2) 0); [exact I|].
    destruct (draw_content _ _ _); [exact I|assumption].
  - destruct (Z.leb_spec (max_y - (8 + 2 + 2) - 2) 0) as [|Hh]; [exact I|].
    destruct (draw_content _ _ _); [exact I|].
    destruct ((key =? KEY_UP) || (key =? KEY_DOWN)
              || (key =? KEY_PPAGE) || (key =? KEY_NPAGE)).
    + apply IH.
      replace (max_y - (8 + 2 + 2) - 2) with (max_y - 14) by lia.
      apply scroll_bounds; [lia|assumption].
    + destruct (key_in key [27; 113; 81]); [exact I|]. apply IH. assumption.
  - destruct (Z.leb_spec (max_y - (8 + 2 + 2) - 2) 0); [exact I|].
    destruct (draw_content _ _ _); exact I.
Qed.

(** X: the viewer never scrolls past the text: whatever the keys,
    [display_offset] stays between 0 and [len(lines) - content_height]
    (0 when the text is shorter than the window), so the window always
    shows a line of the text when there is one; and no single key moves
    the window by more than a page. *)
Theorem display_offset_bounded max_y max_x content events :
  match display_note_content max_y max_x content events with
  | ViewPending display_offset =>
      0 <= display_offset
        <= Z.max 0 (Z.of_nat (length (splitlines content)) - (max_y - 14))
  | _ => True
  end /\
  (forall len key display_offset,
     14 < max_y -> 0 <= display_offset ->
     Z.abs (scroll (max_y - 14) len key display_offset - display_offset)
     <= max_y - 14).
Proof.
  split.
  - apply display_loop_bounded. lia.
  - intros len key display_offset Hy Hoff. unfold scroll.
    repeat match goal with
    | |- context [if ?b then _ else _] =>
        match b with
        | (_ =? _) => destruct b
        | (?x <? ?y) => destruct (Z.ltb_spec x y)
        end
    end; lia.
Qed.

Lemma draw_content_wide max_x len display_offset :
  4 < max_x -> draw_content max_x len display_offset = None.
Proof. intros Hx. unfold draw_content. ztest. destruct (_ <? _); reflexivity. Qed.

(** On a screen that shows the text, the viewer ends in one way only: with
    the [NameError] of the statements after its loop. *)
Lemma display_loop_ends max_y max_x lines events : forall display_offset,
  14 < max_y -> 4 < max_x ->
  match display_loop max_y max_x lines events display_offset with
  | ViewReturned _ => False
  | ViewRaised e _ => e = NameError
  | _ => True
  end.
Proof.
  intros display_offset Hy Hx. revert display_offset.
  induction events as [|[key|] events IH]; intros display_offset;
    cbn [display_loop]; unfold HEADER_HEIGHT;
    replace (max_y - (8 + 2 + 2) - 2 <=? 0) with false by (ztest; reflexivity);
    rewrite draw_content_wide by assumption; auto.
  destruct ((key =? KEY_UP) || (key =? KEY_DOWN)
            || (key =? KEY_PPAGE) || (key =? KEY_NPAGE)); [apply IH|].
  destruct (key_in key [27; 113; 81]); [reflexivity|apply IH].
Qed.

Lemma display_loop_quit max_y max_x lines keys quit events : forall display_offset,
  14 < max_y -> 4 < max_x ->
  Forall (fun key => key_in key [27; 113; 81] = false) keys ->
  key_in quit [27; 113; 81] = true ->
  display_loop max_y max_x lines ((KeyPress <$> keys) ++ KeyPress quit :: events)
    display_offset
  = ViewRaised NameError events.
Proof.
  intros display_offset Hy Hx Hkeys Hquit. revert display_offset.
  induction Hkeys as [|key keys Hkey Hkeys IH]; intros display_offset;
    cbn [fmap list_fmap app display_loop]; unfold HEADER_HEIGHT;
    replace (max_y - (8 + 2 + 2) - 2 <=? 0) with false by (ztest; reflexivity);
    rewrite draw_content_wide by assumption.
  - rewrite Hquit.
    assert ((quit =? KEY_UP) || (quit =? KEY_DOWN)
            || (quit =? KEY_PPAGE) || (quit =? KEY_NPAGE) = false) as ->; [|reflexivity].
    apply (key_in_elim _ _ _ Hquit). repeat constructor; intros ->; reflexivity.
  - rewrite Hkey.
    destruct ((key =? KEY_UP) || (key =? KEY_DOWN)
              || (key =? KEY_PPAGE) || (key =? KEY_NPAGE)); apply IH.
Qed.

(** *** The list of notes *)

Lemma list_up_inv list_height b :
  browser_inv list_height b -> browser_inv list_height (list_up b).
Proof.
  unfold browser_inv, list_up.
  destruct (Z.ltb_spec 0 (active_option b)); [|auto]. simpl.
  destruct (Z.ltb_spec (active_option b - 1) (list_offset b)); lia.
Qed.

Lemma list_down_inv list_height b :
  0 < list_height ->
  browser_inv list_height b -> browser_inv list_height (list_down list_height b).
Proof.
  unfold browser_inv, list_down. intros Hh Hb.
  destruct (Z.ltb_spec (active_option b) (Z.of_nat (length (listed b)) - 1)); [|auto].
  simpl.
  destruct (Z.leb_spec (list_offset b + list_height) (active_option b + 1)); lia.
Qed.

Lemma list_refresh_inv list_height notes b :
  0 < list_height -> notes <> [] ->
  browser_inv list_height b -> browser_inv list_height (list_refresh list_height notes b).
Proof.
  unfold browser_inv, list_refresh. intros Hh Hne Hb. simpl.
  assert (0 < Z.of_nat (length notes)) by (destruct notes; [congruence|simpl; lia]).
  lia.
Qed.

Lemma py_index_in_range {A} (l : list A) i :
  0 <= i < Z.of_nat (length l) -> exists x, py_index l i = Some x /\ x ∈ l.
Proof.
  intros Hi. unfold py_index. rewrite (proj2 (Z.leb_le 0 i)) by lia.
  destruct (lookup_lt_is_Some_2 l (Z.to_nat i)) as [x Hx]; [lia|].
  exists x. split; [assumption|]. eapply list_elem_of_lookup_2. eassumption.
Qed.

Section BrowserFacts.
Context {crypto : Cryptography}.
Variables (w : world) (encryption_key : bytes) (edit_mode : bool).
Variables max_y max_x : Z.

Lemma browse_loop_inv events : forall b,
  13 < max_y -> browser_inv (max_y - 13) b ->
  match browse_loop w encryption_key edit_mode max_y max_x events b with
  | BrowsePending b' => browser_inv (max_y - 13) b'
  | BrowseRaised e => e = ListCursesError /\ max_x <= 3
  | _ => True
  end.
Proof.
  intros b Hy. revert b.
  induction events as [|[key|] events IH]; intros b Hb;
    cbn [browse_loop]; unfold HEADER_HEIGHT;
    replace (max_y - (8 + 2) - 3) with (max_y - 13) by lia;
    (destruct ((Z.of_nat (length (listed b)) <? list_offset b + (max_y - 13))
               && (max_x <=? 3)) eqn:Hdraw;
     [apply andb_true_iff in Hdraw as [_ ?%Z.leb_le]; auto|]); auto.
  destruct (key =? KEY_UP); [apply IH, list_up_inv, Hb|].
  destruct (key =? KEY_DOWN); [apply IH, list_down_inv; [lia|exact Hb]|].
  destruct (key_in key [KEY_ENTER; 10; 13]).
  - destruct (py_index_in_range (listed b) (active_option b))
      as (selected_note & -> & _); [unfold browser_inv in Hb; lia|].
    destruct (select_and_read_entry w encryption_key selected_note); auto.
    + destruct (get_sorted_notes w) as [|n notes] eqn:Hnotes; [exact I|].
      apply IH, list_refresh_inv; [lia|discriminate|exact Hb].
    + destruct edit_mode; [exact I|].
      destruct (display_note_content max_y max_x content events); exact I.
  - destruct (key_in key [27; 113; 81]); [exact I|]. apply IH, Hb.
Qed.

(** X: in the list of notes the selection never leaves the list and never
    leaves the window: after any keys, also after the list was taken again
    because a file had vanished, [0 <= list_offset <= active_option <
    len(notes)] and [active_option < list_offset + list_height]; so
    [notes[active_option]] never raises [IndexError]. *)
Theorem selection_stays_visible notes events :
  match select_and_read_entry_from w encryption_key edit_mode max_y max_x notes events with
  | BrowsePending b => browser_inv (max_y - 13) b
  | BrowseRaised e => e = ListCursesError /\ max_x <= 3
  | _ => True
  end.
Proof.
  unfold select_and_read_entry_from.
  destruct notes as [|n notes]; [exact I|]. unfold HEADER_HEIGHT.
  replace (max_y - (8 + 2) - 3) with (max_y - 13) by lia.
  destruct (Z.leb_spec (max_y - 13) 0); [exact I|].
  apply browse_loop_inv; [lia|].
  unfold browser_inv. simpl. lia.
Qed.

Lemma browse_loop_returns events : forall b,
  13 < max_y -> browser_inv (max_y - 13) b ->
  match browse_loop w encryption_key edit_mode max_y max_x events b with
  | Returned (ReturnEntry selected_note title content) _ =>
      edit_mode = true /\
      (selected_note ∈ listed b \/ selected_note ∈ get_sorted_notes w) /\
      select_and_read_entry w encryption_key selected_note = Opened title content
  | Returned ReturnTrue _ => edit_mode = false
  | Returned ReturnNone _ => edit_mode = true
  | Returned ReturnFalse _ => edit_mode = false \/ get_sorted_notes w = []
  | _ => True
  end.
Proof.
  intros b Hy. revert b.
  induction events as [|[key|] events IH]; intros b Hb;
    cbn [browse_loop]; unfold HEADER_HEIGHT;
    replace (max_y - (8 + 2) - 3) with (max_y - 13) by lia;
    (destruct ((Z.of_nat (length (listed b)) <? list_offset b + (max_y - 13))
               && (max_x <=? 3)); [exact I|]); auto.
  assert (forall b', browser_inv (max_y - 13) b' ->
            listed b' = listed b \/ listed b' = get_sorted_notes w ->
            match browse_loop w encryption_key edit_mode max_y max_x events b' with
            | Returned (ReturnEntry selected_note title content) _ =>
                edit_mode = true /\
                (selected_note ∈ listed b \/ selected_note ∈ get_sorted_notes w) /\
                select_and_read_entry w encryption_key selected_note
                = Opened title content
            | Returned ReturnTrue _ => edit_mode = false
            | Returned ReturnNone _ => edit_mode = true
            | Returned ReturnFalse _ => edit_mode = false \/ get_sorted_notes w = []
            | _ => True
            end) as Hnext.
  { intros b' Hb' Hlist. specialize (IH b' Hb').
    destruct (browse_loop _ _ _ _ _ events b') as [[| | |n t c] rest| | | |]; auto.
    destruct IH as (? & Hin & ?). splits; auto.
    destruct Hlist as [Hlist|Hlist]; rewrite Hlist in Hin; tauto. }
  destruct (key =? KEY_UP).
  { apply Hnext; [apply list_up_inv, Hb|].
    left. unfold list_up. destruct (_ <? _); reflexivity. }
  destruct (key =? KEY_DOWN).
  { apply Hnext; [apply list_down_inv; [lia|exact Hb]|].
    left. unfold list_down. destruct (_ <? _); reflexivity. }
  destruct (key_in key [KEY_ENTER; 10; 13]).
  - destruct (py_index_in_range (listed b) (active_option b))
      as (selected_note & -> & Hin); [unfold browser_inv in Hb; lia|].
    destruct (select_and_read_entry w encryption_key selected_note) eqn:Hread.
    + destruct edit_mode; simpl; auto.
    + destruct (get_sorted_notes w) as [|n notes] eqn:Hnotes; [auto|].
      apply Hnext; [apply list_refresh_inv; [lia|discriminate|exact Hb]|].
      right. reflexivity.
    + destruct edit_mode; simpl; auto.
    + destruct edit_mode; [auto|].
      destruct (display_note_content max_y max_x content events); auto.
  - destruct (key_in key [27; 113; 81]); [destruct edit_mode; simpl; auto|].
    apply Hnext; auto.
Qed.

(** X: what [select_and_read_entry] returns. The edit mode returns a
    triple only for a note of the list that was read, decrypted and parsed
    into that title and content; it returns [None] when cancelled or on an
    error, and [False], which [edit_entry] does not expect, only when a
    chosen file had vanished and no note is left. The read mode returns
    [True] or [False], never [None] or a triple. *)
Theorem select_and_read_entry_returns notes events :
  match select_and_read_entry_from w encryption_key edit_mode max_y max_x notes events with
  | Returned (ReturnEntry selected_note title content) _ =>
      edit_mode = true /\
      (selected_note ∈ notes \/ selected_note ∈ get_sorted_notes w) /\
      select_and_read_entry w encryption_key selected_note = Opened title content
  | Returned ReturnTrue _ => edit_mode = false
  | Returned ReturnNone _ => edit_mode = true
  | Returned ReturnFalse _ => edit_mode = false \/ get_sorted_notes w = []
  | _ => True
  end.
Proof.
  unfold select_and_read_entry_from.
  destruct notes as [|n notes]; [destruct edit_mode; simpl; auto|].
  unfold HEADER_HEIGHT.
  replace (max_y - (8 + 2) - 3) with (max_y - 13) by lia.
  destruct (Z.leb_spec (max_y - 13) 0); [destruct edit_mode; simpl; auto|].
  apply (browse_loop_returns events
           {| listed := n :: notes; active_option := 0; list_offset := 0 |}); [lia|].
  unfold browser_inv. simpl. lia.
Qed.

Lemma browse_loop_never_true events : forall b rest,
  14 < max_y -> 4 < max_x ->
  browse_loop w encryption_key false max_y max_x events b <> Returned ReturnTrue rest.
Proof.
  intros b rest Hy Hx. revert b.
  induction events as [|[key|] events IH]; intros b; cbn [browse_loop];
    (destruct ((Z.of_nat (length (listed b)) <? _) && (max_x <=? 3));
     [discriminate|]); try discriminate.
  destruct (key =? KEY_UP); [apply IH|].
  destruct (key =? KEY_DOWN); [apply IH|].
  destruct (key_in key [KEY_ENTER; 10; 13]).
  - destruct (py_index (listed b) (active_option b)) as [selected_note|];
      [|discriminate].
    destruct (select_and_read_entry w encryption_key selected_note)
      as [| | |title content]; try discriminate.
    + destruct (get_sorted_notes w); [discriminate|apply IH].
    + unfold display_note_content.
      pose proof (display_loop_ends max_y max_x (splitlines content) events 0 Hy Hx)
        as Hends.
      destruct (display_loop max_y max_x (splitlines content) events 0);
        [destruct Hends|discriminate..].
  - destruct (key_in key [27; 113; 81]); [discriminate|apply IH].
Qed.


End BrowserFacts.

(** *** [edit_entry] *)

Section EditFacts.
Context {crypto : Cryptography}.
Variables (encryption_key : bytes) (max_y max_x : Z).

Lemma select_and_read_entry_Opened w name title content :
  select_and_read_entry w encryption_key name = Opened title content ->
  name ∈ dom (notes w).
Proof.
  unfold select_and_read_entry, read_note.
  case_bool_decide; [discriminate|].
  destruct (notes w !! name) eqn:Hfile; [|discriminate].
  intros _. apply elem_of_dom. eauto.
Qed.

(** What a successful edit has gone through and what it has written. *)
Lemma edit_selected_Updated w n old_title old_content title_drawn menu_drawn
    events e w' n' :
  edit_selected encryption_key max_y max_x w n old_title old_content
    title_drawn menu_drawn events e = (w', EditReturned (Updated n')) ->
  n' = n /\
  exists t events1 c events2 ls token,
    prompt_input max_y max_x 13 2 NEW_TITLE_PROMPT 80 events = (Entered t, events1) /\
    choose_edit_mode events1 0 = Chosen c events2 /\
    get_multiline_input_with_content (max_y - 18) (max_x - 4)
      (edit_initial_lines (c =? 1) old_content) events2 = Lines ls /\
    str_strip (str_join [10] ls) <> [] /\
    encrypt_data
      (Str (full_entry_data (match t with [] => old_title | _ => t end)
              (str_join [10] ls))) encryption_key e = Ok token /\
    notes w' = <[n := token]> (notes w) /\
    password_file w' = password_file w /\
    read_denied w' = read_denied w.
Proof.
  unfold edit_selected, HEADER_HEIGHT.
  replace (max_y - (8 + 2 + 5 + 2) - 1) with (max_y - 18) by lia.
  replace (max_x - 2 - 2) with (max_x - 4) by lia.
  change (8 + 2 + 3) with 13.
  destruct (negb title_drawn || (max_y <=? 8 + 2 + 2) || (max_x <=? 2));
    [discriminate|].
  destruct (prompt_input max_y max_x 13 2 NEW_TITLE_PROMPT 80 events)
    as [[t| |t] events1] eqn:Hprompt; try discriminate.
  destruct (negb menu_drawn || (max_y <=? 8 + 2 + 5 + 1)); [discriminate|].
  destruct (choose_edit_mode events1 0) as [c events2| | |] eqn:Hchoice;
    try discriminate.
  destruct (get_multiline_input_with_content (max_y - 18) (max_x - 4)
              (edit_initial_lines (c =? 1) old_content) events2)
    as [ls| | |] eqn:Hlines; try discriminate.
  destruct (str_strip (str_join [10] ls)) eqn:Hstrip; [discriminate|].
  destruct (encrypt_data _ encryption_key e) as [[|b token]|] eqn:Henc;
    try discriminate.
  destruct (write_note w n (b :: token)) as [w1 [u|err]] eqn:Hw; [|discriminate].
  apply write_note_Ok in Hw as (-> & _). intros [= <- <-]. split; [reflexivity|].
  exists t, events1, c, events2, ls, (b :: token).
  splits; try reflexivity; try assumption.
  rewrite Hstrip. discriminate.
Qed.

(** What an edit leaves when it does not report the update: the vault as
    it was, unless the write failed after the file was opened. *)
Lemma edit_selected_frame w n old_title old_content title_drawn menu_drawn
    events e :
  let r := edit_selected encryption_key max_y max_x w n old_title old_content
             title_drawn menu_drawn events e in
  match r.2 with
  | EditReturned (Updated _) => True
  | EditReturned EditWriteError =>
      r.1 = w \/
      exists k token,
        short_write w !! n = Some k /\ (n ∉ write_denied w) /\
        r.1 = store w n (take k token)
  | _ => r.1 = w
  end.
Proof.
  cbv zeta. unfold edit_selected.
  destruct (negb title_drawn || _ || _); [reflexivity|].
  destruct (prompt_input _ _ _ _ _ _ events) as [[t| |t] events1]; try reflexivity.
  destruct (negb menu_drawn || _); [reflexivity|].
  destruct (choose_edit_mode events1 0) as [c events2| | |]; try reflexivity.
  destruct (get_multiline_input_with_content _ _ _ events2) as [ls| | |];
    try reflexivity.
  destruct (str_strip _); [reflexivity|].
  destruct (encrypt_data _ encryption_key e) as [[|b token]|]; try reflexivity.
  destruct (write_note w n (b :: token)) as [w1 [u|err]] eqn:Hw; cbn [fst snd];
    [exact I|].
  apply write_note_Raise in Hw as [[-> _]|(k & Hsw & Hwd & ->)]; [auto|].
  right. eauto.
Qed.



(** X: after [edit_entry] has reported the update, opening the note shows
    the new title, or the old one when the title prompt was left empty,
    and as content exactly the lines that the editor returned, provided
    the title keeps clear of the content separator. *)
Theorem edit_then_read w n old_title old_content title_drawn menu_drawn events e w' :
  edit_selected encryption_key max_y max_x w n old_title old_content
    title_drawn menu_drawn events e = (w', EditReturned (Updated n)) ->
  n ∉ read_denied w ->
  exists t events1 c events2 ls,
    prompt_input max_y max_x 13 2 NEW_TITLE_PROMPT 80 events = (Entered t, events1) /\
    choose_edit_mode events1 0 = Chosen c events2 /\
    get_multiline_input_with_content (max_y - 18) (max_x - 4)
      (edit_initial_lines (c =? 1) old_content) events2 = Lines ls /\
    let title := match t with [] => old_title | _ => t end in
    (title_clean title ->
     select_and_read_entry w' encryption_key n
     = Opened (str_strip title) (str_join [10] ls)).
Proof.
  intros Hedit Hread.
  apply edit_selected_Updated in Hedit
    as (_ & t & ev1 & c & ev2 & ls & token & Ht & Hc & Hls & _ & Henc & Hn & _ & Hrd).
  exists t, ev1, c, ev2, ls. splits; auto.
  intros title Hclean. subst title.
  unfold select_and_read_entry, read_note.
  rewrite Hrd, bool_decide_eq_false_2 by assumption.
  rewrite Hn, lookup_insert_eq.
  rewrite (encrypt_data_decrypt _ _ _ _ Henc).
  destruct (parse_entry_title n (match t with [] => old_title | _ => t end)
              (str_join [10] ls)) as [Hparse _].
  rewrite (Hparse Hclean). reflexivity.
Qed.

End EditFacts.

Section EditErrors.
Context {crypto : Cryptography}.

(** X: when the file chosen in the list has vanished and no note is left,
    the edit mode of [select_and_read_entry] returns [False], not [None];
    [edit_entry] tests for [None] only, goes on to unpack the value and
    raises [TypeError] outside its [try]. *)
Theorem edit_entry_unpacks_False encryption_key max_y max_x w n notes0
    title_drawn menu_drawn enter events e :
  13 < max_y -> 3 < max_x ->
  key_in enter [KEY_ENTER; 10; 13] = true ->
  notes w !! n = None -> n ∉ read_denied w -> get_sorted_notes w = [] ->
  select_and_read_entry_from w encryption_key true max_y max_x (n :: notes0)
    (KeyPress enter :: events) = Returned ReturnFalse events /\
  edit_entry encryption_key max_y max_x w (n :: notes0) title_drawn menu_drawn
    (KeyPress enter :: events) e = (w, EditRaised UnpackTypeError).
Proof.
  intros Hy Hx Henter Hgone Hread Hempty.
  assert (select_and_read_entry_from w encryption_key true max_y max_x (n :: notes0)
            (KeyPress enter :: events) = Returned ReturnFalse events) as Hsel.
  { unfold select_and_read_entry_from, HEADER_HEIGHT.
    replace (max_y - (8 + 2) - 3 <=? 0) with false by (ztest; reflexivity).
    cbn [browse_loop listed list_offset active_option]. unfold HEADER_HEIGHT.
    replace (max_x <=? 3) with false by (ztest; reflexivity).
    rewrite andb_false_r, Henter.
    assert ((enter =? KEY_UP) = false /\ (enter =? KEY_DOWN) = false) as [-> ->].
    { apply (key_in_elim _ _ _ Henter).
      repeat (apply List.Forall_cons; [intros ->; auto|]). apply List.Forall_nil. }
    change (py_index (n :: notes0) 0) with (Some n).
    unfold select_and_read_entry, read_note.
    rewrite bool_decide_eq_false_2, Hgone, Hempty by assumption. reflexivity. }
  split; [exact Hsel|]. unfold edit_entry. rewrite Hsel. reflexivity.
Qed.

End EditErrors.


Lemma edit_entry_unpacks_False_witness :
  @select_and_read_entry_from Simple.crypto (vault_of ∅) Simple.key1 true 24 80
    [Simple.name1] (KeyPress 10 :: []) = Returned ReturnFalse [] /\
  @edit_entry Simple.crypto Simple.key1 24 80 (vault_of ∅) [Simple.name1] true true
    (KeyPress 10 :: []) 0 = (vault_of ∅, EditRaised UnpackTypeError).
Proof.
  apply (edit_entry_unpacks_False (crypto := Simple.crypto));
    [lia|lia|reflexivity|reflexivity| |reflexivity].
  intros Hin. apply elem_of_empty in Hin. exact Hin.
Defined.

Lemma edit_then_read_witness :
  exists t events1 c events2 ls,
    prompt_input 24 80 13 2 NEW_TITLE_PROMPT 80 edit_keys = (Entered t, events1) /\
    choose_edit_mode events1 0 = Chosen c events2 /\
    get_multiline_input_with_content (24 - 18) (80 - 4)
      (edit_initial_lines (c =? 1) (lit "hello" ++ [10] ++ lit "world")) events2
    = Lines ls /\
    let title := match t with [] => lit "T" | _ => t end in
    (title_clean title ->
     @select_and_read_entry Simple.crypto edited_vault Simple.key1 Simple.name1
     = Opened (str_strip title) (str_join [10] ls)).
Proof.
  apply (edit_then_read (crypto := Simple.crypto) Simple.key1 24 80
           Simple.sound_vault Simple.name1 (lit "T")
           (lit "hello" ++ [10] ++ lit "world") true true edit_keys 9 edited_vault).
  - vm_compute. reflexivity.
  - intros Hin. apply elem_of_empty in Hin. exact Hin.
Defined.

(** *** Prompts in a sequence *)

Lemma string_input_run_loop max_len events : forall text,
  (string_input_run max_len events text).1 = string_input_loop max_len events text.
Proof.
  induction events as [|[key|] events IH]; intros text; simpl; auto.
  repeat match goal with |- context [if ?b then _ else _] => destruct b end; auto.
Qed.

Lemma string_input_run_rest max_len events : forall text result rest,
  string_input_run max_len events text = (Entered result, rest) ->
  (length rest < length events)%nat.
Proof.
  induction events as [|[key|] events IH]; intros text result rest; simpl;
    try discriminate.
  destruct (key_in key [KEY_ENTER; 10; 13]); [intros [= _ <-]; lia|].
  destruct (key_in key [KEY_BACKSPACE; 127; 8]); [intros H%IH; lia|].
  destruct (key =? 27); [discriminate|].
  destruct ((32 <=? key) && (key <=? 126)); intros H%IH; lia.
Qed.

Lemma prompt_input_get_string_input max_y max_x y x prompt max_len events :
  (prompt_input max_y max_x y x prompt max_len events).1
  = get_string_input (has_room max_y max_x y x prompt) max_len events.
Proof.
  unfold prompt_input, get_string_input.
  destruct (has_room max_y max_x y x prompt); [|reflexivity].
  apply string_input_run_loop.
Qed.

(** A prompt reads from the front of the events. *)
Lemma string_input_run_suffix max_len events : forall text,
  (string_input_run max_len events text).2 `suffix_of` events.
Proof.
  induction events as [|[key|] events IH]; intros text; cbn [string_input_run].
  - reflexivity.
  - repeat match goal with |- context [if ?b then _ else _] => destruct b end;
      cbn [snd]; try apply suffix_cons_r; auto.
  - apply suffix_cons_r. reflexivity.
Qed.

Lemma prompt_input_suffix max_y max_x y x prompt max_len events :
  (prompt_input max_y max_x y x prompt max_len events).2 `suffix_of` events.
Proof.
  unfold prompt_input. destruct (has_room max_y max_x y x prompt); [|reflexivity].
  apply string_input_run_suffix.
Qed.

Lemma entered_at_suffix max_y max_x y prompt events events' text :
  events' `suffix_of` events ->
  entered_at max_y max_x y prompt events' text ->
  entered_at max_y max_x y prompt events text.
Proof.
  intros Hsuffix (before & rest & Hbefore & Hprompt).
  exists before, rest. split; [etrans; eassumption|assumption].
Qed.

Lemma entered_twice_suffix max_y max_x y1 y2 prompt1 prompt2 events events' text rest :
  events' `suffix_of` events ->
  entered_twice max_y max_x y1 y2 prompt1 prompt2 events' text rest ->
  entered_twice max_y max_x y1 y2 prompt1 prompt2 events text rest.
Proof.
  intros Hsuffix (before & between & Hbefore & Hp1 & Hp2).
  exists before, between. split; [etrans; eassumption|auto].
Qed.

(** What a prompt returns is printable and no longer than its field. *)
Lemma prompt_input_Entered max_y max_x y x prompt max_len events text rest :
  prompt_input max_y max_x y x prompt max_len events = (Entered text, rest) ->
  typed text /\ (length text <= max_len)%nat.
Proof.
  intros Hp.
  pose proof (prompt_input_get_string_input max_y max_x y x prompt max_len events) as Hg.
  rewrite Hp in Hg. simpl in Hg. symmetry in Hg.
  split; [eapply get_string_input_typed; eassumption|].
  unfold get_string_input in Hg. destruct (has_room _ _ _ _ _).
  - pose proof (string_input_loop_bounded max_len events [] (Nat.le_0_l _)) as H.
    rewrite Hg in H. exact H.
  - injection Hg as <-. simpl. lia.
Qed.

Lemma string_input_run_typing max_len keys enter rest : forall text,
  typed keys -> key_in enter [KEY_ENTER; 10; 13] = true ->
  (length text <= max_len)%nat ->
  string_input_run max_len ((KeyPress <$> keys) ++ KeyPress enter :: rest) text
  = (Entered (take max_len (text ++ keys)), rest).
Proof.
  intros text Hkeys Henter. revert text.
  induction Hkeys as [|key keys Hkey Hkeys IH]; intros text Hlen; simpl.
  - rewrite Henter, app_nil_r, take_ge by assumption. reflexivity.
  - replace (key_in key [KEY_ENTER; 10; 13]) with false by (keytest; reflexivity).
    replace (key_in key [KEY_BACKSPACE; 127; 8]) with false by (keytest; reflexivity).
    replace (key =? 27) with false by (keytest; reflexivity).
    replace ((32 <=? key) && (key <=? 126)) with true by (keytest; reflexivity).
    case_bool_decide as Hfull.
    + rewrite IH by (rewrite length_app; simpl; lia).
      rewrite <- app_assoc. reflexivity.
    + rewrite IH by assumption.
      rewrite !take_app_le by lia. reflexivity.
Qed.

(** *** The password dialogs *)

Section DialogFacts.
Context {crypto : Cryptography}.
Variables max_y max_x : Z.

(** The loop returns a password only after the two prompts, one after the
    other, have returned the same text of at least 8 characters. *)
Lemma new_password_loop_Some y1 y2 prompt1 prompt2 short_y mismatch_y fuel :
  forall events new_password rest,
  new_password_loop max_y max_x y1 y2 prompt1 prompt2 short_y mismatch_y fuel events
  = Finished (Some (new_password, rest)) ->
  typed new_password /\ (8 <= length new_password <= 50)%nat /\
  entered_twice max_y max_x y1 y2 prompt1 prompt2 events new_password rest.
Proof.
  induction fuel as [|fuel IH]; intros events new_password rest; [discriminate|].
  cbn [new_password_loop].
  pose proof (prompt_input_suffix max_y max_x y1 2 prompt1 50 events) as Hs1.
  destruct (prompt_input max_y max_x y1 2 prompt1 50 events)
    as [[pass1| |?] events1] eqn:Hp1; try discriminate.
  cbn [snd] in Hs1.
  pose proof (prompt_input_Entered _ _ _ _ _ _ _ _ _ Hp1) as [Htyped Hlen].
  case_bool_decide as Hshort.
  { destruct (max_y <=? short_y); [discriminate|].
    intros (Ht & Hl & Htwice)%IH. split; [exact Ht|]. split; [exact Hl|].
    eapply entered_twice_suffix; eassumption. }
  pose proof (prompt_input_suffix max_y max_x y2 2 prompt2 50 events1) as Hs2.
  destruct (prompt_input max_y max_x y2 2 prompt2 50 events1)
    as [[pass2| |?] events2] eqn:Hp2; try discriminate.
  cbn [snd] in Hs2.
  case_bool_decide as Hsame.
  - intros [= <- <-]. subst pass2. split; [assumption|]. split; [lia|].
    exists events, events1. split; [reflexivity|]. split; assumption.
  - destruct (max_y <=? mismatch_y); [discriminate|].
    intros (Ht & Hl & Htwice)%IH. split; [exact Ht|]. split; [exact Hl|].
    eapply entered_twice_suffix; [|eassumption]. etrans; eassumption.
Qed.

(** The old password is accepted only when a text that one of the three
    prompts returned is verified against the stored credential and derives
    the key of the session. *)
Lemma verify_old_password_Some w old_key attempts : forall events rest,
  verify_old_password max_y max_x w old_key attempts events = Finished (Some rest) ->
  rest `suffix_of` events /\
  exists salt stored attempt old_password,
    load_password_salt_and_hash w = Some (salt, stored) /\
    attempt ∈ attempts /\
    entered_at max_y max_x (HEADER_HEIGHT + 2 + 3 + attempt)
      (old_password_prompt attempt) events old_password /\
    verify_password old_password salt stored = Ok (true, old_key).
Proof.
  induction attempts as [|attempt attempts IH]; intros events rest; [discriminate|].
  cbn [verify_old_password].
  pose proof (prompt_input_suffix max_y max_x (HEADER_HEIGHT + 2 + 3 + attempt) 2
                (old_password_prompt attempt) 50 events) as Hs.
  destruct (prompt_input _ _ _ _ _ _ events) as [[old_password| |?] events1] eqn:Hp;
    try discriminate.
  cbn [snd] in Hs.
  destruct (load_password_salt_and_hash w) as [[[|b salt] stored]|] eqn:Hload;
    try discriminate.
  destruct (verify_password old_password (b :: salt) stored)
    as [[[] derived_key]|] eqn:Hverify; try discriminate.
  - case_bool_decide as Hkey; [|discriminate]. subst derived_key.
    intros [= <-]. split; [assumption|].
    exists (b :: salt), stored, attempt, old_password. splits; auto.
    + left.
    + exists events, events1. split; [reflexivity|assumption].
  - destruct (attempt =? 2); [discriminate|].
    intros (Hrest & salt' & stored' & attempt' & old' & Hl & Hin & Hat & Hv)%IH.
    split; [etrans; eassumption|].
    exists salt', stored', attempt', old'. splits; auto.
    + right. assumption.
    + eapply entered_at_suffix; eassumption.
Qed.

Lemma change_password_unchanged new_password new_salt old_key rs w w' rep :
  change_password new_password new_salt old_key rs w = Ok (w', rep) ->
  changed rep = false -> session_key rep = old_key /\ notes w' = notes w.
Proof.
  unfold change_password, save_password_hash, write_password_file.
  destruct (get_key_from_password new_password new_salt) as [key|]; [|discriminate].
  destruct (password_file_denied w).
  { intros [= <- <-]. auto. }
  unfold chmod_password_file. cbn [chmod_denied].
  destruct (chmod_denied w).
  { intros [= <- <-]. auto. }
  destruct new_salt as [|s new_salt]; [intros [= <- <-]; auto|].
  destruct key as [|k key]; [intros [= <- <-]; auto|].
  destruct (reencrypt_notes _ _ _ _ _ _). intros [= <- <-]. discriminate.
Qed.

(** X: [change_password] changes the password only after a text entered
    at one of its three prompts for the old password was verified against
    the stored credential and derives the key of the session, and only to
    a new password of 8 to 50 printable characters that was entered twice
    in a row, at the prompt for the new password and at the prompt that
    confirms it; in every other case in which it returns, it returns
    [(False, old_key)] and the notes are as they were. *)
Theorem change_password_ui_guard banner_drawn fuel events old_key new_salt rs w w' rep :
  change_password_ui max_y max_x banner_drawn fuel events old_key new_salt rs w
  = Finished (w', rep) ->
  (changed rep = false /\ session_key rep = old_key /\ notes w' = notes w) \/
  (changed rep = true /\
   exists salt stored attempt old_password new_password rest,
     load_password_salt_and_hash w = Some (salt, stored) /\
     attempt ∈ [0; 1; 2] /\
     entered_at max_y max_x (HEADER_HEIGHT + 2 + 3 + attempt)
       (old_password_prompt attempt) events old_password /\
     verify_password old_password salt stored = Ok (true, old_key) /\
     typed new_password /\ (8 <= length new_password <= 50)%nat /\
     entered_twice max_y max_x (HEADER_HEIGHT + 2 + 3) (HEADER_HEIGHT + 2 + 4)
       NEW_PASSWORD_PROMPT CONFIRM_PASSWORD_PROMPT events new_password rest /\
     change_password new_password new_salt old_key rs w = Ok (w', rep)).
Proof.
  unfold change_password_ui.
  destruct (negb banner_drawn || _ || _); [discriminate|].
  destruct (verify_old_password max_y max_x w old_key [0; 1; 2] events)
    as [[events1|]| | |] eqn:Hold; try discriminate.
  2: { intros [= <- <-]. left. auto. }
  apply verify_old_password_Some in Hold
    as (Hs1 & salt & stored & attempt & old_password & Hload & Hin & Hat & Hv).
  destruct (max_y <=? _); [discriminate|].
  destruct (new_password_loop _ _ _ _ _ _ _ _ fuel events1)
    as [[[new_password events2]|]| | |] eqn:Hnew; try discriminate.
  2: { intros [= <- <-]. left. auto. }
  apply new_password_loop_Some in Hnew as (Htn & Hlen & Htwice).
  destruct (max_y <=? _); [discriminate|].
  destruct (change_password new_password new_salt old_key rs w) as [[w1 rep1]|] eqn:Hcp;
    [|discriminate].
  intros [= <- <-].
  destruct (changed rep1) eqn:Hchanged.
  - right. split; [reflexivity|].
    exists salt, stored, attempt, old_password, new_password, events2.
    do 6 (split; [assumption|]). split; [|assumption].
    eapply entered_twice_suffix; eassumption.
  - left. split; [reflexivity|]. eapply change_password_unchanged; eassumption.
Qed.

Lemma authenticate_Session w salt stored attempts : forall events key w' rest,
  authenticate max_y max_x w salt stored attempts events
  = Finished (Session key w' rest) ->
  w' = w /\
  exists attempt password,
    attempt ∈ attempts /\
    entered_at max_y max_x (HEADER_HEIGHT + 3 + 2 + attempt)
      (password_prompt attempt) events password /\
    verify_password password salt stored = Ok (true, key).
Proof.
  induction attempts as [|attempt attempts IH]; intros events key w' rest;
    [discriminate|].
  cbn [authenticate].
  pose proof (prompt_input_suffix max_y max_x (HEADER_HEIGHT + 3 + 2 + attempt) 2
                (password_prompt attempt) 50 events) as Hs.
  destruct (prompt_input _ _ _ _ _ _ events) as [[password| |?] events1] eqn:Hp;
    try discriminate.
  cbn [snd] in Hs.
  destruct (verify_password password salt stored) as [[[] derived_key]|] eqn:Hverify;
    try discriminate.
  - intros [= <- <- <-]. split; [reflexivity|].
    exists attempt, password. splits; auto; [left|].
    exists events, events1. split; [reflexivity|assumption].
  - intros (-> & attempt' & password' & Hin & Hat & Hv)%IH. split; [reflexivity|].
    exists attempt', password'. splits; auto; [right; assumption|].
    eapply entered_at_suffix; eassumption.
Qed.

(** X: [main] reaches its menu with an encryption key in two ways only.
    With a stored credential: a text entered at one of the three password
    prompts was verified against it, the key is the key derived from that
    text, and nothing was written. Without one: a new password of 8 to 50
    printable characters was entered twice in a row, at the prompt for the
    new password and at the prompt that confirms it, and
    [save_password_hash] stored its credential, the key being the one it
    returned; the menu reads the events that follow the confirmation. *)
Theorem main_password_handling_guard new_salt fuel events w key w' rest :
  main_password_handling max_y max_x new_salt fuel events w
  = Finished (Session key w' rest) ->
  (exists salt stored attempt password,
     load_password_salt_and_hash w = Some (salt, stored) /\ w' = w /\
     attempt ∈ [0; 1; 2] /\
     entered_at max_y max_x (HEADER_HEIGHT + 3 + 2 + attempt)
       (password_prompt attempt) events password /\
     verify_password password salt stored = Ok (true, key)) \/
  (exists new_password salt,
     typed new_password /\ (8 <= length new_password <= 50)%nat /\
     entered_twice max_y max_x (HEADER_HEIGHT + 3 + 4) (HEADER_HEIGHT + 3 + 5)
       MASTER_PASSWORD_PROMPT CONFIRM_MASTER_PROMPT events new_password rest /\
     save_password_hash new_password new_salt w = Ok (w', Some (salt, key)) /\
     notes w' = notes w).
Proof.
  unfold main_password_handling.
  assert (match new_password_loop max_y max_x (HEADER_HEIGHT + 3 + 4)
                  (HEADER_HEIGHT + 3 + 5)
                  MASTER_PASSWORD_PROMPT CONFIRM_MASTER_PROMPT
                  (HEADER_HEIGHT + 3 + 5) (HEADER_HEIGHT + 3 + 5) fuel events with
          | Finished None => Finished (Exit 0)
          | Finished (Some (new_password, events')) =>
              match save_password_hash new_password new_salt w with
              | Raise e => DialogRaised (DialogError e)
              | Ok (w', None) => Finished (Exit 1)
              | Ok (w', Some ([], _)) | Ok (w', Some (_, [])) => Finished (Exit 1)
              | Ok (w', Some (_, encryption_key)) =>
                  Finished (Session encryption_key w' events')
              end
          | DialogRaised e => DialogRaised e
          | DialogWaiting => DialogWaiting
          | DialogLooping => DialogLooping
          end = Finished (Session key w' rest) ->
          exists new_password salt,
            typed new_password /\ (8 <= length new_password <= 50)%nat /\
            entered_twice max_y max_x (HEADER_HEIGHT + 3 + 4) (HEADER_HEIGHT + 3 + 5)
              MASTER_PASSWORD_PROMPT CONFIRM_MASTER_PROMPT events new_password rest /\
            save_password_hash new_password new_salt w = Ok (w', Some (salt, key)) /\
            notes w' = notes w) as Hsetup.
  { destruct (new_password_loop _ _ _ _ _ _ _ _ fuel events)
      as [[[new_password events2]|]| | |] eqn:Hnew; try discriminate.
    apply new_password_loop_Some in Hnew as (Htn & Hlen & Htwice).
    destruct (save_password_hash new_password new_salt w)
      as [[w1 [[[|s salt] [|k key1]]|]]|] eqn:Hsave; try discriminate.
    assert (notes w1 = notes w) as Hnotes.
    { revert Hsave. unfold save_password_hash, write_password_file.
      destruct (get_key_from_password _ _); [|discriminate].
      destruct (password_file_denied w); [discriminate|].
      destruct (chmod_password_file _); [|discriminate].
      intros [= <- _ _]. reflexivity. }
    intros [= <- <- <-]. exists new_password, (s :: salt). auto. }
  destruct (load_password_salt_and_hash w) as [[[|b salt] [|h stored]]|] eqn:Hload;
    try (intros H; right; apply Hsetup, H).
  intros (-> & attempt & password & Hin & Hat & Hv)%authenticate_Session.
  left. eauto 10.
Qed.

End DialogFacts.

Section DialogRuns.
Context {crypto : Cryptography}.
Variables max_y max_x : Z.

Lemma has_room_password_prompt attempt y :
  0 <= attempt <= 2 -> y < max_y -> 27 < max_x ->
  has_room max_y max_x y 2 (password_prompt attempt) = true.
Proof.
  intros Ha Hy Hx. unfold has_room.
  assert (length (password_prompt attempt) = 24%nat) as ->.
  { assert (attempt = 0 \/ attempt = 1 \/ attempt = 2) as [->|[->| ->]] by lia;
      reflexivity. }
  ztest. reflexivity.
Qed.

(** X: with a stored credential, three passwords that do not verify end
    [main] with exit code 1: the keys that follow are not read as a fourth
    attempt and no encryption key is handed out. *)
Theorem three_wrong_passwords_exit new_salt fuel w salt stored p1 p2 p3 k1 k2 k3 rest :
  15 < max_y -> 27 < max_x ->
  load_password_salt_and_hash w = Some (salt, stored) ->
  salt <> [] -> stored <> [] ->
  typed p1 -> typed p2 -> typed p3 ->
  verify_password (take 50 p1) salt stored = Ok (false, k1) ->
  verify_password (take 50 p2) salt stored = Ok (false, k2) ->
  verify_password (take 50 p3) salt stored = Ok (false, k3) ->
  main_password_handling max_y max_x new_salt fuel
    ((KeyPress <$> p1) ++ KeyPress 10 ::
     (KeyPress <$> p2) ++ KeyPress 10 ::
     (KeyPress <$> p3) ++ KeyPress 10 :: rest) w
  = Finished (Exit 1).
Proof.
  intros Hy Hx Hload Hsalt Hstored Ht1 Ht2 Ht3 Hv1 Hv2 Hv3.
  unfold main_password_handling. rewrite Hload.
  destruct salt as [|b salt]; [congruence|].
  destruct stored as [|h stored]; [congruence|].
  cbn [authenticate]. unfold HEADER_HEIGHT, prompt_input.
  rewrite !has_room_password_prompt by lia.
  rewrite string_input_run_typing by (simpl; auto with lia). cbn [app].
  rewrite Hv1.
  rewrite string_input_run_typing by (simpl; auto with lia). cbn [app].
  rewrite Hv2.
  rewrite string_input_run_typing by (simpl; auto with lia). cbn [app].
  rewrite Hv3. reflexivity.
Qed.

Lemma new_password_loop_ends y1 y2 prompt1 prompt2 short_y mismatch_y fuel :
  forall events,
  has_room max_y max_x y1 2 prompt1 = true -> (length events < fuel)%nat ->
  new_password_loop max_y max_x y1 y2 prompt1 prompt2 short_y mismatch_y fuel events
  <> DialogLooping.
Proof.
  induction fuel as [|fuel IH]; intros events Hroom Hfuel; [lia|].
  cbn [new_password_loop]. unfold prompt_input at 1. rewrite Hroom.
  destruct (string_input_run 50 events []) as [[pass1| |?] events1] eqn:Hp1;
    try discriminate.
  apply string_input_run_rest in Hp1.
  case_bool_decide.
  { destruct (max_y <=? short_y); [discriminate|]. apply IH; [assumption|lia]. }
  destruct (prompt_input max_y max_x y2 2 prompt2 50 events1)
    as [[pass2| |?] events2] eqn:Hp2; try discriminate.
  assert (length events2 <= length events1)%nat.
  { revert Hp2. unfold prompt_input. destruct (has_room max_y max_x y2 2 prompt2).
    - intros Hrun%string_input_run_rest. lia.
    - intros [= _ <-]. lia. }
  case_bool_decide; [discriminate|].
  destruct (max_y <=? mismatch_y); [discriminate|]. apply IH; [assumption|lia].
Qed.

(** X: the first-time setup of [main] on a terminal of more than 16 rows.
    With more than 30 columns the loop that asks for the new password ends
    or waits for a key: it makes no more turns than there are key presses.
    With at most 30 columns it never ends: there is no room for the prompt
    "Enter New Master Password: ", so [get_string_input] returns the empty
    string without reading a key, which is too short, and the loop starts
    again; whatever number of turns it is given, it is still looping. *)
Theorem first_time_setup_loop new_salt fuel events w :
  16 < max_y -> load_password_salt_and_hash w = None ->
  (30 < max_x -> (length events < fuel)%nat ->
   main_password_handling max_y max_x new_salt fuel events w <> DialogLooping) /\
  (max_x <= 30 ->
   main_password_handling max_y max_x new_salt fuel events w = DialogLooping).
Proof.
  intros Hy Hload. unfold main_password_handling. rewrite Hload.
  unfold HEADER_HEIGHT. split.
  - intros Hx Hfuel.
    pose proof (new_password_loop_ends (8 + 3 + 4) (8 + 3 + 5)
                  MASTER_PASSWORD_PROMPT CONFIRM_MASTER_PROMPT (8 + 3 + 5) (8 + 3 + 5)
                  fuel events) as Hends.
    destruct (new_password_loop _ _ _ _ _ _ _ _ fuel events) as [[[pw rest]|]| | |];
      try discriminate.
    + destruct (save_password_hash pw new_salt w) as [[w1 [[[|s salt] [|k key]]|]]|];
        discriminate.
    + intros _. apply Hends; [|assumption|reflexivity].
      unfold has_room. change (Z.of_nat (length MASTER_PASSWORD_PROMPT)) with 27.
      ztest. reflexivity.
  - intros Hx. clear Hload. revert events.
    induction fuel as [|fuel IH]; intros events; [reflexivity|].
    cbn [new_password_loop]. unfold prompt_input at 1, has_room.
    change (Z.of_nat (length MASTER_PASSWORD_PROMPT)) with 27.
    ztest. cbn [orb negb]. rewrite bool_decide_eq_true_2 by (simpl; lia).
    apply IH.
Qed.

End DialogRuns.

Lemma change_password_ui_guard_witness :
  (changed changed_report = false /\
   session_key changed_report = Simple.stored_key /\
   notes new_credential_vault = notes Simple.credential_vault) \/
  (changed changed_report = true /\
   exists salt stored attempt old_password new_password rest,
     @load_password_salt_and_hash Simple.crypto Simple.credential_vault
     = Some (salt, stored) /\
     attempt ∈ [0; 1; 2] /\
     entered_at 24 80 (HEADER_HEIGHT + 2 + 3 + attempt)
       (old_password_prompt attempt) change_keys old_password /\
     @verify_password Simple.crypto old_password salt stored
     = Ok (true, Simple.stored_key) /\
     typed new_password /\ (8 <= length new_password <= 50)%nat /\
     entered_twice 24 80 (HEADER_HEIGHT + 2 + 3) (HEADER_HEIGHT + 2 + 4)
       NEW_PASSWORD_PROMPT CONFIRM_PASSWORD_PROMPT change_keys new_password rest /\
     @change_password Simple.crypto new_password Simple.salt1 Simple.stored_key
       (fun _ => 0) Simple.credential_vault
     = Ok (new_credential_vault, changed_report)).
Proof.
  apply (change_password_ui_guard (crypto := Simple.crypto) 24 80 true 3 change_keys).
  vm_compute. reflexivity.
Defined.

Lemma main_password_handling_guard_witness :
  (exists salt stored attempt password,
     @load_password_salt_and_hash Simple.crypto (vault_of ∅) = Some (salt, stored) /\
     new_credential_vault = vault_of ∅ /\
     attempt ∈ [0; 1; 2] /\
     entered_at 24 80 (HEADER_HEIGHT + 3 + 2 + attempt)
       (password_prompt attempt) setup_keys password /\
     @verify_password Simple.crypto password salt stored = Ok (true, new_stored_key)) \/
  (exists new_password salt,
     typed new_password /\ (8 <= length new_password <= 50)%nat /\
     entered_twice 24 80 (HEADER_HEIGHT + 3 + 4) (HEADER_HEIGHT + 3 + 5)
       MASTER_PASSWORD_PROMPT CONFIRM_MASTER_PROMPT setup_keys new_password
       [KeyPress KEY_DOWN] /\
     @save_password_hash Simple.crypto new_password Simple.salt1 (vault_of ∅)
     = Ok (new_credential_vault, Some (salt, new_stored_key)) /\
     notes new_credential_vault = notes (vault_of ∅)).
Proof.
  apply (main_password_handling_guard (crypto := Simple.crypto) 24 80 Simple.salt1 3
           setup_keys (vault_of ∅) new_stored_key new_credential_vault
           [KeyPress KEY_DOWN]).
  vm_compute. reflexivity.
Defined.

Lemma three_wrong_passwords_exit_witness :
  @main_password_handling Simple.crypto 24 80 Simple.salt1 3
    ((KeyPress <$> [97]) ++ KeyPress 10 ::
     (KeyPress <$> [98]) ++ KeyPress 10 ::
     (KeyPress <$> [99]) ++ KeyPress 10 :: [KeyPress 100; KeyPress 10])
    Simple.credential_vault
  = Finished (Exit 1).
Proof.
  eapply (three_wrong_passwords_exit (crypto := Simple.crypto) 24 80 Simple.salt1 3
            Simple.credential_vault Simple.salt1
            (@key_hash Simple.crypto Simple.stored_key) [97] [98] [99]).
  - lia.
  - lia.
  - vm_compute. reflexivity.
  - discriminate.
  - discriminate.
  - repeat constructor; lia.
  - repeat constructor; lia.
  - repeat constructor; lia.
  - vm_compute. reflexivity.
  - vm_compute. reflexivity.
  - vm_compute. reflexivity.
Defined.

Lemma first_time_setup_loop_witness :
  (30 < 30 -> (length password1_keys < 1000)%nat ->
   @main_password_handling Simple.crypto 24 30 Simple.salt1 1000 password1_keys
     (vault_of ∅) <> DialogLooping) /\
  (30 <= 30 ->
   @main_password_handling Simple.crypto 24 30 Simple.salt1 1000 password1_keys
     (vault_of ∅) = DialogLooping).
Proof.
  apply (first_time_setup_loop (crypto := Simple.crypto)); [lia|reflexivity].
Defined.

(** *** [import_entry] *)

Lemma unique_name_free w timestamp base_name fuel : forall dest counter name,
  unique_name w timestamp base_name fuel dest counter = Some name ->
  (name ∉ dom (notes w)) /\
  (name = dest \/ exists c, counter <= c <= 99 /\
                            name = import_name timestamp base_name (Some c)).
Proof.
  induction fuel as [|fuel IH]; intros dest counter name; cbn [unique_name];
    case_bool_decide as Hex; try discriminate; try (intros [= <-]; auto).
  destruct (Z.ltb_spec 100 (counter + 1)); [discriminate|].
  intros [Hfree [->|(c & Hc & ->)]]%IH; split; auto; right.
  - exists counter. split; [lia|reflexivity].
  - exists c. split; [lia|reflexivity].
Qed.

(** The loop gives up only when every name it tries is taken: the fuel is
    never what ends it. *)
Lemma unique_name_None w timestamp base_name fuel : forall dest counter,
  100 <= counter + Z.of_nat fuel ->
  unique_name w timestamp base_name fuel dest counter = None ->
  dest ∈ dom (notes w) /\
  forall c, counter <= c <= 99 ->
            import_name timestamp base_name (Some c) ∈ dom (notes w).
Proof.
  induction fuel as [|fuel IH]; intros dest counter Hfuel; cbn [unique_name];
    case_bool_decide as Hex; try discriminate.
  - intros _. split; [assumption|]. intros c Hc. lia.
  - destruct (Z.ltb_spec 100 (counter + 1)).
    + intros _. split; [assumption|]. intros c Hc. lia.
    + intros [Hin Hrest]%IH; [|lia]. split; [assumption|].
      intros c Hc. destruct (Z.eq_dec c counter) as [->|]; [assumption|].
      apply Hrest. lia.
Qed.

Section ImportFacts.
Context {crypto : Cryptography}.
Variable expanduser : pystr -> pystr.

(** X: [import_entry] never overwrites a note: what it writes goes to a
    name that was not in the notes directory, every existing note and the
    password file are unchanged, and after an import the new file holds
    exactly the bytes of the file at the (expanded) path, which decrypt
    under the current key. When it does not report the import, nothing
    has changed, with one exception: a write that fails after the file
    was opened leaves a new file with a part of those bytes. It gives up
    for want of a name only when the name without a number and the names
    numbered 1 to 99 are all taken. *)
Theorem import_entry_frame w out encryption_key import_path now :
  let r := import_entry expanduser w out encryption_key import_path now in
  password_file r.1 = password_file w /\
  (forall g, g ∈ dom (notes w) -> notes r.1 !! g = notes w !! g) /\
  match r.2 with
  | Imported dest_filename =>
      (dest_filename ∉ dom (notes w)) /\
      exists path data text,
        import_path = Some path /\
        files out !! expanduser path = Some data /\
        decrypt_data data encryption_key = Ok (Some text) /\
        notes r.1 = <[dest_filename := data]> (notes w)
  | ImportNoName =>
      r.1 = w /\
      exists path,
        import_path = Some path /\
        forall counter,
          counter = None \/ (exists c, counter = Some c /\ 1 <= c <= 99) ->
          import_name (timestamp now) (basename (expanduser path)) counter
            ∈ dom (notes w)
  | ImportIOError =>
      r.1 = w \/
      exists path data dest_filename n,
        import_path = Some path /\
        files out !! expanduser path = Some data /\
        (dest_filename ∉ dom (notes w)) /\
        short_write w !! dest_filename = Some n /\
        r.1 = store w dest_filename (take n data)
  | _ => r.1 = w
  end.
Proof.
  unfold import_entry.
  destruct import_path as [path|]; [|simpl; auto].
  destruct (str_strip path); [simpl; auto|].
  case_bool_decide; [|simpl; auto]. cbn [negb].
  destruct (has_entry_extension (expanduser path)); [|simpl; auto]. cbn [negb].
  unfold read_file. case_bool_decide; [simpl; auto|].
  destruct (files out !! expanduser path) as [data|] eqn:Hfile; [|simpl; auto].
  destruct (decrypt_data data encryption_key) as [[text|]|] eqn:Hdec;
    [|simpl; auto..].
  destruct (unique_name w _ _ _ _ _) as [dest|] eqn:Hname.
  - apply unique_name_free in Hname as [Hfree _].
    destruct (write_note w dest data) as [w1 [u|err]] eqn:Hw; cbn [fst snd].
    + apply write_note_Ok in Hw as (-> & _). cbn [store notes password_file].
      splits; auto.
      * intros g Hg. apply lookup_insert_ne. congruence.
      * eauto 8.
    + apply write_note_Raise in Hw as [[-> _]|(n & Hsw & _ & ->)]; [auto|].
      cbn [store notes password_file]. splits; auto.
      * intros g Hg. apply lookup_insert_ne. congruence.
      * right. exists path, data, dest, n. auto.
  - apply unique_name_None in Hname as [Hfirst Hrest]; [|lia].
    cbn [fst snd]. splits; auto. exists path. split; [reflexivity|].
    intros counter [->|(c & -> & Hc)]; auto.
Qed.

End ImportFacts.

Lemma basename_from_no_slash cur s :
  Forall (fun c => c <> 47) s -> basename_from cur s = rev cur ++ s.
Proof.
  intros Hs. revert cur. induction Hs as [|c s Hc _ IH]; intros cur; simpl.
  - rewrite app_nil_r. reflexivity.
  - rewrite (proj2 (Z.eqb_neq c 47)) by assumption.
    rewrite IH. simpl. rewrite <- app_assoc. reflexivity.
Qed.

Lemma basename_from_suffix a s : forall cur,
  Forall (fun c => c <> 47) s -> exists b, basename_from cur (a ++ s) = b ++ s.
Proof.
  induction a as [|c a IH]; intros cur Hs; simpl.
  - exists (rev cur). apply basename_from_no_slash. assumption.
  - destruct (c =? 47); apply IH; assumption.
Qed.

(** A name with the entry extension in any case: its last three characters
    are the dot and the letters [r], [z] in upper or lower case. *)
Lemma has_entry_extension_inv s :
  has_entry_extension s = true ->
  exists a s3, s = a ++ s3 /\ length s3 = 3%nat /\ str_lower s3 = ENTRY_EXTENSION /\
               Forall (fun c => c <> 47) s3.
Proof.
  unfold has_entry_extension, str_lower. intros (a' & Heq)%endswith_spec.
  apply fmap_app_inv in Heq as (a & s3 & _ & Hs3 & ->).
  exists a, s3. splits; auto.
  - apply (f_equal length) in Hs3. rewrite length_fmap in Hs3. symmetry. exact Hs3.
  - destruct s3 as [|c1 [|c2 [|c3 [|]]]]; try discriminate.
    injection Hs3 as H1 H2 H3.
    repeat constructor; intros ->; discriminate.
Qed.

Lemma has_entry_extension_app a s3 :
  length s3 = 3%nat -> str_lower s3 = ENTRY_EXTENSION ->
  has_entry_extension (a ++ s3) = true.
Proof.
  intros _ Hs3. unfold has_entry_extension, str_lower.
  apply endswith_spec. exists (ascii_lower <$> a).
  rewrite fmap_app. f_equal. exact Hs3.
Qed.

Lemma endswith_extension_app a s3 :
  length s3 = 3%nat ->
  endswith (a ++ s3) ENTRY_EXTENSION = true <-> s3 = ENTRY_EXTENSION.
Proof.
  intros Hlen. rewrite endswith_spec. split.
  - intros (b & Heq). apply app_inj_2 in Heq as [_ ?]; [assumption|].
    rewrite Hlen. reflexivity.
  - intros ->. eauto.
Qed.

Section ImportListing.
Context {crypto : Cryptography}.
Variable expanduser : pystr -> pystr.

(** X: an imported file is listed by [get_sorted_notes] exactly when the
    extension of its path is in lower case. The test for the extension in
    [import_entry] ignores the case, that of [get_sorted_notes] does not:
    a file imported as [X.RZ] is copied into the notes directory under a
    name that ends in [.RZ] and never appears in the list. *)
Theorem imported_listed_iff w out encryption_key path now dest_filename :
  (import_entry expanduser w out encryption_key (Some path) now).2
  = Imported dest_filename ->
  let w' := (import_entry expanduser w out encryption_key (Some path) now).1 in
  dest_filename ∈ dom (notes w') /\
  (dest_filename ∈ get_sorted_notes w' <->
   endswith (expanduser path) ENTRY_EXTENSION = true).
Proof.
  unfold import_entry.
  destruct (str_strip path); [discriminate|].
  case_bool_decide; [|discriminate]. cbn [negb].
  destruct (has_entry_extension (expanduser path)) eqn:Hext; [|discriminate].
  cbn [negb].
  destruct (read_file out (expanduser path)) as [data|]; [|discriminate].
  destruct (decrypt_data data encryption_key) as [[text|]|]; try discriminate.
  destruct (unique_name w _ _ _ _ _) as [dest|] eqn:Hname; [|discriminate].
  destruct (write_note w dest data) as [w1 [u|err]] eqn:Hw; [|discriminate].
  apply write_note_Ok in Hw as (-> & _).
  cbn [fst snd]. intros [= <-]. cbn [store notes].
  assert (dest ∈ dom (<[dest := data]> (notes w))) as Hin
    by (apply elem_of_dom; rewrite lookup_insert_eq; eauto).
  split; [exact Hin|].
  rewrite elem_of_get_sorted_notes. cbn [notes].
  apply has_entry_extension_inv in Hext as (a & s3 & Hpath & Hlen & Hlow & Hslash).
  destruct (basename_from_suffix a s3 [] Hslash) as (b & Hbase).
  fold (basename (a ++ s3)) in Hbase. rewrite <- Hpath in Hbase.
  assert (forall counter,
            exists pre, import_name (timestamp now) (basename (expanduser path)) counter
                        = pre ++ s3) as Hform.
  { intros counter. unfold import_name. rewrite Hbase.
    destruct counter as [c|].
    - rewrite !app_assoc, has_entry_extension_app by assumption. eauto.
    - rewrite !app_assoc, has_entry_extension_app by assumption. eauto. }
  assert (exists pre, dest = pre ++ s3) as (pre & ->).
  { apply unique_name_free in Hname as [_ [->|(c & _ & ->)]]; apply Hform. }
  rewrite Hpath, !endswith_extension_app by assumption. tauto.
Qed.

End ImportListing.

Lemma imported_listed_iff_witness :
  let w' := (@import_entry Simple.crypto (fun path => path) (vault_of ∅) outside1
               Simple.key1 (Some upper_case_path) noon).1 in
  imported_name ∈ dom (notes w') /\
  (imported_name ∈ get_sorted_notes w' <->
   endswith upper_case_path ENTRY_EXTENSION = true).
Proof.
  apply (imported_listed_iff (crypto := Simple.crypto) (fun path => path)).
  vm_compute. reflexivity.
Defined.

(** *** The menu *)

(** X: in the menu of [main] the highlighted option always is one of the
    six: Up and Down move it by one and wrap around at the ends, each
    undoes the other, and Enter never raises [IndexError]; Enter leaves the
    loop on the last option only, Escape, [q] and [Q] leave it anywhere. *)
Theorem menu_stays_in_range keys active_option :
  0 <= active_option < 6 ->
  match menu_after keys active_option with
  | Some active_option' => 0 <= active_option' < 6
  | None => True
  end /\
  (forall key, menu_key key active_option <> MenuIndexError) /\
  menu_after [KEY_UP; KEY_DOWN] active_option = Some active_option /\
  menu_after [KEY_DOWN; KEY_UP] active_option = Some active_option /\
  menu_key KEY_UP 0 = MenuStays 5 /\ menu_key KEY_DOWN 5 = MenuStays 0 /\
  (forall key, key_in key [KEY_ENTER; 10; 13] = true ->
     (menu_key key active_option = MenuLeaves <-> active_option = 5)).
Proof.
  intros Hrange.
  assert (forall key a, 0 <= a < 6 ->
            match menu_key key a with
            | MenuStays a' | MenuRuns _ a' => 0 <= a' < 6
            | MenuIndexError => False
            | MenuLeaves => True
            end) as Hstep.
  { intros key a Ha. unfold menu_key.
    change (Z.of_nat (length MENU_OPTIONS)) with 6.
    destruct (key =? KEY_UP); [apply Z.mod_pos_bound; lia|].
    destruct (key =? KEY_DOWN); [apply Z.mod_pos_bound; lia|].
    destruct (key_in key [KEY_ENTER; 10; 13]).
    - assert (a = 0 \/ a = 1 \/ a = 2 \/ a = 3 \/ a = 4 \/ a = 5)
        as [->|[->|[->|[->|[->| ->]]]]] by lia; simpl; lia.
    - destruct (key_in key [27; 113; 81]); [exact I|assumption]. }
  splits.
  - revert active_option Hrange.
    induction keys as [|key keys IH]; intros a Ha; [exact Ha|].
    cbn [menu_after]. pose proof (Hstep key a Ha) as Hk.
    destruct (menu_key key a); [apply IH, Hk|apply IH, Hk|exact I|exact I].
  - intros key Heq. pose proof (Hstep key active_option Hrange) as Hk.
    rewrite Heq in Hk. exact Hk.
  - assert (active_option = 0 \/ active_option = 1 \/ active_option = 2 \/
            active_option = 3 \/ active_option = 4 \/ active_option = 5)
      as [->|[->|[->|[->|[->| ->]]]]] by lia; reflexivity.
  - assert (active_option = 0 \/ active_option = 1 \/ active_option = 2 \/
            active_option = 3 \/ active_option = 4 \/ active_option = 5)
      as [->|[->|[->|[->|[->| ->]]]]] by lia; reflexivity.
  - reflexivity.
  - reflexivity.
  - intros key Henter. unfold menu_key. rewrite Henter.
    assert ((key =? KEY_UP) = false /\ (key =? KEY_DOWN) = false) as [-> ->].
    { apply (key_in_elim _ _ _ Henter).
      repeat (apply List.Forall_cons; [intros ->; auto|]). apply List.Forall_nil. }
    assert (active_option = 0 \/ active_option = 1 \/ active_option = 2 \/
            active_option = 3 \/ active_option = 4 \/ active_option = 5)
      as [->|[->|[->|[->|[->| ->]]]]] by lia; simpl;
      (split; [discriminate || reflexivity|discriminate || reflexivity]).
Qed.

Lemma menu_stays_in_range_witness :
  match menu_after [KEY_UP; 120; KEY_UP; 10] 0 with
  | Some active_option' => 0 <= active_option' < 6
  | None => True
  end /\
  (forall key, menu_key key 0 <> MenuIndexError) /\
  menu_after [KEY_UP; KEY_DOWN] 0 = Some 0 /\
  menu_after [KEY_DOWN; KEY_UP] 0 = Some 0 /\
  menu_key KEY_UP 0 = MenuStays 5 /\ menu_key KEY_DOWN 5 = MenuStays 0 /\
  (forall key, key_in key [KEY_ENTER; 10; 13] = true ->
     (menu_key key 0 = MenuLeaves <-> 0 = 5)).
Proof. apply menu_stays_in_range. lia. Defined.
